(** * Segmentation engine of [src/ingestion/parse_codexes.py]

    A shallow embedding of the page parser ([parse_article_page]), the
    per-code assembler ([parse_codex]) and the driver ([main]), with the
    properties stated about them; further, of the chapter map
    ([extract_chapter_from_index]), of the text that is embedded
    ([create_embedding_text]) and of the selection of the pages to download
    ([download_article_pages]).

    Conventions.
    - A Python [str] is a sequence of Unicode code points: [str := list N].
      String literals of the source are written as UTF-8 Rocq strings and
      decoded with [u].
    - The HTML parser (BeautifulSoup over lxml) is a library: a page is
      given as the tree it builds ([node]).
    - [re], [str] and [int] are modelled as CPython implements them
      (Unicode database 14.0, the one of CPython 3.11). *)

From Stdlib Require Import Ascii String NArith ZArith.
From stdpp Require Import gmap strings list sets sorting.

Local Open Scope N_scope.

(** ** Python strings *)

Definition char := N.
Definition str := list N.

Fixpoint bytes_of (s : string) : list N :=
  match s with
  | EmptyString => []
  | String a s' => N_of_ascii a :: bytes_of s'
  end.

(** UTF-8 decoding of a well-formed byte sequence (used for literals only). *)
Fixpoint utf8_decode (bs : list N) : str :=
  match bs with
  | [] => []
  | b0 :: r0 =>
    if b0 <? 0x80 then b0 :: utf8_decode r0 else
    match r0 with
    | [] => []
    | b1 :: r1 =>
      if b0 <? 0xE0 then ((b0 mod 32) * 64 + b1 mod 64) :: utf8_decode r1 else
      match r1 with
      | [] => []
      | b2 :: r2 =>
        if b0 <? 0xF0
        then ((b0 mod 16) * 4096 + (b1 mod 64) * 64 + b2 mod 64) :: utf8_decode r2
        else
        match r2 with
        | [] => []
        | b3 :: r3 =>
          ((b0 mod 8) * 262144 + (b1 mod 64) * 4096 + (b2 mod 64) * 64 + b3 mod 64)
            :: utf8_decode r3
        end
      end
    end
  end.

Definition u (s : string) : str := utf8_decode (bytes_of s).

(** [Py_UNICODE_ISSPACE]: what [\s] matches in a [str] pattern and what
    [str.strip()] removes. *)
Definition Py_UNICODE_ISSPACE (c : char) : bool :=
  ((0x09 <=? c) && (c <=? 0x0D)) || ((0x1C <=? c) && (c <=? 0x20))
  || (c =? 0x85) || (c =? 0xA0) || (c =? 0x1680)
  || ((0x2000 <=? c) && (c <=? 0x200A))
  || (c =? 0x2028) || (c =? 0x2029) || (c =? 0x202F) || (c =? 0x205F)
  || (c =? 0x3000).

(** The code points of digit zero of every block of general category Nd;
    each block holds the ten digits in order. *)
Definition Nd_zeros : list N :=
  [ 0x30; 0x660; 0x6F0; 0x7C0; 0x966; 0x9E6; 0xA66; 0xAE6; 0xB66; 0xBE6;
    0xC66; 0xCE6; 0xD66; 0xDE6; 0xE50; 0xED0; 0xF20; 0x1040; 0x1090; 0x17E0;
    0x1810; 0x1946; 0x19D0; 0x1A80; 0x1A90; 0x1B50; 0x1BB0; 0x1C40; 0x1C50;
    0xA620; 0xA8D0; 0xA900; 0xA9D0; 0xA9F0; 0xAA50; 0xABF0; 0xFF10; 0x104A0;
    0x10D30; 0x11066; 0x110F0; 0x11136; 0x111D0; 0x112F0; 0x11450; 0x114D0;
    0x11650; 0x116C0; 0x11730; 0x118E0; 0x11950; 0x11C50; 0x11D50; 0x11DA0;
    0x16A60; 0x16AC0; 0x16B50; 0x1D7CE; 0x1D7D8; 0x1D7E2; 0x1D7EC; 0x1D7F6;
    0x1E140; 0x1E2F0; 0x1E950; 0x1FBF0 ].

(** [Py_UNICODE_TODECIMAL]: the decimal value of a digit, if it is one. *)
Definition Py_UNICODE_TODECIMAL (c : char) : option N :=
  match List.find (fun z => (z <=? c) && (c <? z + 10)) Nd_zeros with
  | Some z => Some (c - z)
  | None => None
  end.

(** [Py_UNICODE_ISDECIMAL]: what [\d] matches in a [str] pattern. *)
Definition Py_UNICODE_ISDECIMAL (c : char) : bool :=
  match Py_UNICODE_TODECIMAL c with Some _ => true | None => false end.

(** [.] without DOTALL: any character except a line feed. *)
Definition not_linebreak (c : char) : bool := negb (c =? 0x0A).

(** Simple lower-case mapping restricted to the Basic Latin and Cyrillic
    blocks; the identity elsewhere.  The capitals of these two blocks are
    the only code points that lower-case to a character of [SKIP_MARKERS]
    or of the marker word of [ARTICLE_HEADER], so the tests built on it
    below decide exactly what the source decides. *)
Definition tolower (c : char) : char :=
  if (0x41 <=? c) && (c <=? 0x5A) then c + 0x20
  else if (0x400 <=? c) && (c <=? 0x40F) then c + 0x50
  else if (0x410 <=? c) && (c <=? 0x42F) then c + 0x20
  else c.

(** [str.lower()] *)
Definition lower (s : str) : str := map tolower s.

(** Extra case-insensitive equivalents of a lower-case pattern character
    (table [_equivalences] of the [re] compiler), for the Cyrillic letters. *)
Definition equivalences (lo : char) : list char :=
  if lo =? 0x432 then [0x1C80]
  else if lo =? 0x434 then [0x1C81]
  else if lo =? 0x43E then [0x1C82]
  else if lo =? 0x441 then [0x1C83]
  else if lo =? 0x442 then [0x1C84; 0x1C85]
  else if lo =? 0x44A then [0x1C86]
  else if lo =? 0x463 then [0x1C87]
  else [].

(** A literal pattern character [pc] under IGNORECASE against [c]. *)
Definition literal_ignore (pc c : char) : bool :=
  let lo := tolower pc in
  let lc := tolower c in
  (lc =? lo) || existsb (N.eqb lc) (equivalences lo).

(** [s.strip()] *)
Fixpoint lstrip (s : str) : str :=
  match s with
  | c :: s' => if Py_UNICODE_ISSPACE c then lstrip s' else s
  | [] => []
  end.

Definition rstrip (s : str) : str := rev (lstrip (rev s)).

Definition strip (s : str) : str := rstrip (lstrip s).

(** [sub in s] *)
Fixpoint starts_with (p s : str) : bool :=
  match p, s with
  | [], _ => true
  | a :: p', b :: s' => (a =? b) && starts_with p' s'
  | _ :: _, [] => false
  end.

Fixpoint contains (sub s : str) : bool :=
  starts_with sub s ||
  match s with
  | [] => false
  | _ :: s' => contains sub s'
  end.

(** [sep.join(parts)] *)
Fixpoint join (sep : str) (parts : list str) : str :=
  match parts with
  | [] => []
  | [p] => p
  | p :: rest => p ++ sep ++ join sep rest
  end.

(** [s.split(".")]: the pieces between the separator characters. *)
Fixpoint str_split (sep : char) (s : str) : list str :=
  match s with
  | [] => [[]]
  | c :: s' =>
    if c =? sep then [] :: str_split sep s'
    else match str_split sep s' with
         | p :: ps => (c :: p) :: ps
         | [] => [[c]]
         end
  end.

(** [re.sub(r"\s+", " ", text)]: every maximal run of white space becomes
    one space. *)
Fixpoint sub_spaces (in_run : bool) (s : str) : str :=
  match s with
  | [] => []
  | c :: s' =>
    if Py_UNICODE_ISSPACE c
    then (if in_run then sub_spaces true s' else 0x20 :: sub_spaces true s')
    else c :: sub_spaces false s'
  end.

(** [s.replace("\xa0", " ")] *)
Definition replace_nbsp (s : str) : str :=
  map (fun c => if c =? 0xA0 then 0x20 else c) s.

Definition clean_text (text : str) : str :=
  let text := strip (sub_spaces false text) in
  replace_nbsp text.

Local Close Scope N_scope.

(** ** Regular expressions

    The fragment of [re] that [ARTICLE_HEADER] uses, with the priorities of
    the backtracking matcher: a greedy quantifier tries the longest
    repetition first, a lazy one the shortest, an optional group is tried
    before it is skipped.  Repetition is over one-character classes, as in
    the pattern. *)

Inductive regex :=
| Eps
| Chr (p : char -> bool)
| Cat (r1 r2 : regex)
| Opt (r : regex)
| Rep (greedy : bool) (lo : nat) (p : char -> bool)
| Grp (i : nat) (r : regex).

Section matcher.
Context {A : Type}.

(** [p{lo,}] greedy: one more repetition first, the continuation next. *)
Fixpoint rep_greedy (p : char -> bool) (lo : nat) (s : str)
    (k : str -> option A) : option A :=
  match s with
  | c :: s' =>
    if p c then
      match rep_greedy p (pred lo) s' k with
      | Some a => Some a
      | None => match lo with O => k s | S _ => None end
      end
    else match lo with O => k s | S _ => None end
  | [] => match lo with O => k s | S _ => None end
  end.

(** [p{lo,}?] lazy: the continuation first, one more repetition next. *)
Fixpoint rep_lazy (p : char -> bool) (lo : nat) (s : str)
    (k : str -> option A) : option A :=
  match lo with
  | O =>
    match k s with
    | Some a => Some a
    | None =>
      match s with
      | c :: s' => if p c then rep_lazy p O s' k else None
      | [] => None
      end
    end
  | S n =>
    match s with
    | c :: s' => if p c then rep_lazy p n s' k else None
    | [] => None
    end
  end.

(** The matcher, in continuation-passing style: [k] is what remains to be
    matched after [r]; [None] makes the matcher backtrack. *)
Fixpoint rmatch (r : regex) (s : str) (c : gmap nat str)
    (k : str -> gmap nat str -> option A) : option A :=
  match r with
  | Eps => k s c
  | Chr p =>
    match s with
    | x :: s' => if p x then k s' c else None
    | [] => None
    end
  | Cat r1 r2 => rmatch r1 s c (fun s1 c1 => rmatch r2 s1 c1 k)
  | Opt r1 =>
    match rmatch r1 s c k with
    | Some a => Some a
    | None => k s c
    end
  | Rep true lo p => rep_greedy p lo s (fun s' => k s' c)
  | Rep false lo p => rep_lazy p lo s (fun s' => k s' c)
  | Grp i r1 =>
    rmatch r1 s c
      (fun s' c' => k s' (<[i := take (length s - length s') s]> c'))
  end.
End matcher.

(** [pattern.match(text)]: anchored at the start, the groups of the first
    successful path. *)
Definition re_match (r : regex) (text : str) : option (gmap nat str) :=
  rmatch r text ∅ (fun _ c => Some c).

(** [m.group(i)] of a group that took part in the match. *)
Definition group (m : gmap nat str) (i : nat) : str := default [] (m !! i).

Definition literal (s : str) : regex :=
  foldr (fun pc r => Cat (Chr (literal_ignore pc)) r) Eps s.

Definition is_dot (c : char) : bool := (c =? 0x2E)%N.

Definition marker : str := u "Статья".

(** [(?:.*?\s)?Статья\s+(\d+(?:\.\d+)?)\s*\.\s*(.+)] with IGNORECASE *)
Definition ARTICLE_HEADER : regex :=
  Cat (Opt (Cat (Rep false 0 not_linebreak) (Chr Py_UNICODE_ISSPACE)))
 (Cat (literal marker)
 (Cat (Rep true 1 Py_UNICODE_ISSPACE)
 (Cat (Grp 1 (Cat (Rep true 1 Py_UNICODE_ISDECIMAL)
                  (Opt (Cat (Chr is_dot) (Rep true 1 Py_UNICODE_ISDECIMAL)))))
 (Cat (Rep true 0 Py_UNICODE_ISSPACE)
 (Cat (Chr is_dot)
 (Cat (Rep true 0 Py_UNICODE_ISSPACE)
      (Grp 2 (Rep true 1 not_linebreak)))))))).

(** [ARTICLE_HEADER.match(text)], as the pair of its two groups. *)
Definition header_match (text : str) : option (str * str) :=
  match re_match ARTICLE_HEADER text with
  | Some m => Some (group m 1, group m 2)
  | None => None
  end.

(** ** Documents *)

#[local] Set Warnings "-register-all".

(** The tree BeautifulSoup builds: strings and tags with their class list
    ([tag.get("class", [])]) and children. *)
Inductive node :=
| Text (s : str)
| Tag (name : str) (classes : list str) (children : list node).

(** A tag found by [find_all], with what [.parent], [.parent.parent], ...
    give: the class lists of its ancestors, the nearest first. *)
Definition located : Type := list (list str) * node.

(** [content.find_all("p", recursive=True)], in document order; [anc] is the
    ancestor chain of the children of [n]. *)
Fixpoint find_all_p (anc : list (list str)) (n : node) : list located :=
  match n with
  | Text _ => []
  | Tag name cls children =>
    (if bool_decide (name = u "p") then [(anc, n)] else [])
    ++ flat_map (find_all_p (cls :: anc)) children
  end.

Definition descendants_p (content : node) : list located :=
  match content with
  | Text _ => []
  | Tag _ cls children => flat_map (find_all_p [cls]) children
  end.

(** [soup.find("div", class_="document-page__content")]: the first such tag
    in document order. *)
Fixpoint find_in (n : node) : option node :=
  match n with
  | Text _ => None
  | Tag name cls children =>
    if bool_decide (name = u "div")
       && bool_decide (u "document-page__content" ∈ cls)
    then Some n
    else foldr (fun ch r => match find_in ch with Some x => Some x | None => r end)
               None children
  end.

Definition find_content (soup : list node) : option node :=
  foldr (fun ch r => match find_in ch with Some x => Some x | None => r end)
        None soup.

Fixpoint strings (n : node) : list str :=
  match n with
  | Text s => [s]
  | Tag _ _ children => flat_map strings children
  end.

Definition nonempty_list {A} (l : list A) : bool :=
  match l with [] => false | _ :: _ => true end.

Definition nonempty (s : str) : bool := nonempty_list s.

(** [tag.get_text(strip=True)]: the stripped, non-empty strings below the
    tag, concatenated. *)
Definition get_text (n : node) : str :=
  concat (List.filter nonempty (map strip (strings n))).

(** ** Records and tables *)

Record article := {
  codex : str;
  codex_id : str;
  chapter : str;
  article_num : str;
  article_title : str;
  text : str;
  url : str
}.

Definition CODEX_NAMES : list (str * str) :=
  [ (u "gk1", u "Гражданский кодекс РФ (часть 1)");
    (u "gk2", u "Гражданский кодекс РФ (часть 2)");
    (u "gk3", u "Гражданский кодекс РФ (часть 3)");
    (u "gk4", u "Гражданский кодекс РФ (часть 4)");
    (u "uk", u "Уголовный кодекс РФ");
    (u "tk", u "Трудовой кодекс РФ");
    (u "nk1", u "Налоговый кодекс РФ (часть 1)");
    (u "nk2", u "Налоговый кодекс РФ (часть 2)");
    (u "sk", u "Семейный кодекс РФ");
    (u "jk", u "Жилищный кодекс РФ");
    (u "koap", u "КоАП РФ") ].

Definition CODEX_URLS : list (str * str) :=
  [ (u "gk1", u "https://www.consultant.ru/document/cons_doc_LAW_5142/");
    (u "gk2", u "https://www.consultant.ru/document/cons_doc_LAW_9027/");
    (u "gk3", u "https://www.consultant.ru/document/cons_doc_LAW_34154/");
    (u "gk4", u "https://www.consultant.ru/document/cons_doc_LAW_64629/");
    (u "uk", u "https://www.consultant.ru/document/cons_doc_LAW_10699/");
    (u "tk", u "https://www.consultant.ru/document/cons_doc_LAW_34683/");
    (u "nk1", u "https://www.consultant.ru/document/cons_doc_LAW_19671/");
    (u "nk2", u "https://www.consultant.ru/document/cons_doc_LAW_28165/");
    (u "sk", u "https://www.consultant.ru/document/cons_doc_LAW_8982/");
    (u "jk", u "https://www.consultant.ru/document/cons_doc_LAW_51057/");
    (u "koap", u "https://www.consultant.ru/document/cons_doc_LAW_34661/") ].

(** [d.get(k, default)] on a dict literal *)
Fixpoint dict_get (d : list (str * str)) (k : str) (dflt : str) : str :=
  match d with
  | [] => dflt
  | (k', v) :: d' => if bool_decide (k' = k) then v else dict_get d' k dflt
  end.

Definition SKIP_MARKERS : list str :=
  [ u "консультантплюс"; u "подготовлен"; u "изменяющих документов";
    u "путеводител"; u "судебная практика"; u "перспективы и риски";
    u "примечание."; u "(в ред."; u "открыть полный текст";
    u "готовые решения"; u "см. также"; u "позиции высших судов";
    u "истец (заявитель)"; u "ответчик хочет"; u "истец хочет";
    u "что нужно доказать"; u "какие обстоятельства";
    u "рекомендации по составлению"; u "как составить" ].

(** The [raw/<codex_id>] directory of one code: the chapter map that
    [extract_chapter_from_index] builds from [index.html] and caches
    ([None] when there is no [index.html]), and the [*.html] files in the
    order [glob] yields them, each with its name and parsed content. *)
Record codex_dir := {
  chapter_map : option (gmap str str);
  html_files : list (str * list node)
}.

Definition extract_chapter_from_index (raw : gmap str codex_dir)
    (codex_id page_hash : str) : str :=
  match raw !! codex_id with
  | Some d =>
    match chapter_map d with
    | Some m => default [] (m !! page_hash)
    | None => []
    end
  | None => []
  end.

(** ** The page parser *)

(** The variables of [parse_article_page] that the loop updates. *)
Record pstate := {
  current_num : option str;
  current_title : str;
  current_parts : list str;
  articles : list article
}.

(** Truth value of [current_num]: neither [None] nor empty. *)
Definition num_set (n : option str) : bool :=
  match n with Some (_ :: _) => true | _ => false end.

Section page.
Variable raw : gmap str codex_dir.
Variables codex_id page_hash : str.

Definition save_article (st : pstate) : pstate :=
  match current_num st with
  | Some num =>
    if nonempty num && negb (bool_decide (current_parts st = [])) then
      let text := clean_text (join (u " ") (current_parts st)) in
      if bool_decide (20 < length text) then
        let chapter := extract_chapter_from_index raw codex_id page_hash in
        let base_url := dict_get CODEX_URLS codex_id [] in
        {| current_num := current_num st;
           current_title := current_title st;
           current_parts := current_parts st;
           articles := articles st ++
             [ Build_article
                 (* codex *) (dict_get CODEX_NAMES codex_id codex_id)
                 (* codex_id *) codex_id
                 (* chapter *) chapter
                 (* article_num *) num
                 (* article_title *) (current_title st)
                 (* text *) text
                 (* url *) (base_url ++ page_hash ++ u "/") ] |}
      else st
    else st
  | None => st
  end.

Definition edit_classes : list str :=
  [ u "doc-edit"; u "document__edit"; u "doc-insert"; u "document__insert" ].

(** [any(c in parent_classes for c in [...])] on [p.parent] *)
Definition in_edit_block (p : located) : bool :=
  let parent_classes := hd [] (fst p) in
  existsb (fun c => bool_decide (c ∈ parent_classes)) edit_classes.

Definition is_noise (text : str) : bool :=
  let text_lower := lower text in
  existsb (fun marker => contains marker text_lower) SKIP_MARKERS.

(** One iteration of [for p in all_paragraphs]. *)
Definition step (st : pstate) (p : located) : pstate :=
  if in_edit_block p then st else
  let text := get_text (snd p) in
  if negb (nonempty text) || bool_decide (length text < 3) then st else
  if is_noise text then st else
  match header_match text with
  | Some (g1, g2) =>
    let st := save_article st in
    {| current_num := Some g1;
       current_title := clean_text g2;
       current_parts := [];
       articles := articles st |}
  | None =>
    if num_set (current_num st)
    then {| current_num := current_num st;
            current_title := current_title st;
            current_parts := current_parts st ++ [text];
            articles := articles st |}
    else st
  end.

Definition init : pstate :=
  {| current_num := None; current_title := []; current_parts := [];
     articles := [] |}.

Definition parse_paragraphs (all_paragraphs : list located) : list article :=
  articles (save_article (foldl step init all_paragraphs)).

Definition parse_article_page (html : list node) : list article :=
  match find_content html with
  | None => []
  | Some content => parse_paragraphs (descendants_p content)
  end.
End page.

(** ** The assembler *)

(** [Py_ISSPACE]: the white space of the C locale, which [int] skips. *)
Definition Py_ISSPACE (c : char) : bool :=
  ((0x09 <=? c) && (c <=? 0x0D))%N || (c =? 0x20)%N.

(** [_PyUnicode_TransformDecimalAndSpaceToASCII], per character: Unicode
    digits and spaces become ASCII ones, any other non-ASCII character
    becomes [?] (where the conversion stops: the string is rejected). *)
Definition to_ascii (c : char) : char :=
  if (c <? 127)%N then c
  else if Py_UNICODE_ISSPACE c then 0x20%N
  else match Py_UNICODE_TODECIMAL c with
       | Some d => (0x30 + d)%N
       | None => 0x3F%N
       end.

Fixpoint skip_spaces (s : str) : str :=
  match s with
  | c :: s' => if Py_ISSPACE c then skip_spaces s' else s
  | [] => []
  end.

Definition is_ascii_digit (c : char) : bool := ((0x30 <=? c) && (c <=? 0x39))%N.
Definition is_underscore (c : char) : bool := (c =? 0x5F)%N.

(** The scanning loop of [long_from_string_base]: digits with single
    underscores between them; [prev] is the character before [s].  Gives
    the digits and what follows them. *)
Fixpoint scan_digits (prev : char) (s : str) : option (list N * str) :=
  match s with
  | c :: s' =>
    if is_ascii_digit c then
      match scan_digits c s' with
      | Some (ds, rest) => Some ((c - 0x30)%N :: ds, rest)
      | None => None
      end
    else if is_underscore c then
      (if is_underscore prev then None else scan_digits c s')
    else if is_underscore prev then None else Some ([], s)
  | [] => if is_underscore prev then None else Some ([], [])
  end.

(** [sys.int_info.default_max_str_digits]: longer digit strings are
    refused by [int] with a [ValueError]. *)
Definition default_max_str_digits : nat := 4300.

Definition digits_value (ds : list N) : Z :=
  foldl (fun acc d => acc * 10 + Z.of_N d)%Z 0%Z ds.

(** [int(s)] for a [str]: [None] is [ValueError]. *)
Definition int (s : str) : option Z :=
  let t := skip_spaces (map to_ascii s) in
  let '(negative, t) :=
    match t with
    | c :: t' =>
      if (c =? 0x2B)%N then (false, t')
      else if (c =? 0x2D)%N then (true, t')
      else (false, t)
    | [] => (false, t)
    end in
  match t with
  | c :: _ => if is_underscore c then None else
    match scan_digits 0%N t with
    | Some (d :: ds, rest) =>
      if nonempty (skip_spaces rest) then None
      else if bool_decide (default_max_str_digits < length (d :: ds)) then None
      else Some (if negative then - digits_value (d :: ds)
                 else digits_value (d :: ds))%Z
    | _ => None
    end
  | [] => None
  end.

(** [tuple(int(p) for p in a["article_num"].split("."))] *)
Definition sort_key (a : article) : option (list Z) :=
  mapM int (str_split 0x2E%N (article_num a)).

(** [<] on sequences: the first difference decides, a proper prefix is
    smaller. *)
Fixpoint lex_lt {A : Type} (eqb ltb : A -> A -> bool) (a b : list A) : bool :=
  match a, b with
  | [], [] => false
  | [], _ :: _ => true
  | _ :: _, [] => false
  | x :: a', y :: b' => if eqb x y then lex_lt eqb ltb a' b' else ltb x y
  end.

Definition tuple_lt : list Z -> list Z -> bool := lex_lt Z.eqb Z.ltb.
Definition str_lt : str -> str -> bool := lex_lt N.eqb N.ltb.

(** [sorted] and [list.sort]: a stable sort that only uses [<].  Every
    element is put in front of the first element that is not smaller than
    it, so equal elements keep their order. *)
Section sort.
Context {A : Type} (lt : A -> A -> bool).

Fixpoint insert_sorted (x : A) (l : list A) : list A :=
  match l with
  | [] => [x]
  | y :: l' => if lt y x then y :: insert_sorted x l' else x :: l
  end.

Definition py_sort (l : list A) : list A := foldr insert_sorted [] l.
End sort.

(** [try: all_articles.sort(key=sort_key) except (ValueError, TypeError): pass]:
    the keys are computed first; when one of them raises, the list is left
    as it was. *)
Definition sort_articles (all_articles : list article) : list article :=
  match mapM sort_key all_articles with
  | None => all_articles
  | Some keys =>
    (py_sort (fun a b => tuple_lt a.1 b.1) (zip keys all_articles)).*2
  end.

Fixpoint ends_with (suffix s : str) : bool :=
  bool_decide (s = suffix) ||
  match s with
  | [] => false
  | _ :: s' => ends_with suffix s'
  end.

(** [codex_dir.glob("*.html")] *)
Definition glob_html (d : codex_dir) : list (str * list node) :=
  List.filter (fun f => ends_with (u ".html") (fst f)) (html_files d).

(** [html_file.stem] of a name that ends in [.html] *)
Definition stem (name : str) : str :=
  if bool_decide (length name = 5) then name else take (length name - 5) name.

(** [<] on the paths of one directory: by file name. *)
Definition by_name (a b : str * list node) : bool := str_lt a.1 b.1.

(** The body of [for art in articles]. *)
Definition dedup_step (acc : gset (str * str) * list article) (art : article)
    : gset (str * str) * list article :=
  let key := (codex_id art, article_num art) in
  if bool_decide (key ∈ acc.1) then acc
  else ({[ key ]} ∪ acc.1, acc.2 ++ [art]).

(** The two nested loops of [parse_codex] over the pages and their
    records: [all_articles] when the loops end. *)
Definition collect (pages : list (list article)) : list article :=
  (foldl (fun acc articles => foldl dedup_step acc articles) (∅, []) pages).2.

Section codex.
Variable raw : gmap str codex_dir.

(** The pages of a code in the order they are parsed, with the records
    of each. *)
Definition page_articles (cid : str) (d : codex_dir) : list (list article) :=
  let html_files := py_sort by_name (glob_html d) in
  flat_map
    (fun html_file =>
       if bool_decide (fst html_file = u "index.html") then []
       else [parse_article_page raw cid (stem (fst html_file)) (snd html_file)])
    html_files.

Definition parse_codex (cid : str) : list article :=
  match raw !! cid with
  | None => []
  | Some d => sort_articles (collect (page_articles cid d))
  end.

(** The body of the first loop of [main]: the records of a code are
    written to its file when there are any. *)
Definition write_codex (fs : gmap str (list article)) (entry : str * str)
    : gmap str (list article) :=
  let '(cid, _) := entry in
  let articles := parse_codex cid in
  if nonempty_list articles then <[cid := articles]> fs else fs.

(** [main]: [parsed] maps a code to the content of its [<codex_id>.json]
    in the output directory.  Gives the directory after the run and the
    combined corpus written to [all_codexes.json]. *)
Definition main (parsed : gmap str (list article))
    : gmap str (list article) * list article :=
  let parsed := foldl write_codex parsed CODEX_NAMES in
  let all_articles :=
    flat_map (fun '(cid, _) => default [] (parsed !! cid)) CODEX_NAMES in
  (parsed, all_articles).
End codex.

(** ** Specification vocabulary *)

(** What a regular expression matches, without any order of preference:
    [matches r w c c'] when [r] matches exactly the word [w] and takes the
    groups from [c] to [c']. *)
Fixpoint matches (r : regex) (w : str) (c c' : gmap nat str) : Prop :=
  match r with
  | Eps => w = [] ∧ c' = c
  | Chr p => ∃ x, w = [x] ∧ p x = true ∧ c' = c
  | Cat r1 r2 =>
    ∃ w1 w2 c1, w = w1 ++ w2 ∧ matches r1 w1 c c1 ∧ matches r2 w2 c1 c'
  | Opt r1 => matches r1 w c c' ∨ (w = [] ∧ c' = c)
  | Rep _ lo p => Forall (λ x, p x = true) w ∧ lo ≤ length w ∧ c' = c
  | Grp i r1 => ∃ c1, matches r1 w c c1 ∧ c' = <[i := w]> c1
  end.

Definition all_of (p : char -> bool) (w : str) : Prop :=
  Forall (λ x, p x = true) w.

(** A dotted numeric identifier: one or two groups of digits joined by a
    dot. *)
Definition dotted_num (num : str) : Prop :=
  ∃ d1, d1 ≠ [] ∧ all_of Py_UNICODE_ISDECIMAL d1 ∧
    (num = d1 ∨
     ∃ d2, d2 ≠ [] ∧ all_of Py_UNICODE_ISDECIMAL d2 ∧ num = d1 ++ [0x2E%N] ++ d2).

(** The free-text prefix: nothing, or text without a line break followed
    by one white-space character. *)
Definition header_prefix (pre : str) : Prop :=
  pre = [] ∨
  ∃ p w, pre = p ++ [w] ∧ all_of not_linebreak p ∧ Py_UNICODE_ISSPACE w = true.

(** The marker word, in any case. *)
Definition marker_word (mk : str) : Prop :=
  Forall2 (λ pc c, literal_ignore pc c = true) marker mk.

(** The Header Grammar in words: prefix, marker word, white space, dotted
    number, separator (a dot with optional white space around it), title
    (at least one character, none of them a line break); the line may go on
    after the title. *)
Definition header_shape (line pre mk ws num ws1 ws2 title rest : str) : Prop :=
  line = pre ++ mk ++ ws ++ num ++ ws1 ++ [0x2E%N] ++ ws2 ++ title ++ rest ∧
  header_prefix pre ∧ marker_word mk ∧
  ws ≠ [] ∧ all_of Py_UNICODE_ISSPACE ws ∧
  dotted_num num ∧
  all_of Py_UNICODE_ISSPACE ws1 ∧ all_of Py_UNICODE_ISSPACE ws2 ∧
  title ≠ [] ∧ all_of not_linebreak title.

Definition structural_header (line : str) : Prop :=
  ∃ pre mk ws num ws1 ws2 title rest,
    header_shape line pre mk ws num ws1 ws2 title rest.

(** ** Pages and directories used as examples *)

Definition par (s : str) : node := Tag (u "p") [] [Text s].

Definition content_div (children : list node) : node :=
  Tag (u "div") [u "document-page__content"] children.

Definition page_of (children : list node) : list node :=
  [Tag (u "html") [] [Tag (u "body") [] [content_div children]]].

(** One paragraph per line, directly in the content container. *)
Definition stream_page (lines : list str) : list node := page_of (map par lines).

Definition in_content (n : node) : located := ([[u "document-page__content"]], n).

(** A record that has only a code and a number. *)
Definition numbered (cid num : str) : article :=
  Build_article [] cid [] num [] [] [].

Definition scenario_A : list str :=
  [u "Статья 5. Foo"; u "Body one."; u "Статья 6. Bar"; u "Body two."].

Definition long_body_1 : str := u "Body one of the fifth article.".

Definition long_body_2 : str := u "Body two of the sixth article.".

(** Every paragraph of this page lies two levels below an edit container. *)
Definition nested_edit_page : list node :=
  page_of
    [ Tag (u "div") [u "doc-edit"]
        [ Tag (u "div") []
            [ par (u "Статья 9. Вставка");
              par (u "Этот текст находится внутри блока редакции.") ] ] ].

Definition prose_prefix : str :=
  u "Как разъяснил суд, при разрешении споров о возмещении вреда следует учитывать, что применению подлежит ".

Definition prose_line : str := prose_prefix ++ u "Статья 15. Возмещение убытков".

(** Two pages of one code that both hold article 10 (and the table of
    contents, which is not parsed): [a.html] is parsed first. *)
Definition dup_dir : codex_dir :=
  {| chapter_map := None;
     html_files :=
       [ (u "b.html", stream_page [u "Статья 10. Dup"; u "Second page: body of article ten."]);
         (u "index.html", []);
         (u "a.html", stream_page [u "Статья 10. Dup"; u "First page: body of article ten."]) ] |}.

Definition dup_raw : gmap str codex_dir := {[ u "gk1" := dup_dir ]}.

(** The same directory, listed in another order. *)
Definition dup_raw_reordered : gmap str codex_dir :=
  {[ u "gk1" := {| chapter_map := None; html_files := reverse (html_files dup_dir) |} ]}.

Definition uk_raw : gmap str codex_dir :=
  {[ u "uk" :=
       {| chapter_map := None;
          html_files :=
            [ (u "c.html", stream_page [u "Статья 1. Задачи"; u "Задачами настоящего Кодекса являются охрана прав."]) ] |} ]}.

Definition long_number : str := repeat 0x31%N 4301.

(** One page with two articles, the first with a number of 4301 digits. *)
Definition long_number_page : list node :=
  stream_page [ u "Статья " ++ long_number ++ u ". Общие положения";
                u "Текст статьи с очень длинным номером.";
                u "Статья 2. Вторая";
                u "Текст второй статьи этого кодекса." ].

(** ** Further vocabulary *)

(** What holds of every record the page parser emits for the code [cid]. *)
Record emitted (cid : str) (a : article) : Prop := {
  emitted_codex_id : codex_id a = cid;
  emitted_num : dotted_num (article_num a);
  emitted_length : 20 < length (text a);
  emitted_text : ∃ parts, text a = clean_text (join (u " ") parts)
}.

(** The state of the page loop: the number of the candidate is a dotted
    number, and so are the records emitted so far. *)
Definition page_inv (cid : str) (st : pstate) : Prop :=
  (∀ num, current_num st = Some num → dotted_num num) ∧
  Forall (emitted cid) (articles st).

(** A line that the loop takes as body text. *)
Definition body_line (b : str) : Prop :=
  strip b = b ∧ 3 ≤ length b ∧ is_noise b = false ∧ header_match b = None.

(** The record [save_article] builds. *)
Definition record (raw : gmap str codex_dir) (cid page_hash num title body : str)
    : article :=
  Build_article (dict_get CODEX_NAMES cid cid) cid
    (extract_chapter_from_index raw cid page_hash) num title body
    (dict_get CODEX_URLS cid [] ++ page_hash ++ u "/").

(** Some ancestor of the paragraph is an edit or insert container. *)
Definition nested_in_edit (p : located) : bool :=
  existsb (λ cls, existsb (λ c, bool_decide (c ∈ cls)) edit_classes) p.1.

(** The order a sort by [lt] establishes: no element is smaller than one
    before it. *)
Definition not_gt {A : Type} (lt : A -> A -> bool) (x y : A) : Prop :=
  lt y x = false.

(** The article number splits into groups that [int] converts. *)
Definition well_formed (num : str) : Prop :=
  Forall (λ g, is_Some (int g)) (str_split 0x2E%N num).

(** Some group of the article number is refused by [int]. *)
Definition unparsable (num : str) : Prop :=
  ∃ g, g ∈ str_split 0x2E%N num ∧ int g = None.

(** The keys of [a] and [b] are integer tuples, and that of [b] is not
    smaller. *)
Definition key_le (a b : article) : Prop :=
  ∃ ka kb, sort_key a = Some ka ∧ sort_key b = Some kb ∧ tuple_lt kb ka = false.

Definition key (a : article) : str * str := (codex_id a, article_num a).

Definition has_key (k : str * str) (a : article) : bool := bool_decide (key a = k).

(** The state of the deduplication loop: [seen] holds the keys of the
    records kept so far, which are pairwise different. *)
Definition dedup_inv (acc : gset (str * str) * list article) : Prop :=
  (∀ k, k ∈ acc.1 ↔ k ∈ key <$> acc.2) ∧ NoDup (key <$> acc.2).

(** The per-code files hold records of their own code with pairwise
    different keys. *)
Definition files_ok (fs : gmap str (list article)) : Prop :=
  ∀ cid l, fs !! cid = Some l →
    Forall (λ a, codex_id a = cid) l ∧ NoDup (key <$> l).

(** The output directories the engine can leave: the empty one, and what
    a run makes of such a directory. *)
Inductive engine_written : gmap str (list article) → Prop :=
| written_fresh : engine_written ∅
| written_run raw fs : engine_written fs → engine_written (main raw fs).1.

(** The documents of a code, whatever the order in which the directory
    lists its files. *)
Definition same_documents (d d' : codex_dir) : Prop :=
  chapter_map d = chapter_map d' ∧ html_files d ≡ₚ html_files d' ∧
  NoDup (html_files d).*1.

Definition same_raw (raw raw' : gmap str codex_dir) : Prop :=
  ∀ cid, option_Forall2 same_documents (raw !! cid) (raw' !! cid).

(** The digit groups are within the length that [int] accepts. *)
Definition within_limit (num : str) : Prop :=
  Forall (λ g, length g ≤ default_max_str_digits) (str_split 0x2E%N num).

Definition digit_offsets : list N := N.of_nat <$> seq 0 10.

(** ** Vocabulary for the further properties *)

(** Only single spaces as white space: every white-space character is
    U+0020 and no two of them are adjacent; with [after_space], the string
    does not start with one. *)
Fixpoint spaced_ok (after_space : bool) (s : str) : bool :=
  match s with
  | [] => true
  | c :: s' =>
    if (c =? 0x20)%N then negb after_space && spaced_ok true s'
    else negb (Py_UNICODE_ISSPACE c) && spaced_ok false s'
  end.

(** The texts [clean_text] produces: words separated by single spaces,
    without white space at either end. *)
Definition normalized (s : str) : Prop :=
  (∀ c, c ∈ s → Py_UNICODE_ISSPACE c = true → c = 0x20%N) ∧
  (∀ i, s !! i = Some 0x20%N → s !! S i ≠ Some 0x20%N) ∧
  (∀ s', s ≠ 0x20%N :: s') ∧
  (∀ s', s ≠ s' ++ [0x20%N]).

(** A paragraph that the loop takes as the header of an article. *)
Definition header_paragraph (p : located) : bool :=
  negb (in_edit_block p) && negb (is_noise (get_text p.2))
  && bool_decide (is_Some (header_match (get_text p.2))).

(** The headers of a paragraph stream, in document order: the number and
    the normalised title of each header paragraph. *)
Definition headers (ps : list located) : list (str * str) :=
  omap (λ p, if header_paragraph p
             then (λ g, (g.1, clean_text g.2)) <$> header_match (get_text p.2)
             else None) ps.

(** A paragraph whose text the loop looks at: outside the edit blocks, of 3
    characters or more, and without a skip marker. *)
Definition considered (p : located) : bool :=
  negb (in_edit_block p) && bool_decide (3 ≤ length (get_text p.2))
  && negb (is_noise (get_text p.2)).

(** The texts of the paragraphs the loop looks at. *)
Definition body_texts (ps : list located) : list str :=
  (λ p, get_text p.2) <$> List.filter considered ps.

(** Number and title of a record. *)
Definition heading (a : article) : str * str := (article_num a, article_title a).

(** The candidate of a loop state, as number and title. *)
Definition pending (st : pstate) : list (str * str) :=
  match current_num st with
  | Some num => [(num, current_title st)]
  | None => []
  end.

(** The state with the records [A] in front of its own. *)
Definition add_articles (A : list article) (st : pstate) : pstate :=
  {| current_num := current_num st; current_title := current_title st;
     current_parts := current_parts st; articles := A ++ articles st |}.

Definition non_space (c : char) : bool := negb (Py_UNICODE_ISSPACE c).

(** The fields every record of one page shares, and the form of the two
    texts. *)
Definition page_record (raw : gmap str codex_dir) (cid page_hash : str)
    (a : article) : Prop :=
  a = record raw cid page_hash (article_num a) (article_title a) (text a) ∧
  normalized (article_title a) ∧ normalized (text a).

(** ** The table of contents

    [extract_chapter_from_index] builds the chapter map of a code from its
    [index.html], once per code (the cache); [chapter_map] of [codex_dir]
    is that map. *)

(** The tree of [index.html], with the [href] attribute of each tag
    ([tag.get("href")]). *)
Inductive inode :=
| IText (s : str)
| ITag (name : str) (href : option str) (children : list inode).

(** The same tree without the attributes, for [get_text]. *)
Fixpoint plain (n : inode) : node :=
  match n with
  | IText s => Text s
  | ITag name _ children => Tag name [] (map plain children)
  end.

Definition index_tags : list str :=
  [u "a"; u "p"; u "div"; u "h2"; u "h3"; u "h4"].

(** [find_all(["a", "p", "div", "h2", "h3", "h4"])], in document order. *)
Fixpoint find_all_tags (n : inode) : list inode :=
  match n with
  | IText _ => []
  | ITag name _ children =>
    (if bool_decide (name ∈ index_tags) then [n] else [])
    ++ flat_map find_all_tags children
  end.

(** [[\dIVXLCDM]] under IGNORECASE: a decimal digit, one of the seven
    letters in either case, or one of the two code points that the case
    tables put with the letter i (U+0130, whose lower case is i, and
    U+0131, the equivalent of i in [_equivalences]). *)
Definition roman_or_digit (c : char) : bool :=
  Py_UNICODE_ISDECIMAL c || bool_decide (c ∈ u "IVXLCDMivxlcdm")
  || (c =? 0x130)%N || (c =? 0x131)%N.

(** [[\.\s]] *)
Definition dot_or_space (c : char) : bool := is_dot c || Py_UNICODE_ISSPACE c.

Definition chapter_words : list str :=
  [u "Часть"; u "Раздел"; u "Подраздел"; u "Глава"].

(** The pattern of a chapter heading with IGNORECASE, for one alternative
    [w] of its first group: the word, white space, one or more characters
    of [[\dIVXLCDM]], any number of dots and white-space characters, and a
    second group that takes the rest of the line. *)
Definition CHAPTER_HEADING (w : str) : regex :=
  Cat (Grp 1 (literal w))
 (Cat (Rep true 1 Py_UNICODE_ISSPACE)
 (Cat (Rep true 1 roman_or_digit)
 (Cat (Rep true 0 dot_or_space)
      (Grp 2 (Rep true 0 not_linebreak))))).

(** Truth of [re.match(r"(Часть|Раздел|Подраздел|Глава)...", text,
    re.IGNORECASE)]: the alternatives are tried in order, each with the
    rest of the pattern. *)
Definition chapter_match (text : str) : bool :=
  existsb (λ w, bool_decide (is_Some (re_match (CHAPTER_HEADING w) text)))
          chapter_words.

(** [s.lstrip(ch)] and [s.rstrip(ch)] for one character. *)
Fixpoint lstrip_char (ch : char) (s : str) : str :=
  match s with
  | c :: s' => if (c =? ch)%N then lstrip_char ch s' else s
  | [] => []
  end.

Definition rstrip_char (ch : char) (s : str) : str :=
  rev (lstrip_char ch (rev s)).

(** [href.rstrip("/").split("/")[-1]] *)
Definition last_segment (href : str) : str :=
  List.last (str_split 0x2F%N (rstrip_char 0x2F%N href)) [].

(** One iteration of [for el in soup.find_all(...)]: the state is
    [(chapter_map, current_chapter)]. *)
Definition index_step (st : gmap str str * str) (el : inode)
    : gmap str str * str :=
  let text := get_text (plain el) in
  let current_chapter := if chapter_match text then clean_text text else st.2 in
  match el with
  | ITag name (Some href) _ =>
    if bool_decide (name = u "a") && nonempty href then
      let h := last_segment href in
      if bool_decide (10 < length h)
      then (<[h := current_chapter]> st.1, current_chapter)
      else (st.1, current_chapter)
    else (st.1, current_chapter)
  | _ => (st.1, current_chapter)
  end.

(** The chapter map built from the tree of [index.html]. *)
Definition build_chapter_map (soup : list inode) : gmap str str :=
  (foldl index_step (∅, []) (flat_map find_all_tags soup)).1.

(** The directory of a code whose table of contents is [index]. *)
Definition with_index (index : list inode) (files : list (str * list node))
    : codex_dir :=
  {| chapter_map := Some (build_chapter_map index); html_files := files |}.

(** The key under which an element is entered in the chapter map: the
    last segment of its [href], for an [a] whose [href] is not empty and
    whose last segment has more than 10 characters. *)
Definition link_hash (el : inode) : option str :=
  match el with
  | ITag name (Some href) _ =>
    if bool_decide (name = u "a") && nonempty href then
      let h := last_segment href in
      if bool_decide (10 < length h) then Some h else None
    else None
  | _ => None
  end.

(** An element whose text is a chapter heading. *)
Definition is_heading (el : inode) : bool := chapter_match (get_text (plain el)).

(** The chapter in force after the elements [els]: the normalised text of
    the last heading among them, the empty string when there is none. *)
Definition last_heading (els : list inode) : str :=
  match List.filter is_heading (rev els) with
  | el :: _ => clean_text (get_text (plain el))
  | [] => []
  end.

(** A table of contents with a chapter heading and two links, the second
    one with a short last segment. *)
Definition sample_index : list inode :=
  [ ITag (u "html") None
      [ ITag (u "body") None
          [ ITag (u "h2") None [IText (u "  Глава 1.  Общие положения ")];
            ITag (u "ul") None
              [ ITag (u "li") None
                  [ ITag (u "a") (Some (u "/document/cons_doc_LAW_5142/0123456789abcdef/"))
                      [IText (u "Статья 1. Основные начала")] ];
                ITag (u "li") None
                  [ ITag (u "a") (Some (u "/document/cons_doc_LAW_5142/shortid/"))
                      [IText (u "Статья 2. Отношения")] ] ] ] ] ].

(** The shape of a chapter heading: one of the four words in any case,
    white space, and at least one digit or numeral letter; what follows is
    free. *)
Definition chapter_heading_shape (text : str) : Prop :=
  ∃ w mk ws nums rest,
    w ∈ chapter_words ∧ text = mk ++ ws ++ nums ++ rest ∧
    Forall2 (λ pc c, literal_ignore pc c = true) w mk ∧
    ws ≠ [] ∧ all_of Py_UNICODE_ISSPACE ws ∧
    nums ≠ [] ∧ all_of roman_or_digit nums.

(** A table of contents in a directory with the page it links to. *)
Definition indexed_raw : gmap str codex_dir :=
  {[ u "gk1" :=
       with_index sample_index
         [ (u "0123456789abcdef.html",
            stream_page [u "Статья 1. Основные начала"; long_body_1]) ] ]}.

(** ** The text that is embedded ([src/ingestion/embed_and_upload.py]) *)

(** [f"Статья {article['article_num']}. {article['article_title']}"] *)
Definition header_line (a : article) : str :=
  u "Статья " ++ article_num a ++ u ". " ++ article_title a.

(** [parts], after the chapter has been inserted at index 1 when the
    record has one. *)
Definition embedding_parts (a : article) : list str :=
  let parts := [codex a; header_line a; text a] in
  if nonempty (chapter a) then take 1 parts ++ [chapter a] ++ drop 1 parts
  else parts.

Definition create_embedding_text (a : article) : str :=
  join [0x0A%N] (embedding_parts a).

(** [s] starts with the word [m], compared as the pattern compares a
    literal under IGNORECASE. *)
Fixpoint literal_prefix (m s : str) : bool :=
  match m, s with
  | [], _ => true
  | pc :: m', x :: s' => literal_ignore pc x && literal_prefix m' s'
  | _ :: _, [] => false
  end.

(** The word [m] occurs somewhere in [s], in any case. *)
Fixpoint mentions (m s : str) : bool :=
  literal_prefix m s ||
  match s with
  | [] => false
  | _ :: s' => mentions m s'
  end.

(** What follows the number in [ARTICLE_HEADER]. *)
Definition header_tail : regex :=
  Cat (Rep true 0 Py_UNICODE_ISSPACE)
 (Cat (Chr is_dot)
 (Cat (Rep true 0 Py_UNICODE_ISSPACE)
      (Grp 2 (Rep true 1 not_linebreak)))).

(** The pattern of the number, without its group. *)
Definition header_number : regex :=
  Cat (Rep true 1 Py_UNICODE_ISDECIMAL)
      (Opt (Cat (Chr is_dot) (Rep true 1 Py_UNICODE_ISDECIMAL))).

(** ** The pages that are downloaded ([src/ingestion/download_codexes.py]) *)

(** [soup.find_all("a", href=True)], as the list of the [href] values in
    document order. *)
Fixpoint link_hrefs (n : inode) : list str :=
  match n with
  | IText _ => []
  | ITag name href children =>
    (match href with
     | Some h => if bool_decide (name = u "a") then [h] else []
     | None => []
     end)
    ++ flat_map link_hrefs children
  end.

(** The first loop of [download_article_pages]: [links], the pairs of page
    identifier and address.  [doc_path] is the path of the address of the
    code without its final slash ([urlparse(info["url"]).path.rstrip("/")]). *)
Definition select_links (doc_path : str) (hrefs : list str) : list (str * str) :=
  flat_map
    (λ href,
       if starts_with (doc_path ++ u "/") href
          && negb (bool_decide (rstrip_char 0x2F%N href = doc_path))
       then
         let full_url := u "https://www.consultant.ru" ++ href in
         let page_id := last_segment href in
         if nonempty page_id && bool_decide (5 < length page_id)
         then [(page_id, full_url)] else []
       else [])
    hrefs.

(** The body of the second loop: a link is kept when its page identifier
    has not been seen. *)
Definition unique_step (acc : gset str * list (str * str)) (link : str * str)
    : gset str * list (str * str) :=
  if bool_decide (link.1 ∈ acc.1) then acc
  else ({[ link.1 ]} ∪ acc.1, acc.2 ++ [link]).

Definition unique_links (links : list (str * str)) : list (str * str) :=
  (foldl unique_step (∅, []) links).2.

(** The links of a table of contents that are downloaded, and the name of
    the file a page is written to. *)
Definition download_links (doc_path : str) (index : list inode) : list (str * str) :=
  unique_links (select_links doc_path (flat_map link_hrefs index)).

Definition page_file (page_id : str) : str := page_id ++ u ".html".

(** * Properties *)

(** ** The matcher against the language *)

Local Ltac split_all :=
  repeat split; simpl; first [done | by constructor | lia].

Section matcher_correct.
Context {A : Type}.
Implicit Types (k : str → option A) (s w : str).

Lemma rep_greedy_sound p lo s k a :
  rep_greedy p lo s k = Some a →
  ∃ w s', s = w ++ s' ∧ all_of p w ∧ lo ≤ length w ∧ k s' = Some a.
Proof.
  revert lo. induction s as [|x s IH]; intros lo; simpl.
  - destruct lo; [|done]. intros Hk. exists [], []. split_all.
  - destruct (p x) eqn:Hp.
    + destruct (rep_greedy p (pred lo) s k) as [b|] eqn:Hrec.
      * intros [= ->]. apply IH in Hrec as (w & s' & -> & Hw & Hlo & Hk).
        exists (x :: w), s'. split_all.
      * destruct lo; [|done]. intros Hk. exists [], (x :: s).
        split_all.
    + destruct lo; [|done]. intros Hk. exists [], (x :: s). split_all.
Qed.

Lemma rep_greedy_complete p lo w s' k :
  all_of p w → lo ≤ length w → is_Some (k s') →
  is_Some (rep_greedy p lo (w ++ s') k).
Proof.
  intros Hw. revert lo. induction Hw as [|x w Hx Hw IH]; intros lo Hlo Hk; simpl in *.
  - assert (lo = 0) as -> by lia.
    destruct s' as [|y s']; simpl; [done|].
    destruct (p y); [|done].
    by destruct (rep_greedy p 0 s' k).
  - rewrite Hx. destruct (IH (pred lo)) as [b ->]; [lia | done | by eexists].
Qed.

Lemma rep_lazy_sound p lo s k a :
  rep_lazy p lo s k = Some a →
  ∃ w s', s = w ++ s' ∧ all_of p w ∧ lo ≤ length w ∧ k s' = Some a.
Proof.
  revert lo. induction s as [|x s IH]; intros lo; simpl.
  - destruct lo; [|done]. destruct (k []) eqn:Hk; [|done].
    intros [= ->]. exists [], []. split_all.
  - destruct lo.
    + destruct (k (x :: s)) eqn:Hk.
      * intros [= ->]. exists [], (x :: s). split_all.
      * destruct (p x) eqn:Hp; [|done]. intros Hrec.
        apply IH in Hrec as (w & s' & -> & Hw & Hlo & Hk').
        exists (x :: w), s'. split_all.
    + destruct (p x) eqn:Hp; [|done]. intros Hrec.
      apply IH in Hrec as (w & s' & -> & Hw & Hlo & Hk').
      exists (x :: w), s'. split_all.
Qed.

Lemma rep_lazy_complete p lo w s' k :
  all_of p w → lo ≤ length w → is_Some (k s') →
  is_Some (rep_lazy p lo (w ++ s') k).
Proof.
  intros Hw. revert lo. induction Hw as [|x w Hx Hw IH]; intros lo Hlo Hk; simpl in *.
  - assert (lo = 0) as -> by lia.
    destruct Hk as [b Hk]. destruct s'; simpl; rewrite Hk; by eexists.
  - destruct lo; simpl.
    + case_match; [by eexists|]. rewrite Hx. apply IH; [lia|done].
    + rewrite Hx. apply IH; [lia|done].
Qed.
End matcher_correct.

Lemma rmatch_sound {A} r s c (k : str → gmap nat str → option A) a :
  rmatch r s c k = Some a →
  ∃ w s' c', s = w ++ s' ∧ matches r w c c' ∧ k s' c' = Some a.
Proof.
  revert s c k a. induction r as [|p|r1 IH1 r2 IH2|r IH|g lo p|i r IH];
    intros s c k a; simpl.
  - intros Hk. by exists [], s, c.
  - destruct s as [|x s]; [done|]. destruct (p x) eqn:Hp; [|done].
    intros Hk. exists [x], s, c. split; [done|]. split; [by exists x | done].
  - intros H. apply IH1 in H as (w1 & s1 & c1 & -> & H1 & H).
    apply IH2 in H as (w2 & s2 & c2 & -> & H2 & H).
    exists (w1 ++ w2), s2, c2. split; [apply app_assoc|].
    split; [by exists w1, w2, c1 | done].
  - destruct (rmatch r s c k) as [b|] eqn:Hr.
    + intros [= ->]. apply IH in Hr as (w & s' & c' & -> & Hm & Hk).
      exists w, s', c'. by repeat split; [left|].
    + intros Hk. exists [], s, c. by repeat split; [right|].
  - destruct g; intros H.
    + apply rep_greedy_sound in H as (w & s' & -> & Hw & Hlo & Hk).
      by exists w, s', c.
    + apply rep_lazy_sound in H as (w & s' & -> & Hw & Hlo & Hk).
      by exists w, s', c.
  - intros H. apply IH in H as (w & s' & c' & -> & Hm & Hk).
    rewrite length_app, Nat.add_sub, take_app_length in Hk.
    exists w, s', (<[i:=w]> c'). split; [done|]. split; [by exists c' | done].
Qed.

Lemma rmatch_complete {A} r w c c' s' (k : str → gmap nat str → option A) :
  matches r w c c' → is_Some (k s' c') → is_Some (rmatch r (w ++ s') c k).
Proof.
  revert w c c' s' k. induction r as [|p|r1 IH1 r2 IH2|r IH|g lo p|i r IH];
    intros w c c' s' k; simpl.
  - by intros [-> ->].
  - intros (x & -> & Hp & ->) Hk. simpl. by rewrite Hp.
  - intros (w1 & w2 & c1 & -> & H1 & H2) Hk. rewrite <- app_assoc.
    eapply IH1; [done|]. by eapply IH2.
  - intros [Hm | [-> ->]] Hk.
    + destruct (IH _ _ _ s' k Hm Hk) as [b ->]. by eexists.
    + simpl. by destruct (rmatch r s' c k).
  - intros (Hw & Hlo & ->) Hk. destruct g.
    + by apply rep_greedy_complete.
    + by apply rep_lazy_complete.
  - intros (c1 & Hm & ->) Hk. eapply IH; [done|].
    by rewrite length_app, Nat.add_sub, take_app_length.
Qed.

(** [re_match] succeeds exactly on the strings with a prefix in the
    language. *)
Lemma re_match_is_Some r s :
  is_Some (re_match r s) ↔ ∃ w s' c', s = w ++ s' ∧ matches r w ∅ c'.
Proof.
  unfold re_match. split.
  - intros [m Hm]. apply rmatch_sound in Hm as (w & s' & c' & -> & Hw & _).
    by exists w, s', c'.
  - intros (w & s' & c' & -> & Hw). by eapply rmatch_complete.
Qed.

Lemma re_match_Some r s m :
  re_match r s = Some m → ∃ w s', s = w ++ s' ∧ matches r w ∅ m.
Proof.
  unfold re_match. intros Hm.
  apply rmatch_sound in Hm as (w & s' & c' & -> & Hw & [= ->]).
  by exists w, s'.
Qed.

(** ** The Header Grammar *)

Lemma matches_literal m w c c' :
  matches (literal m) w c c' ↔
  Forall2 (λ pc x, literal_ignore pc x = true) m w ∧ c' = c.
Proof.
  revert w c. induction m as [|pc m IH]; intros w c; simpl.
  - split.
    + intros [-> ->]. by split; [constructor|].
    + intros [Hw ->]. by apply Forall2_nil_inv_l in Hw as ->.
  - split.
    + intros (w1 & w2 & c1 & -> & (x & -> & Hx & ->) & Hm).
      apply IH in Hm as [Hm ->]. by split; [constructor|].
    + intros [Hw ->]. apply Forall2_cons_inv_l in Hw as (x & w' & Hx & Hw & ->).
      exists [x], w', c. split; [done|]. split; [by exists x|].
      apply IH. by split.
Qed.

Lemma length_pos_nonempty {A} (w : list A) : 1 ≤ length w ↔ w ≠ [].
Proof. destruct w; simpl; split; first [done | lia]. Qed.

Lemma matches_rep g lo p w c :
  all_of p w → lo ≤ length w → matches (Rep g lo p) w c c.
Proof. by intros; repeat split. Qed.

Local Ltac rep_ok :=
  repeat split; first [done | by apply length_pos_nonempty | simpl; lia].

(** The words of [ARTICLE_HEADER] are the headers of the grammar, and the
    groups are the number and the title. *)
Lemma matches_header w m :
  matches ARTICLE_HEADER w ∅ m ↔
  ∃ pre mk ws num ws1 ws2 title,
    header_shape w pre mk ws num ws1 ws2 title [] ∧
    m = <[2 := title]> (<[1 := num]> ∅).
Proof.
  unfold ARTICLE_HEADER. cbn [matches]. split.
  - intros (pre & w1 & c1 & -> & Hpre & mk & w2 & c2 & -> & Hmk
            & ws & w3 & c3 & -> & (Hws & Hwsl & ->)
            & num & w4 & c4 & -> & (c5 & Hnum & ->)
            & ws1 & w5 & c6 & -> & (Hws1 & _ & ->)
            & dot & w6 & c7 & -> & (x & -> & Hx & ->)
            & ws2 & title & c8 & -> & (Hws2 & _ & ->)
            & (c9 & (Ht & Htl & ->) & ->)).
    apply matches_literal in Hmk as [Hmk ->].
    assert (c1 = ∅ ∧ header_prefix pre) as [-> Hpre'].
    { destruct Hpre as [(p & w & c0 & -> & (Hp & _ & ->) & (y & -> & Hy & ->))|[-> ->]].
      - split; [done|]. right. by exists p, y.
      - split; [done|]. by left. }
    assert (c5 = ∅ ∧ dotted_num num) as [-> Hnum'].
    { destruct Hnum as (d1 & w & c0 & -> & (Hd1 & Hd1l & ->) & Hopt).
      destruct Hopt as [(w1 & d2 & c1 & -> & (y & -> & Hy & ->) & (Hd2 & Hd2l & ->))|[-> ->]].
      - split; [done|]. exists d1. split; [by apply length_pos_nonempty|]. split; [done|].
        right. exists d2. split; [by apply length_pos_nonempty|]. split; [done|].
        unfold is_dot in Hy. by apply N.eqb_eq in Hy as ->.
      - split; [done|]. exists d1. split; [by apply length_pos_nonempty|]. split; [done|].
        left. by rewrite app_nil_r. }
    unfold is_dot in Hx. apply N.eqb_eq in Hx as ->.
    exists pre, mk, ws, num, ws1, ws2, title. split; [|done].
    split; [by rewrite app_nil_r|].
    repeat split; try done; by apply length_pos_nonempty.
  - intros (pre & mk & ws & num & ws1 & ws2 & title
            & (-> & Hpre & Hmk & Hws0 & Hws & Hnum & Hws1 & Hws2 & Ht0 & Ht) & ->).
    exists pre, (mk ++ ws ++ num ++ ws1 ++ [0x2E%N] ++ ws2 ++ title ++ []), ∅.
    split; [done|]. split.
    { destruct Hpre as [->|(p & w & -> & Hp & Hw)]; [by right|].
      left. exists p, [w], ∅. split; [done|]. split; [rep_ok|].
      by exists w. }
    exists mk, (ws ++ num ++ ws1 ++ [0x2E%N] ++ ws2 ++ title ++ []), ∅.
    split; [done|]. split; [by apply matches_literal|].
    exists ws, (num ++ ws1 ++ [0x2E%N] ++ ws2 ++ title ++ []), ∅.
    split; [done|]. split; [rep_ok|].
    exists num, (ws1 ++ [0x2E%N] ++ ws2 ++ title ++ []), (<[1:=num]> ∅).
    split; [done|]. split.
    { exists ∅. split; [|done].
      destruct Hnum as (d1 & Hd10 & Hd1 & [->|(d2 & Hd20 & Hd2 & ->)]).
      - exists d1, [], ∅. split; [by rewrite app_nil_r|].
        split; [rep_ok|]. by right.
      - exists d1, ([0x2E%N] ++ d2), ∅. split; [done|].
        split; [rep_ok|]. left.
        exists [0x2E%N], d2, ∅. split; [done|]. split; [by eexists|].
        rep_ok. }
    exists ws1, ([0x2E%N] ++ ws2 ++ title ++ []), (<[1:=num]> ∅).
    split; [done|]. split; [rep_ok|].
    exists [0x2E%N], (ws2 ++ title ++ []), (<[1:=num]> ∅).
    split; [done|]. split; [by eexists|].
    exists ws2, (title ++ []), (<[1:=num]> ∅).
    split; [done|]. split; [rep_ok|].
    exists (<[1:=num]> ∅). rewrite app_nil_r. split; [|done].
    rep_ok.
Qed.

Lemma header_shape_app w pre mk ws num ws1 ws2 title s' :
  header_shape w pre mk ws num ws1 ws2 title [] →
  header_shape (w ++ s') pre mk ws num ws1 ws2 title s'.
Proof.
  intros (-> & H). split; [|done].
  rewrite app_nil_r. by rewrite <- !app_assoc.
Qed.

Lemma header_shape_prefix line pre mk ws num ws1 ws2 title rest :
  header_shape line pre mk ws num ws1 ws2 title rest →
  ∃ w, line = w ++ rest ∧ header_shape w pre mk ws num ws1 ws2 title [].
Proof.
  intros (-> & H).
  exists (pre ++ mk ++ ws ++ num ++ ws1 ++ [0x2E%N] ++ ws2 ++ title ++ []).
  split; [|by split]. rewrite app_nil_r. by rewrite <- !app_assoc.
Qed.

(** A successful match exhibits a header, and its groups are the number
    and the title of that header. *)
Lemma header_match_Some line num title :
  header_match line = Some (num, title) →
  ∃ pre mk ws ws1 ws2 rest, header_shape line pre mk ws num ws1 ws2 title rest.
Proof.
  unfold header_match. destruct (re_match ARTICLE_HEADER line) as [m|] eqn:Hm; [|done].
  apply re_match_Some in Hm as (w & s' & -> & Hw).
  apply matches_header in Hw as (pre & mk & ws & num' & ws1 & ws2 & title' & Hsh & ->).
  unfold group. rewrite lookup_insert_ne, lookup_insert_eq, lookup_insert_eq by done.
  simpl. intros [= <- <-].
  exists pre, mk, ws, ws1, ws2, s'. by apply header_shape_app.
Qed.

Lemma header_match_is_Some line :
  is_Some (header_match line) ↔ structural_header line.
Proof.
  split.
  - intros [[num title] H]. apply header_match_Some in H.
    destruct H as (pre & mk & ws & ws1 & ws2 & rest & H).
    by exists pre, mk, ws, num, ws1, ws2, title, rest.
  - intros (pre & mk & ws & num & ws1 & ws2 & title & rest & H).
    apply header_shape_prefix in H as (w & -> & H).
    assert (is_Some (re_match ARTICLE_HEADER (w ++ rest))) as [m Hm].
    { apply re_match_is_Some. exists w, rest, (<[2:=title]> (<[1:=num]> ∅)).
      split; [done|]. apply matches_header.
      by exists pre, mk, ws, num, ws1, ws2, title. }
    unfold header_match. rewrite Hm. by eexists.
Qed.

Lemma header_match_None line :
  header_match line = None ↔ ¬ structural_header line.
Proof.
  rewrite <- header_match_is_Some, <- eq_None_not_Some. done.
Qed.

(** Group 1 is never empty. *)
Lemma dotted_num_nonempty num : dotted_num num → num ≠ [].
Proof.
  intros (d1 & Hd1 & _ & [->|(d2 & _ & _ & ->)]); [done|].
  by destruct d1.
Qed.

(** ** The page parser *)

Section page_facts.
Variable raw : gmap str codex_dir.
Variables cid page_hash : str.

Local Abbreviation step' := (step raw cid page_hash).
Local Abbreviation save_article' := (save_article raw cid page_hash).
Local Abbreviation parse_paragraphs' := (parse_paragraphs raw cid page_hash).

Lemma step_in_edit_block st p : in_edit_block p = true → step' st p = st.
Proof. unfold step. by intros ->. Qed.

Lemma step_short st p : length (get_text p.2) < 3 → step' st p = st.
Proof.
  intros Hlen. unfold step. destruct (in_edit_block p); [done|].
  rewrite (bool_decide_eq_true_2 _ Hlen). by rewrite orb_true_r.
Qed.

Lemma step_noise st p : is_noise (get_text p.2) = true → step' st p = st.
Proof.
  intros Hn. unfold step. destruct (in_edit_block p); [done|].
  destruct (_ || _); [done|]. by rewrite Hn.
Qed.

(** Paragraphs on which [step] does nothing can be left out. *)
Lemma foldl_step_filter (keep : located → bool) ps st :
  (∀ st p, keep p = false → step' st p = st) →
  foldl step' st (List.filter keep ps) = foldl step' st ps.
Proof.
  intros Hskip. revert st. induction ps as [|p ps IH]; intros st; simpl; [done|].
  destruct (keep p) eqn:Hk; simpl; [done|]. by rewrite (Hskip _ _ Hk).
Qed.

Lemma parse_paragraphs_filter (keep : located → bool) ps :
  (∀ st p, keep p = false → step' st p = st) →
  parse_paragraphs' (List.filter keep ps) = parse_paragraphs' ps.
Proof. intros H. unfold parse_paragraphs. by rewrite foldl_step_filter. Qed.

(** What [save_article] does to the list of records. *)
Lemma save_article_articles st :
  articles (save_article' st) = articles st ∨
  ∃ num, current_num st = Some num ∧ num ≠ [] ∧ current_parts st ≠ [] ∧
    20 < length (clean_text (join (u " ") (current_parts st))) ∧
    articles (save_article' st) = articles st ++
      [ Build_article (dict_get CODEX_NAMES cid cid) cid
          (extract_chapter_from_index raw cid page_hash) num (current_title st)
          (clean_text (join (u " ") (current_parts st)))
          (dict_get CODEX_URLS cid [] ++ page_hash ++ u "/") ].
Proof.
  unfold save_article. destruct (current_num st) as [num|]; [|by left].
  destruct num as [|x num]; [by left|]. simpl.
  case_bool_decide as Hp; [by left|]. simpl.
  case_bool_decide as Hl; [|by left].
  right. exists (x :: num). by repeat split.
Qed.

Lemma save_article_short st :
  length (clean_text (join (u " ") (current_parts st))) ≤ 20 →
  save_article' st = st.
Proof.
  intros Hl. unfold save_article.
  destruct (current_num st) as [num|]; [|done].
  destruct (_ && _); [|done]. case_bool_decide; [lia|done].
Qed.

Lemma save_article_state st :
  current_num (save_article' st) = current_num st ∧
  current_title (save_article' st) = current_title st ∧
  current_parts (save_article' st) = current_parts st.
Proof.
  unfold save_article. destruct (current_num st) as [num|] eqn:Hn; [|done].
  destruct (_ && _); [|done]. by case_bool_decide.
Qed.
End page_facts.

Section page_invariant.
Variable raw : gmap str codex_dir.
Variables cid page_hash : str.

Local Abbreviation step' := (step raw cid page_hash).
Local Abbreviation save_article' := (save_article raw cid page_hash).

Lemma page_inv_init : page_inv cid init.
Proof. split; [done|]. constructor. Qed.

Lemma page_inv_save st : page_inv cid st → page_inv cid (save_article' st).
Proof.
  intros [Hnum Harts].
  destruct (save_article_state raw cid page_hash st) as (Hn & _ & _).
  split; [by rewrite Hn|].
  destruct (save_article_articles raw cid page_hash st)
    as [->|(num & Hcur & _ & _ & Hlen & ->)]; [done|].
  apply Forall_app. split; [done|]. apply Forall_singleton.
  split; simpl; [done | by apply Hnum | done | by eexists].
Qed.

Lemma page_inv_step st p : page_inv cid st → page_inv cid (step' st p).
Proof.
  intros Hst. unfold step. destruct (in_edit_block p); [done|].
  destruct (_ || _); [done|]. destruct (is_noise _); [done|].
  destruct (header_match _) as [[g1 g2]|] eqn:Hm.
  - apply page_inv_save in Hst as [_ Harts]. split; [|done]. simpl.
    intros num [= <-]. apply header_match_Some in Hm.
    by destruct Hm as (? & ? & ? & ? & ? & ? & _ & _ & _ & _ & _ & ? & _).
  - destruct (num_set _); [|done]. by destruct Hst.
Qed.

Lemma page_inv_foldl ps st : page_inv cid st → page_inv cid (foldl step' st ps).
Proof.
  revert st. induction ps as [|p ps IH]; intros st Hst; simpl; [done|].
  by apply IH, page_inv_step.
Qed.

Lemma parse_paragraphs_emitted ps :
  Forall (emitted cid) (parse_paragraphs raw cid page_hash ps).
Proof.
  unfold parse_paragraphs.
  by apply page_inv_save, page_inv_foldl, page_inv_init.
Qed.

Lemma parse_article_page_emitted html :
  Forall (emitted cid) (parse_article_page raw cid page_hash html).
Proof.
  unfold parse_article_page. destruct (find_content html); [|constructor].
  apply parse_paragraphs_emitted.
Qed.
End page_invariant.

(** *** Pages given as a stream of text lines *)

Lemma find_content_page_of children :
  find_content (page_of children) = Some (content_div children).
Proof. reflexivity. Qed.

Lemma descendants_p_stream lines :
  descendants_p (content_div (map par lines)) = map (λ l, in_content (par l)) lines.
Proof.
  unfold content_div, descendants_p. induction lines as [|l lines IH]; [done|].
  simpl. by rewrite IH.
Qed.

Lemma get_text_par l : get_text (par l) = strip l.
Proof.
  unfold get_text. simpl. destruct (strip l) eqn:E; simpl; [done|].
  by rewrite app_nil_r.
Qed.

Section step_cases.
Variable raw : gmap str codex_dir.
Variables cid page_hash : str.

Lemma step_header st p g1 g2 :
  in_edit_block p = false → 3 ≤ length (get_text p.2) →
  is_noise (get_text p.2) = false → header_match (get_text p.2) = Some (g1, g2) →
  step raw cid page_hash st p =
    {| current_num := Some g1; current_title := clean_text g2;
       current_parts := [];
       articles := articles (save_article raw cid page_hash st) |}.
Proof.
  intros He Hl Hn Hm. unfold step. rewrite He, Hn, Hm.
  destruct (get_text p.2) as [|? [|? [|? ?]]]; simpl in Hl; try lia.
  by rewrite bool_decide_eq_false_2 by (simpl; lia).
Qed.

Lemma step_body st p :
  in_edit_block p = false → 3 ≤ length (get_text p.2) →
  is_noise (get_text p.2) = false → header_match (get_text p.2) = None →
  step raw cid page_hash st p =
    if num_set (current_num st)
    then {| current_num := current_num st; current_title := current_title st;
            current_parts := current_parts st ++ [get_text p.2];
            articles := articles st |}
    else st.
Proof.
  intros He Hl Hn Hm. unfold step. rewrite He, Hn, Hm.
  destruct (get_text p.2) as [|? [|? [|? ?]]]; simpl in Hl; try lia.
  by rewrite bool_decide_eq_false_2 by (simpl; lia).
Qed.

Lemma step_body_line st b :
  body_line b →
  step raw cid page_hash st (in_content (par b)) =
    if num_set (current_num st)
    then {| current_num := current_num st; current_title := current_title st;
            current_parts := current_parts st ++ [b];
            articles := articles st |}
    else st.
Proof.
  intros (Hs & Hl & Hn & Hm).
  rewrite step_body; simpl; rewrite ?get_text_par, ?Hs; done.
Qed.

Lemma save_article_one st num b :
  current_num st = Some num → num ≠ [] → current_parts st = [b] →
  articles (save_article raw cid page_hash st) =
    articles st ++
    (if bool_decide (20 < length (clean_text b))
     then [record raw cid page_hash num (current_title st) (clean_text b)]
     else []).
Proof.
  intros Hn Hne Hp. unfold save_article. rewrite Hn, Hp.
  destruct num; [done|]. simpl.
  case_bool_decide; [done|]. by rewrite app_nil_r.
Qed.
End step_cases.

(** *** Concrete pages *)

Local Ltac by_eval := vm_compute; first [ reflexivity | lia ].

Local Ltac body_line_ok := split; [|split; [|split]]; by_eval.

(** C3, as stated, at its own input: both bodies have 9 characters, so both
    candidates are discarded and the page gives no record. *)
Lemma scenario_A_emits_nothing :
  parse_article_page ∅ (u "gk1") (u "page") (stream_page scenario_A) = [].
Proof. vm_compute. reflexivity. Qed.

(** C3 (amended): on the stream [["Статья 5. Foo", b1, "Статья 6. Bar", b2]]
    each header line flushes the candidate before it and starts a new one;
    the records are those of articles 5 and 6, with titles Foo and Bar and
    texts [b1] and [b2] normalised, each present exactly when its text is
    longer than 20 characters. *)
Theorem scenario_A_records raw cid page_hash b1 b2 :
  body_line b1 → body_line b2 →
  parse_article_page raw cid page_hash
    (stream_page [u "Статья 5. Foo"; b1; u "Статья 6. Bar"; b2]) =
  (if bool_decide (20 < length (clean_text b1))
   then [record raw cid page_hash (u "5") (u "Foo") (clean_text b1)] else []) ++
  (if bool_decide (20 < length (clean_text b2))
   then [record raw cid page_hash (u "6") (u "Bar") (clean_text b2)] else []).
Proof.
  intros Hb1 Hb2. unfold stream_page, parse_article_page.
  rewrite find_content_page_of, descendants_p_stream.
  unfold parse_paragraphs. cbn [map foldl].
  rewrite (step_header raw cid page_hash init
             (in_content (par (u "Статья 5. Foo"))) (u "5") (u "Foo")) by by_eval.
  rewrite (step_body_line raw cid page_hash _ b1 Hb1). cbn [num_set current_num].
  rewrite (step_header raw cid page_hash _
             (in_content (par (u "Статья 6. Bar"))) (u "6") (u "Bar")) by by_eval.
  rewrite (step_body_line raw cid page_hash _ b2 Hb2). cbn [num_set current_num].
  rewrite (save_article_one raw cid page_hash _ (u "6") b2) by done.
  cbn [articles current_title].
  rewrite (save_article_one raw cid page_hash _ (u "5") b1) by done.
  done.
Qed.

Lemma scenario_A_records_witness :
  body_line long_body_1 ∧ body_line long_body_2 ∧
  parse_article_page ∅ (u "gk1") (u "page")
    (stream_page [u "Статья 5. Foo"; long_body_1; u "Статья 6. Bar"; long_body_2]) =
  [ record ∅ (u "gk1") (u "page") (u "5") (u "Foo") long_body_1;
    record ∅ (u "gk1") (u "page") (u "6") (u "Bar") long_body_2 ].
Proof.
  assert (body_line long_body_1) as H1 by body_line_ok.
  assert (body_line long_body_2) as H2 by body_line_ok.
  split; [assumption|]. split; [assumption|].
  etrans;
    [exact (scenario_A_records ∅ (u "gk1") (u "page") long_body_1 long_body_2 H1 H2)|].
  vm_compute. reflexivity.
Defined.

(** C4: the text of every record the page parser emits is a normalised
    text ([clean_text] of the joined paragraphs) of more than 20
    characters; a candidate whose normalised text has 20 characters or
    fewer is left out by [save_article]. *)
Theorem emitted_text_longer_than_20 raw cid page_hash html a :
  a ∈ parse_article_page raw cid page_hash html →
  20 < length (text a) ∧
  (∃ parts, text a = clean_text (join (u " ") parts)) ∧
  (∀ st, length (clean_text (join (u " ") (current_parts st))) ≤ 20 →
         save_article raw cid page_hash st = st).
Proof.
  intros Ha.
  pose proof (parse_article_page_emitted raw cid page_hash html) as Hall.
  rewrite Forall_forall in Hall. destruct (Hall a Ha) as [_ _ Hlen Htext].
  split; [done|]. split; [done|]. apply save_article_short.
Qed.

Lemma emitted_text_longer_than_20_witness :
  let a := record ∅ (u "gk1") (u "page") (u "5") (u "Foo") long_body_1 in
  20 < length (text a) ∧
  (∃ parts, text a = clean_text (join (u " ") parts)) ∧
  (∀ st, length (clean_text (join (u " ") (current_parts st))) ≤ 20 →
         save_article ∅ (u "gk1") (u "page") st = st).
Proof.
  apply (emitted_text_longer_than_20 ∅ (u "gk1") (u "page")
           (stream_page [u "Статья 5. Foo"; long_body_1; u "Статья 6. Bar"; long_body_2])).
  assert (parse_article_page ∅ (u "gk1") (u "page")
            (stream_page [u "Статья 5. Foo"; long_body_1; u "Статья 6. Bar"; long_body_2]) =
          [ record ∅ (u "gk1") (u "page") (u "5") (u "Foo") long_body_1;
            record ∅ (u "gk1") (u "page") (u "6") (u "Bar") long_body_2 ]) as ->
    by (vm_compute; reflexivity).
  apply list_elem_of_here.
Defined.

(** C1, as stated, at a page whose two paragraphs lie inside an edit
    container, two levels down: the first is taken as a header and the
    second as the text of the record. *)
Lemma nested_edit_paragraph_emitted :
  Forall (λ p, nested_in_edit p = true)
    (descendants_p
       (content_div
          [ Tag (u "div") [u "doc-edit"]
              [ Tag (u "div") []
                  [ par (u "Статья 9. Вставка");
                    par (u "Этот текст находится внутри блока редакции.") ] ] ])) ∧
  parse_article_page ∅ (u "gk1") (u "page") nested_edit_page =
    [ record ∅ (u "gk1") (u "page") (u "9") (u "Вставка")
        (u "Этот текст находится внутри блока редакции.") ].
Proof.
  split; [|vm_compute; reflexivity].
  repeat constructor.
Qed.

(** C1 (amended): a paragraph whose direct parent is an edit or insert
    container leaves the parser state as it is, so it is neither a header
    boundary nor part of a text: the records of a page are those of the
    page without these paragraphs, whatever their text. *)
Theorem edit_block_paragraph_excluded raw cid page_hash :
  (∀ st p, in_edit_block p = true → step raw cid page_hash st p = st) ∧
  (∀ html content,
     find_content html = Some content →
     parse_article_page raw cid page_hash html =
     parse_paragraphs raw cid page_hash
       (List.filter (λ p, negb (in_edit_block p)) (descendants_p content))).
Proof.
  split; [apply step_in_edit_block|].
  intros html content Hc. unfold parse_article_page. rewrite Hc.
  symmetry. apply parse_paragraphs_filter.
  intros st p Hp. apply step_in_edit_block. by destruct (in_edit_block p).
Qed.

(** C10: a paragraph whose stripped text has fewer than 3 characters (the
    empty text included) leaves the parser state as it is: it is not
    matched against the header pattern and not added to the body, and the
    records are those of the stream without such paragraphs. *)
Theorem short_paragraph_ignored raw cid page_hash :
  (∀ st p, length (get_text p.2) < 3 → step raw cid page_hash st p = st) ∧
  (∀ ps,
     parse_paragraphs raw cid page_hash
       (List.filter (λ p, bool_decide (3 ≤ length (get_text p.2))) ps) =
     parse_paragraphs raw cid page_hash ps).
Proof.
  split; [apply step_short|].
  intros ps. apply parse_paragraphs_filter.
  intros st p Hp. apply step_short. apply bool_decide_eq_false in Hp. lia.
Qed.

(** C2, as stated, at a line of prose that names an article after a prefix
    of 103 characters: the pattern matches, and in the body of article 1
    the line starts a record of its own. *)
Lemma prose_line_matches :
  length prose_prefix = 103 ∧
  header_match prose_line = Some (u "15", u "Возмещение убытков") ∧
  article_num <$>
    parse_article_page ∅ (u "gk1") (u "page")
      (stream_page [u "Статья 1. Общие положения"; long_body_1; prose_line; long_body_2])
  = [u "1"; u "15"].
Proof. split; [|split]; vm_compute; reflexivity. Qed.

(** C2 (amended): the Header Grammar matches a line exactly when the line
    starts with a header in the structural shape: a prefix of any length
    that is empty or ends in a white-space character and has no line break
    before it, the marker word, white space, a dotted number, a dot and a
    title.  A line without that shape is not matched and, past the noise
    filter, is body text: it is appended to the candidate when there is
    one. *)
Theorem header_grammar_structural raw cid page_hash :
  (∀ line, header_match line = None ↔ ¬ structural_header line) ∧
  (∀ st p,
     ¬ structural_header (get_text p.2) →
     in_edit_block p = false → 3 ≤ length (get_text p.2) →
     is_noise (get_text p.2) = false →
     step raw cid page_hash st p =
       if num_set (current_num st)
       then {| current_num := current_num st; current_title := current_title st;
               current_parts := current_parts st ++ [get_text p.2];
               articles := articles st |}
       else st).
Proof.
  split; [apply header_match_None|].
  intros st p Hs He Hl Hn. apply step_body; try done. by apply header_match_None.
Qed.

(** ** Sorting *)

Section lex.
Context {A : Type} (eqb ltb : A → A → bool).
Hypothesis eqb_eq : ∀ x y, eqb x y = true ↔ x = y.
Hypothesis ltb_irrefl : ∀ x, ltb x x = false.
Hypothesis ltb_asym : ∀ x y, ltb x y = true → ltb y x = false.
Hypothesis ltb_trans : ∀ x y z, ltb x y = true → ltb y z = true → ltb x z = true.
Hypothesis ltb_total : ∀ x y, ltb x y = false → ltb y x = false → x = y.

Lemma eqb_refl x : eqb x x = true.
Proof. by apply eqb_eq. Qed.

Lemma lex_lt_irrefl a : lex_lt eqb ltb a a = false.
Proof. induction a as [|x a IH]; simpl; [done|]. by rewrite eqb_refl. Qed.

Lemma lex_lt_asym a b : lex_lt eqb ltb a b = true → lex_lt eqb ltb b a = false.
Proof.
  revert b. induction a as [|x a IH]; intros [|y b]; simpl; try done.
  destruct (eqb x y) eqn:E.
  - apply eqb_eq in E as ->. rewrite eqb_refl. apply IH.
  - intros Hlt. destruct (eqb y x) eqn:E'.
    + apply eqb_eq in E' as ->. by rewrite eqb_refl in E.
    + by apply ltb_asym.
Qed.

Lemma lex_lt_trans a b c :
  lex_lt eqb ltb a b = true → lex_lt eqb ltb b c = true → lex_lt eqb ltb a c = true.
Proof.
  revert b c. induction a as [|x a IH]; intros [|y b] [|z c]; simpl; try done.
  destruct (eqb x y) eqn:Exy.
  - apply eqb_eq in Exy as ->. destruct (eqb y z); [apply IH | done].
  - intros Hxy. destruct (eqb y z) eqn:Eyz.
    + apply eqb_eq in Eyz as ->. by rewrite Exy.
    + intros Hyz. destruct (eqb x z) eqn:Exz.
      * apply eqb_eq in Exz as ->. apply ltb_asym in Hxy. congruence.
      * by eapply ltb_trans.
Qed.

Lemma lex_lt_total a b :
  lex_lt eqb ltb a b = false → lex_lt eqb ltb b a = false → a = b.
Proof.
  revert b. induction a as [|x a IH]; intros [|y b]; simpl; try done.
  destruct (eqb x y) eqn:E.
  - apply eqb_eq in E as ->. rewrite eqb_refl. intros. f_equal. by apply IH.
  - destruct (eqb y x) eqn:E'.
    + apply eqb_eq in E' as ->. by rewrite eqb_refl in E.
    + intros H1 H2. rewrite (ltb_total x y H1 H2) in E. by rewrite eqb_refl in E.
Qed.

(** [a <= b] as the sort sees it: [b < a] is false. *)
Lemma lex_le_trans a b c :
  lex_lt eqb ltb b a = false → lex_lt eqb ltb c b = false →
  lex_lt eqb ltb c a = false.
Proof.
  intros Hab Hbc. destruct (lex_lt eqb ltb c a) eqn:Hca; [|done].
  destruct (lex_lt eqb ltb a b) eqn:Hlt.
  - by rewrite (lex_lt_trans _ _ _ Hca Hlt) in Hbc.
  - rewrite (lex_lt_total _ _ Hlt Hab) in Hca. congruence.
Qed.
End lex.

Section sort_facts.
Context {A : Type} (lt : A → A → bool).

Lemma insert_sorted_perm x l : insert_sorted lt x l ≡ₚ x :: l.
Proof.
  induction l as [|y l IH]; simpl; [done|].
  destruct (lt y x); [|done]. rewrite IH. apply Permutation_swap.
Qed.

Lemma py_sort_perm l : py_sort lt l ≡ₚ l.
Proof.
  induction l as [|x l IH]; simpl; [done|].
  rewrite insert_sorted_perm. by constructor.
Qed.

Hypothesis lt_asym : ∀ x y, lt x y = true → lt y x = false.
Hypothesis le_trans : ∀ x y z, not_gt lt x y → not_gt lt y z → not_gt lt x z.

Lemma insert_sorted_sorted x l :
  StronglySorted (not_gt lt) l → StronglySorted (not_gt lt) (insert_sorted lt x l).
Proof.
  induction 1 as [|y l Hl IH Hy]; simpl.
  - repeat constructor.
  - destruct (lt y x) eqn:Hyx.
    + constructor; [done|]. rewrite insert_sorted_perm.
      constructor; [by apply lt_asym | done].
    + constructor; [by constructor|].
      constructor; [done|]. eapply Forall_impl; [done|].
      intros z Hz. by eapply le_trans.
Qed.

Lemma py_sort_sorted l : StronglySorted (not_gt lt) (py_sort lt l).
Proof.
  induction l as [|x l IH]; simpl; [constructor|]. by apply insert_sorted_sorted.
Qed.

(** Stability: the elements that satisfy [P] keep their order, when [P]
    singles out elements that are not smaller than one another. *)
Lemma insert_sorted_filter (P : A → bool) x l :
  (∀ y, P x = true → P y = true → lt y x = false) →
  List.filter P (insert_sorted lt x l) = List.filter P (x :: l).
Proof.
  intros HP. induction l as [|y l IH]; simpl; [done|].
  destruct (lt y x) eqn:Hyx; [|done]. simpl in *.
  rewrite IH. destruct (P x) eqn:Hx, (P y) eqn:Hy; try done.
  by rewrite HP in Hyx.
Qed.

Lemma py_sort_stable (P : A → bool) l :
  (∀ x y, P x = true → P y = true → lt y x = false) →
  List.filter P (py_sort lt l) = List.filter P l.
Proof.
  intros HP. induction l as [|x l IH]; simpl; [done|].
  rewrite insert_sorted_filter by (intros; by apply HP). simpl. by rewrite IH.
Qed.
End sort_facts.

(** *** The order on tuples of integers *)

Lemma tuple_lt_asym a b : tuple_lt a b = true → tuple_lt b a = false.
Proof.
  apply lex_lt_asym.
  - intros x y. apply Z.eqb_eq.
  - intros x y ?%Z.ltb_lt. apply Z.ltb_ge. lia.
Qed.

Lemma tuple_le_trans a b c :
  tuple_lt b a = false → tuple_lt c b = false → tuple_lt c a = false.
Proof.
  apply lex_le_trans.
  - intros x y. apply Z.eqb_eq.
  - intros x y ?%Z.ltb_lt. apply Z.ltb_ge. lia.
  - intros x y z ?%Z.ltb_lt ?%Z.ltb_lt. apply Z.ltb_lt. lia.
  - intros x y ?%Z.ltb_ge ?%Z.ltb_ge. lia.
Qed.

Lemma tuple_lt_irrefl a : tuple_lt a a = false.
Proof. apply lex_lt_irrefl. intros x y. apply Z.eqb_eq. Qed.

(** *** [sort_articles] *)

Lemma mapM_None {A B} (f : A → option B) (l : list A) :
  mapM f l = None ↔ ∃ x, x ∈ l ∧ f x = None.
Proof.
  induction l as [|x l IH]; simpl.
  - split; [done|]. by intros (? & ?%elem_of_nil & _).
  - destruct (f x) as [y|] eqn:Hx; simpl.
    + destruct (mapM f l) as [k|]; simpl.
      * split; [done|]. intros (z & [->|Hz]%elem_of_cons & Hfz); [congruence|].
        assert (None = Some k) as Hn; [|done]. symmetry. apply IH. by exists z.
      * split; [|done]. intros _. destruct (proj1 IH eq_refl) as (z & Hz & Hfz).
        exists z. split; [by right|done].
    + split; [|done]. intros _. exists x. split; [by left|done].
Qed.

Lemma well_formed_sort_key a :
  well_formed (article_num a) ↔ is_Some (sort_key a).
Proof.
  unfold well_formed, sort_key. rewrite mapM_is_Some. done.
Qed.

Lemma unparsable_sort_key a :
  unparsable (article_num a) ↔ sort_key a = None.
Proof. unfold unparsable, sort_key. by rewrite mapM_None. Qed.

Lemma sort_articles_skipped arts a :
  a ∈ arts → sort_key a = None → sort_articles arts = arts.
Proof.
  intros Ha Hk. unfold sort_articles.
  assert (mapM sort_key arts = None) as ->; [|done].
  apply mapM_None. by exists a.
Qed.

Lemma sort_articles_sorted arts keys :
  mapM sort_key arts = Some keys →
  sort_articles arts =
    (py_sort (λ a b, tuple_lt a.1 b.1) (zip keys arts)).*2 ∧
  Forall2 (λ a k, sort_key a = Some k) arts keys.
Proof.
  intros Hm. unfold sort_articles. rewrite Hm. split; [done|].
  by apply mapM_Some.
Qed.

Lemma sort_articles_perm arts : sort_articles arts ≡ₚ arts.
Proof.
  unfold sort_articles. destruct (mapM sort_key arts) as [keys|] eqn:Hm; [|done].
  rewrite py_sort_perm. apply mapM_Some, Forall2_length in Hm.
  by rewrite snd_zip by lia.
Qed.

Lemma zip_keys_spec arts keys :
  Forall2 (λ a k, sort_key a = Some k) arts keys →
  Forall (λ p, sort_key p.2 = Some p.1) (zip keys arts).
Proof.
  induction 1 as [|a k arts keys Hk H IH]; simpl; constructor; done.
Qed.

Lemma sort_articles_ascending arts :
  Forall (λ a, well_formed (article_num a)) arts →
  StronglySorted key_le (sort_articles arts).
Proof.
  intros Hwf.
  assert (is_Some (mapM sort_key arts)) as [keys Hm].
  { apply mapM_is_Some. eapply Forall_impl; [done|].
    intros a. simpl. apply well_formed_sort_key. }
  destruct (sort_articles_sorted _ _ Hm) as [-> Hkeys].
  apply zip_keys_spec in Hkeys.
  rewrite <- (py_sort_perm (λ a b, tuple_lt a.1 b.1)) in Hkeys.
  pose proof (py_sort_sorted (λ a b : list Z * article, tuple_lt a.1 b.1)) as Hs.
  specialize (Hs (λ x y, tuple_lt_asym x.1 y.1)).
  specialize (Hs (λ x y z, tuple_le_trans x.1 y.1 z.1) (zip keys arts)).
  induction Hs as [|p l Hl IH Hp]; simpl; [constructor|].
  apply Forall_cons in Hkeys as [Hkp Hkl].
  constructor; [by apply IH|].
  rewrite Forall_fmap. rewrite Forall_forall in Hp, Hkl |- *.
  intros q Hq. simpl. exists p.1, q.1. split; [done|].
  split; [by apply Hkl|by apply Hp].
Qed.

Lemma parse_codex_unfold raw cid d :
  raw !! cid = Some d →
  parse_codex raw cid = sort_articles (collect (page_articles raw cid d)).
Proof. intros H. unfold parse_codex. by rewrite H. Qed.

Lemma parse_codex_cases raw cid :
  parse_codex raw cid = [] ∨
  ∃ d, raw !! cid = Some d ∧
       parse_codex raw cid = sort_articles (collect (page_articles raw cid d)).
Proof.
  unfold parse_codex. destruct (raw !! cid) as [d|]; [|by left].
  right. by exists d.
Qed.

(** C6: when some record of a group has an article number with a group
    that [int] refuses, no error comes out of the sort and the record list
    is left exactly as it was: the output of [parse_codex] is the list in
    the order of discovery. *)
Theorem unparsable_number_skips_sort arts a :
  a ∈ arts → unparsable (article_num a) →
  sort_articles arts = arts ∧
  (∀ raw cid d,
     raw !! cid = Some d → collect (page_articles raw cid d) = arts →
     parse_codex raw cid = arts).
Proof.
  intros Ha Hu%unparsable_sort_key.
  assert (sort_articles arts = arts) as Hs by by eapply sort_articles_skipped.
  split; [done|]. intros raw cid d Hd <-. by rewrite (parse_codex_unfold _ _ d).
Qed.

Lemma unparsable_number_skips_sort_witness :
  let arts := numbered (u "gk1") <$> [u "2"; u "10"; u "1.5"; u "abc"] in
  sort_articles arts = arts ∧
  (∀ raw cid d,
     raw !! cid = Some d → collect (page_articles raw cid d) = arts →
     parse_codex raw cid = arts).
Proof.
  apply (unparsable_number_skips_sort _ (numbered (u "gk1") (u "abc"))).
  - do 3 apply list_elem_of_further. apply list_elem_of_here.
  - exists (u "abc"). split; [apply list_elem_of_here|]. vm_compute. reflexivity.
Defined.

Lemma parse_codex_ascending raw cid :
  Forall (λ a, well_formed (article_num a)) (parse_codex raw cid) →
  StronglySorted key_le (parse_codex raw cid).
Proof.
  intros Hwf.
  destruct (parse_codex_cases raw cid) as [->|(d & _ & Heq)]; [constructor|].
  rewrite Heq in *. apply sort_articles_ascending.
  by rewrite sort_articles_perm in Hwf.
Qed.

(** C7: in a group whose article numbers all split into groups that [int]
    converts, the output is a rearrangement of the records in which the
    integer tuples never decrease (tuples compared as sequences: the first
    difference decides, a prefix comes first); the numbers 2, 10, 1.5 come
    out as 1.5, 2, 10. *)
Theorem well_formed_group_ascending :
  (∀ arts,
     Forall (λ a, well_formed (article_num a)) arts →
     sort_articles arts ≡ₚ arts ∧ StronglySorted key_le (sort_articles arts)) ∧
  (∀ raw cid,
     Forall (λ a, well_formed (article_num a)) (parse_codex raw cid) →
     StronglySorted key_le (parse_codex raw cid)) ∧
  article_num <$> sort_articles (numbered (u "gk1") <$> [u "2"; u "10"; u "1.5"])
    = [u "1.5"; u "2"; u "10"].
Proof.
  split; [|split].
  - intros arts Hwf. split; [apply sort_articles_perm|].
    by apply sort_articles_ascending.
  - intros raw cid. apply parse_codex_ascending.
  - vm_compute. reflexivity.
Qed.

(** Records with equal keys keep their order. *)
Lemma sort_articles_stable arts k :
  List.filter (λ a, bool_decide (sort_key a = Some k)) (sort_articles arts) =
  List.filter (λ a, bool_decide (sort_key a = Some k)) arts.
Proof.
  unfold sort_articles. destruct (mapM sort_key arts) as [keys|] eqn:Hm; [|done].
  apply mapM_Some in Hm. pose proof (Forall2_length _ _ _ Hm) as Hlen.
  apply zip_keys_spec in Hm.
  assert (∀ l : list (list Z * article),
            Forall (λ p, sort_key p.2 = Some p.1) l →
            List.filter (λ a, bool_decide (sort_key a = Some k)) l.*2 =
            (List.filter (λ p, bool_decide (p.1 = k)) l).*2) as Hf.
  { induction 1 as [|p l Hp Hl IH]; [done|].
    rewrite fmap_cons. cbn [List.filter]. rewrite Hp, IH.
    repeat case_bool_decide; simplify_eq; done. }
  rewrite Hf by by rewrite py_sort_perm.
  rewrite <- (snd_zip keys arts) at 2 by lia.
  rewrite Hf by done. f_equal. apply py_sort_stable.
  intros x y ->%bool_decide_eq_true ->%bool_decide_eq_true. apply tuple_lt_irrefl.
Qed.

(** ** Deduplication *)

Lemma collect_concat pages :
  collect pages = (foldl dedup_step (∅, []) (concat pages)).2.
Proof.
  unfold collect. generalize (∅ : gset (str * str), [] : list article).
  induction pages as [|p pages IH]; intros acc; simpl; [done|].
  by rewrite foldl_app, IH.
Qed.

Lemma find_app_skip (P : article → bool) out a l :
  (P a = true → ∃ b, b ∈ out ∧ P b = true) →
  List.find P (out ++ a :: l) = List.find P (out ++ l).
Proof.
  intros Ha. induction out as [|b out IH]; simpl.
  - destruct (P a) eqn:E; [|done].
    destruct (Ha eq_refl) as (? & ?%elem_of_nil & _). done.
  - destruct (P b) eqn:E; [done|]. apply IH. intros HP.
    destruct (Ha HP) as (c & [->|Hc]%elem_of_cons & Hc'); [congruence|].
    by exists c.
Qed.

Lemma dedup_step_inv acc a : dedup_inv acc → dedup_inv (dedup_step acc a).
Proof.
  intros [Hseen Hnd]. unfold dedup_step. case_bool_decide as Hin; [done|].
  split; simpl.
  - intros k. rewrite fmap_app, elem_of_app, elem_of_union, elem_of_singleton.
    rewrite Hseen. simpl. rewrite list_elem_of_singleton. tauto.
  - rewrite fmap_app. apply NoDup_app. split; [done|]. split.
    + intros k Hk. simpl. rewrite list_elem_of_singleton. intros ->.
      by apply Hin, Hseen.
    + apply NoDup_singleton.
Qed.

Lemma dedup_foldl acc l :
  dedup_inv acc →
  let acc' := foldl dedup_step acc l in
  dedup_inv acc' ∧ acc'.2 ⊆ acc.2 ++ l ∧
  ∀ k, List.find (has_key k) acc'.2 = List.find (has_key k) (acc.2 ++ l).
Proof.
  revert acc. induction l as [|a l IH]; intros acc Hinv; simpl.
  - rewrite app_nil_r. done.
  - destruct (IH _ (dedup_step_inv acc a Hinv)) as (Hinv' & Hsub & Hfind).
    split; [done|].
    assert ((key a ∈ acc.1 ∧ dedup_step acc a = acc) ∨
            (dedup_step acc a).2 = acc.2 ++ [a]) as [[Hin Heq]|Heq].
    { unfold dedup_step, key. case_bool_decide; [by left|by right]. }
    + rewrite Heq in Hsub, Hfind |- *. split.
      { intros x Hx. apply Hsub in Hx. rewrite elem_of_app in Hx |- *.
        destruct Hx as [?|?]; [by left|]. right. by right. }
      intros k. rewrite Hfind. symmetry.
      apply find_app_skip. intros Hk. apply bool_decide_eq_true in Hk as <-.
      apply (proj1 Hinv) in Hin. apply list_elem_of_fmap in Hin as (b & Hb & Hbin).
      exists b. split; [done|]. by apply bool_decide_eq_true.
    + rewrite Heq, <- app_assoc in Hsub, Hfind. done.
Qed.

(** The records kept by the loops: pairwise different keys, and under each
    key the first candidate that has it. *)
Lemma collect_spec pages :
  NoDup (key <$> collect pages) ∧ collect pages ⊆ concat pages ∧
  ∀ k, List.find (has_key k) (collect pages) = List.find (has_key k) (concat pages).
Proof.
  rewrite collect_concat.
  destruct (dedup_foldl (∅, []) (concat pages)) as ([_ Hnd] & Hsub & Hfind).
  { split; simpl; [|constructor]. intros k.
    split; intros Hk; [by apply elem_of_empty in Hk | by apply elem_of_nil in Hk]. }
  done.
Qed.

Lemma find_has_key_Some l k a :
  NoDup (key <$> l) →
  List.find (has_key k) l = Some a ↔ a ∈ l ∧ key a = k.
Proof.
  intros Hnd. split.
  - intros H. apply find_some in H as [Hin Hk].
    split; [by apply list_elem_of_In|]. by apply bool_decide_eq_true in Hk.
  - intros [Hin <-]. induction l as [|b l IH]; [by apply elem_of_nil in Hin|].
    simpl. unfold has_key at 1. case_bool_decide as Hb.
    + rewrite fmap_cons in Hnd. apply NoDup_cons in Hnd as [Hnb Hnd].
      apply elem_of_cons in Hin as [->|Hin]; [done|].
      destruct Hnb. rewrite Hb. by apply list_elem_of_fmap_2.
    + rewrite fmap_cons in Hnd. apply NoDup_cons in Hnd as [_ Hnd].
      apply elem_of_cons in Hin as [->|Hin]; [done|]. by apply IH.
Qed.

(** Under pairwise different keys, a rearrangement finds the same record
    under each key. *)
Lemma find_has_key_perm l l' k :
  l ≡ₚ l' → NoDup (key <$> l) →
  List.find (has_key k) l' = List.find (has_key k) l.
Proof.
  intros Hp Hnd.
  assert (NoDup (key <$> l')) as Hnd' by by rewrite <- Hp.
  destruct (List.find (has_key k) l) as [a|] eqn:Hf.
  - apply find_has_key_Some in Hf as [Hin Hk]; [|done].
    apply find_has_key_Some; [done|]. by rewrite <- Hp.
  - destruct (List.find (has_key k) l') as [a|] eqn:Hf'; [|done].
    apply find_has_key_Some in Hf' as [Hin Hk]; [|done].
    rewrite <- Hp in Hin.
    assert (List.find (has_key k) l = Some a) as Hs by by apply find_has_key_Some.
    congruence.
Qed.

Lemma page_articles_emitted raw cid d :
  Forall (emitted cid) (concat (page_articles raw cid d)).
Proof.
  unfold page_articles.
  induction (py_sort _ (glob_html d)) as [|f fs IH]; simpl; [constructor|].
  case_bool_decide; simpl; [done|].
  apply Forall_app. split; [|done]. apply parse_article_page_emitted.
Qed.

(** The records of one code: its own [codex_id], pairwise different keys,
    and under each key the first candidate in page order. *)
Lemma parse_codex_spec raw cid :
  Forall (emitted cid) (parse_codex raw cid) ∧
  NoDup (key <$> parse_codex raw cid) ∧
  ∀ d k, raw !! cid = Some d →
    List.find (has_key k) (parse_codex raw cid) =
    List.find (has_key k) (concat (page_articles raw cid d)).
Proof.
  destruct (raw !! cid) as [d|] eqn:Hd.
  2:{ unfold parse_codex. rewrite Hd. split; [constructor|].
      split; [constructor|done]. }
  rewrite (parse_codex_unfold raw cid d Hd).
  - destruct (collect_spec (page_articles raw cid d)) as (Hnd & Hsub & Hfind).
    split; [|split].
    + rewrite sort_articles_perm. rewrite Forall_forall. intros a Ha.
      pose proof (page_articles_emitted raw cid d) as He.
      rewrite Forall_forall in He. by apply He, Hsub.
    + by rewrite sort_articles_perm.
    + intros d' k Hd'. assert (d' = d) as -> by congruence.
      rewrite <- Hfind. apply find_has_key_perm; [|done].
      symmetry. apply sort_articles_perm.
Qed.

(** ** The driver *)

Lemma main_unfold raw parsed :
  main raw parsed =
  (foldl (write_codex raw) parsed CODEX_NAMES,
   flat_map (λ '(cid, _), default [] (foldl (write_codex raw) parsed CODEX_NAMES !! cid))
            CODEX_NAMES).
Proof. reflexivity. Qed.

Lemma write_codex_lookup raw names fs cid :
  foldl (write_codex raw) fs names !! cid =
  if bool_decide (cid ∈ names.*1) && nonempty_list (parse_codex raw cid)
  then Some (parse_codex raw cid) else fs !! cid.
Proof.
  revert fs. induction names as [|[c n] names IH]; intros fs; simpl; [done|].
  rewrite IH. clear IH.
  destruct (nonempty_list (parse_codex raw cid)) eqn:Hne.
  - rewrite !andb_true_r. case_bool_decide as Hin.
    + rewrite bool_decide_eq_true_2 by by right. done.
    + case_bool_decide as Hin'; simpl.
      * apply elem_of_cons in Hin' as [->|?]; [|done].
        rewrite Hne. by rewrite lookup_insert_eq.
      * destruct (nonempty_list (parse_codex raw c)); [|done].
        rewrite lookup_insert_ne; [done|]. intros ->. apply Hin'. by left.
  - rewrite !andb_false_r.
    destruct (nonempty_list (parse_codex raw c)) eqn:Hc; [|done].
    rewrite lookup_insert_ne; [done|]. intros ->. congruence.
Qed.

Lemma emitted_keys_ok cid l :
  Forall (emitted cid) l → Forall (λ a, codex_id a = cid) l.
Proof. intros H. eapply Forall_impl; [done|]. by intros a []. Qed.

Lemma main_files_ok raw fs : files_ok fs → files_ok (main raw fs).1.
Proof.
  intros Hok cid l. rewrite main_unfold. cbn [fst]. rewrite write_codex_lookup.
  destruct (_ && _); [|apply Hok]. intros [= <-].
  destruct (parse_codex_spec raw cid) as (He & Hnd & _).
  split; [by apply emitted_keys_ok|done].
Qed.

Lemma engine_written_ok fs : engine_written fs → files_ok fs.
Proof.
  induction 1 as [|raw fs _ IH].
  - intros cid l Hl. by rewrite lookup_empty in Hl.
  - by apply main_files_ok.
Qed.

Lemma CODEX_NAMES_NoDup : NoDup CODEX_NAMES.*1.
Proof. apply (bool_decide_unpack _). vm_compute. exact I. Qed.

Lemma combined_NoDup (fs : gmap str (list article)) (names : list (str * str)) :
  files_ok fs → NoDup names.*1 →
  NoDup (key <$> flat_map (λ '(cid, _), default [] (fs !! cid)) names).
Proof.
  intros Hok. induction names as [|[c n] names IH]; simpl; [constructor|].
  intros [Hc Hnd]%NoDup_cons. rewrite fmap_app. apply NoDup_app.
  split; [|split; [|by apply IH]].
  - destruct (fs !! c) as [l|] eqn:Hl; simpl; [|constructor]. by apply Hok in Hl as [_ ?].
  - intros k Hk Hk'. apply list_elem_of_fmap in Hk as (a & -> & Ha).
    apply list_elem_of_fmap in Hk' as (b & Hkey & Hb).
    apply list_elem_of_In, in_flat_map in Hb as ([c' n'] & Hc' & Hb).
    apply list_elem_of_In in Hb, Hc'.
    destruct (fs !! c) as [l|] eqn:Hl; simpl in Ha; [|by apply elem_of_nil in Ha].
    destruct (fs !! c') as [l'|] eqn:Hl'; simpl in Hb; [|by apply elem_of_nil in Hb].
    apply Hok in Hl as [Hl _], Hl' as [Hl' _].
    rewrite Forall_forall in Hl, Hl'.
    apply Hl in Ha. apply Hl' in Hb. unfold key in Hkey.
    assert (c' = c) as -> by congruence.
    apply Hc. apply list_elem_of_fmap. by exists (c, n').
Qed.

Example dup_raw_first_wins :
  (main dup_raw ∅).2 =
    [ record dup_raw (u "gk1") (u "a") (u "10") (u "Dup")
        (u "First page: body of article ten.") ].
Proof. vm_compute. reflexivity. Qed.

(** C5: whatever per-code files earlier runs of the engine have left, no
    two records of the combined corpus have the same
    [(codex_id, article_num)]; and among the candidates of a code's pages
    with one key, the output of [parse_codex] holds the first in page order
    and no other. *)
Theorem corpus_keys_unique raw parsed :
  engine_written parsed →
  NoDup (key <$> (main raw parsed).2) ∧
  (∀ cid, NoDup (key <$> parse_codex raw cid)) ∧
  (∀ cid d k, raw !! cid = Some d →
     List.find (has_key k) (parse_codex raw cid) =
     List.find (has_key k) (concat (page_articles raw cid d))).
Proof.
  intros Hw. split; [|split].
  - rewrite main_unfold. cbn [snd].
    apply combined_NoDup; [|apply CODEX_NAMES_NoDup].
    apply (main_files_ok raw). by apply engine_written_ok.
  - intros cid. by destruct (parse_codex_spec raw cid) as (_ & ? & _).
  - intros cid d k Hd. destruct (parse_codex_spec raw cid) as (_ & _ & Hf).
    by apply Hf.
Qed.

Lemma corpus_keys_unique_witness :
  NoDup (key <$> (main dup_raw ∅).2) ∧
  (∀ cid, NoDup (key <$> parse_codex dup_raw cid)) ∧
  (∀ cid d k, dup_raw !! cid = Some d →
     List.find (has_key k) (parse_codex dup_raw cid) =
     List.find (has_key k) (concat (page_articles dup_raw cid d))).
Proof. exact (corpus_keys_unique dup_raw ∅ written_fresh). Defined.

(** ** Determinism *)

Lemma str_lt_asym a b : str_lt a b = true → str_lt b a = false.
Proof.
  apply lex_lt_asym.
  - intros x y. apply N.eqb_eq.
  - intros x y ?%N.ltb_lt. apply N.ltb_ge. lia.
Qed.

Lemma str_le_trans a b c :
  str_lt b a = false → str_lt c b = false → str_lt c a = false.
Proof.
  apply lex_le_trans.
  - intros x y. apply N.eqb_eq.
  - intros x y ?%N.ltb_lt. apply N.ltb_ge. lia.
  - intros x y z ?%N.ltb_lt ?%N.ltb_lt. apply N.ltb_lt. lia.
  - intros x y ?%N.ltb_ge ?%N.ltb_ge. lia.
Qed.

Lemma str_lt_total a b : str_lt a b = false → str_lt b a = false → a = b.
Proof.
  apply lex_lt_total.
  - intros x y. apply N.eqb_eq.
  - intros x y ?%N.ltb_ge ?%N.ltb_ge. lia.
Qed.

Lemma sorted_by_name_unique (l1 l2 : list (str * list node)) :
  NoDup l1.*1 → l1 ≡ₚ l2 →
  StronglySorted (not_gt by_name) l1 → StronglySorted (not_gt by_name) l2 →
  l1 = l2.
Proof.
  intros Hnd Hp Hs1. revert l2 Hp. induction Hs1 as [|x l1 Hs1 IH Hx]; intros l2 Hp Hs2.
  - by apply Permutation_nil_l in Hp.
  - destruct Hs2 as [|y l2 Hs2 Hy]; [by apply Permutation_nil_r in Hp|].
    rewrite fmap_cons in Hnd. apply NoDup_cons in Hnd as [Hxn Hnd].
    assert (x = y) as <-.
    { assert (x ∈ y :: l2) as Hxin by (rewrite <- Hp; by left).
      assert (y ∈ x :: l1) as Hyin by (rewrite Hp; by left).
      apply elem_of_cons in Hxin as [?|Hxin]; [done|].
      apply elem_of_cons in Hyin as [?|Hyin]; [done|].
      rewrite Forall_forall in Hx, Hy.
      pose proof (Hx _ Hyin) as Hxy. pose proof (Hy _ Hxin) as Hyx.
      unfold not_gt, by_name in Hxy, Hyx.
      destruct Hxn. rewrite (str_lt_total _ _ Hyx Hxy).
      by apply list_elem_of_fmap_2. }
    f_equal. apply IH; [done| |done]. by apply Permutation_cons_inv in Hp.
Qed.

Lemma py_sort_by_name_perm (l1 l2 : list (str * list node)) :
  NoDup l1.*1 → l1 ≡ₚ l2 → py_sort by_name l1 = py_sort by_name l2.
Proof.
  intros Hnd Hp. apply sorted_by_name_unique.
  - by rewrite py_sort_perm.
  - by rewrite !py_sort_perm.
  - apply py_sort_sorted; [intros x y; apply str_lt_asym|].
    intros x y z. apply str_le_trans.
  - apply py_sort_sorted; [intros x y; apply str_lt_asym|].
    intros x y z. apply str_le_trans.
Qed.

Lemma filter_perm {A} (f : A → bool) (l l' : list A) :
  l ≡ₚ l' → List.filter f l ≡ₚ List.filter f l'.
Proof.
  induction 1 as [|x l l' Hp IH|x y l|l l' l'' Hp1 IH1 Hp2 IH2]; simpl.
  - done.
  - destruct (f x); [by constructor|done].
  - destruct (f x), (f y); try done. apply Permutation_swap.
  - by etrans.
Qed.

Lemma filter_fmap_NoDup {A B} (g : A → B) (f : A → bool) (l : list A) :
  NoDup (g <$> l) → NoDup (g <$> List.filter f l).
Proof.
  induction l as [|x l IH]; [done|].
  rewrite fmap_cons. intros [Hx Hnd]%NoDup_cons. cbn [List.filter].
  destruct (f x); [|by apply IH]. rewrite fmap_cons. apply NoDup_cons.
  split; [|by apply IH]. intros Hin. apply Hx.
  apply list_elem_of_fmap in Hin as (z & -> & Hz). apply list_elem_of_fmap_2.
  apply list_elem_of_In in Hz. apply filter_In in Hz as [Hz _].
  by apply list_elem_of_In.
Qed.

Section same_input.
Variables raw raw' : gmap str codex_dir.
Hypothesis Hsame : same_raw raw raw'.

Lemma extract_chapter_same cid page_hash :
  extract_chapter_from_index raw cid page_hash =
  extract_chapter_from_index raw' cid page_hash.
Proof.
  unfold extract_chapter_from_index.
  destruct (Hsame cid) as [d d' (Hc & _ & _)|]; [|done]. by rewrite Hc.
Qed.

Lemma save_article_same cid page_hash st :
  save_article raw cid page_hash st = save_article raw' cid page_hash st.
Proof. unfold save_article. by rewrite extract_chapter_same. Qed.

Lemma step_same cid page_hash st p :
  step raw cid page_hash st p = step raw' cid page_hash st p.
Proof. unfold step. by rewrite save_article_same. Qed.

Lemma parse_article_page_same cid page_hash html :
  parse_article_page raw cid page_hash html =
  parse_article_page raw' cid page_hash html.
Proof.
  unfold parse_article_page, parse_paragraphs.
  destruct (find_content html) as [content|]; [|done].
  rewrite save_article_same. do 2 f_equal.
  generalize init. induction (descendants_p content) as [|p ps IH]; intros st; [done|].
  simpl. by rewrite step_same, IH.
Qed.

Lemma page_articles_same cid d d' :
  same_documents d d' → page_articles raw cid d = page_articles raw' cid d'.
Proof.
  intros (_ & Hp & Hnd). unfold page_articles.
  rewrite (py_sort_by_name_perm (glob_html d) (glob_html d')).
  - induction (py_sort by_name (glob_html d')) as [|f fs IH]; simpl; [done|].
    rewrite IH. by rewrite parse_article_page_same.
  - by apply filter_fmap_NoDup.
  - by apply filter_perm.
Qed.

Lemma parse_codex_same cid : parse_codex raw cid = parse_codex raw' cid.
Proof.
  unfold parse_codex. destruct (Hsame cid) as [d d' Hd|]; [|done].
  by rewrite (page_articles_same cid d d').
Qed.

Lemma write_codex_same fs entry : write_codex raw fs entry = write_codex raw' fs entry.
Proof. destruct entry as [cid n]. unfold write_codex. by rewrite parse_codex_same. Qed.

Lemma main_same parsed : main raw parsed = main raw' parsed.
Proof.
  rewrite !main_unfold.
  assert (∀ names fs, foldl (write_codex raw) fs names = foldl (write_codex raw') fs names)
    as Hf.
  { induction names as [|e names IH]; intros fs; simpl; [done|].
    by rewrite write_codex_same, IH. }
  by rewrite Hf.
Qed.
End same_input.

(** A run in the directory that the same run has left changes nothing. *)
Lemma main_again raw parsed : main raw (main raw parsed).1 = main raw parsed.
Proof.
  rewrite !main_unfold. cbn [fst].
  assert (foldl (write_codex raw) (foldl (write_codex raw) parsed CODEX_NAMES) CODEX_NAMES
          = foldl (write_codex raw) parsed CODEX_NAMES) as ->; [|done].
  apply map_eq. intros cid. rewrite !write_codex_lookup.
  by destruct (_ && _).
Qed.

(** C8, as stated, at two runs over the same raw pages (one code with one
    page): in an empty output directory the corpus has one record; in the
    directory left by an earlier run over other pages, the file of the code
    that now has no pages is still there and its record is in the corpus. *)
Lemma stale_file_changes_corpus :
  key <$> (main uk_raw ∅).2 = [(u "uk", u "1")] ∧
  key <$> (main uk_raw (main dup_raw ∅).1).2 = [(u "gk1", u "10"); (u "uk", u "1")].
Proof. split; vm_compute; reflexivity. Qed.

(** C8 (amended): two runs that start from the same per-code output files
    and read the same documents, in whatever order the directories list
    them, leave the same files and the same combined corpus; so does a run
    repeated in the directory that the first run has left. *)
Theorem same_documents_same_corpus raw raw' parsed :
  same_raw raw raw' →
  main raw parsed = main raw' parsed ∧
  main raw (main raw parsed).1 = main raw parsed.
Proof.
  intros Hsame. split; [by apply main_same | apply main_again].
Qed.

Lemma same_documents_same_corpus_witness :
  main dup_raw ∅ = main dup_raw_reordered ∅ ∧
  main dup_raw (main dup_raw ∅).1 = main dup_raw ∅.
Proof.
  apply (same_documents_same_corpus dup_raw dup_raw_reordered ∅).
  intros cid. unfold dup_raw, dup_raw_reordered.
  destruct (decide (cid = u "gk1")) as [->|Hne].
  - rewrite !lookup_singleton_eq. constructor. split; [vm_compute; reflexivity|].
    split; [symmetry; apply reverse_Permutation|].
    apply (bool_decide_unpack _). vm_compute. exact I.
  - rewrite !lookup_singleton_ne by done. constructor.
Defined.

(** ** Article numbers and [int] *)

(** C9, as stated, at a page whose first header has a number of 4301
    digits: the number is captured by the pattern, [int] refuses it, the
    keys cannot be computed and the records stay in the order of discovery,
    the larger number first. *)
Lemma long_number_not_sortable :
  let arts := parse_article_page ∅ (u "gk1") (u "page") long_number_page in
  article_num <$> arts = [long_number; u "2"] ∧
  mapM sort_key arts = None ∧
  sort_articles arts = arts.
Proof. cbv zeta. split; [|split]; vm_compute; reflexivity. Qed.

Lemma decimal_inv c :
  Py_UNICODE_ISDECIMAL c = true →
  ∃ z d, In z Nd_zeros ∧ In d digit_offsets ∧ c = (z + d)%N.
Proof.
  unfold Py_UNICODE_ISDECIMAL, Py_UNICODE_TODECIMAL.
  destruct (find _ Nd_zeros) as [z|] eqn:Hf; [|done]. intros _.
  apply find_some in Hf as [Hin Hb].
  apply andb_true_iff in Hb as [Hle%N.leb_le Hlt%N.ltb_lt].
  exists z, (c - z)%N. split; [done|]. split; [|lia].
  unfold digit_offsets. apply list_elem_of_In, list_elem_of_fmap.
  exists (N.to_nat (c - z)). split; [lia|]. apply elem_of_seq. lia.
Qed.

(** Checked on the 660 digits: [int] sees each as an ASCII digit. *)
Lemma decimal_to_ascii c :
  Py_UNICODE_ISDECIMAL c = true → is_ascii_digit (to_ascii c) = true.
Proof.
  intros (z & d & Hz & Hd & ->)%decimal_inv.
  assert (forallb (λ z : N, forallb (λ d : N, is_ascii_digit (to_ascii (z + d)%N))
                             digit_offsets)
            Nd_zeros = true) as Hall by (vm_compute; reflexivity).
  rewrite forallb_forall in Hall. specialize (Hall z Hz).
  rewrite forallb_forall in Hall. by apply Hall.
Qed.

Lemma decimal_not_dot c : Py_UNICODE_ISDECIMAL c = true → (c =? 0x2E)%N = false.
Proof.
  intros Hc. apply N.eqb_neq. intros ->. vm_compute in Hc. done.
Qed.

Lemma ascii_digit_facts c :
  is_ascii_digit c = true →
  Py_ISSPACE c = false ∧ (c =? 0x2B)%N = false ∧ (c =? 0x2D)%N = false ∧
  is_underscore c = false.
Proof.
  unfold is_ascii_digit, Py_ISSPACE, is_underscore.
  intros [H1%N.leb_le H2%N.leb_le]%andb_true_iff.
  repeat split.
  - apply orb_false_iff. split; [|apply N.eqb_neq; lia].
    apply andb_false_iff. right. apply N.leb_gt. lia.
  - apply N.eqb_neq; lia.
  - apply N.eqb_neq; lia.
  - apply N.eqb_neq; lia.
Qed.

Lemma scan_digits_all prev t :
  all_of is_ascii_digit t → (t = [] → is_underscore prev = false) →
  scan_digits prev t = Some ((λ c, c - 0x30)%N <$> t, []).
Proof.
  intros Ht. revert prev. induction Ht as [|c t Hc Ht IH]; intros prev Hprev; simpl.
  - by rewrite Hprev.
  - rewrite Hc. rewrite IH; [done|]. intros _. by apply ascii_digit_facts.
Qed.

(** [int] converts every non-empty string of digits of at most 4300
    characters. *)
Lemma int_digits s :
  s ≠ [] → all_of Py_UNICODE_ISDECIMAL s → length s ≤ default_max_str_digits →
  is_Some (int s).
Proof.
  intros Hne Hs Hlen. destruct s as [|c s]; [done|].
  assert (all_of is_ascii_digit (to_ascii <$> (c :: s))) as Ht.
  { unfold all_of. rewrite Forall_fmap. eapply Forall_impl; [done|].
    intros x. apply decimal_to_ascii. }
  pose proof (scan_digits_all 0%N _ Ht) as Hscan.
  rewrite fmap_cons in Ht, Hscan. apply Forall_cons in Ht as [Ha _].
  destruct (ascii_digit_facts _ Ha) as (Hsp & Hplus & Hminus & Hus).
  unfold int. change (map to_ascii (c :: s)) with (to_ascii c :: (to_ascii <$> s)).
  cbn [skip_spaces]. rewrite Hsp, Hplus, Hminus, Hus.
  rewrite Hscan by done. rewrite fmap_cons. cbn [skip_spaces nonempty nonempty_list].
  rewrite bool_decide_eq_false_2; [by eexists|].
  cbn [length] in *. rewrite !length_fmap.
  exact (proj1 (Nat.le_ngt _ _) Hlen).
Qed.

Lemma str_split_digits d :
  all_of Py_UNICODE_ISDECIMAL d → str_split 0x2E%N d = [d].
Proof.
  induction 1 as [|c d Hc Hd IH]; simpl; [done|].
  by rewrite (decimal_not_dot c Hc), IH.
Qed.

Lemma str_split_dotted d1 d2 :
  all_of Py_UNICODE_ISDECIMAL d1 →
  str_split 0x2E%N (d1 ++ [0x2E%N] ++ d2) = d1 :: str_split 0x2E%N d2.
Proof.
  induction 1 as [|c d Hc Hd IH]; simpl; [done|].
  simpl in IH. by rewrite (decimal_not_dot c Hc), IH.
Qed.

(** A dotted number within the limit has an integer tuple as its key. *)
Lemma dotted_num_well_formed num :
  dotted_num num → within_limit num → well_formed num.
Proof.
  unfold within_limit, well_formed.
  intros (d1 & Hne1 & Hd1 & [->|(d2 & Hne2 & Hd2 & ->)]).
  - rewrite str_split_digits by done. intros [Hl _]%Forall_cons.
    apply Forall_singleton. by apply int_digits.
  - rewrite str_split_dotted, str_split_digits by done.
    intros [Hl1 [Hl2 _]%Forall_cons]%Forall_cons.
    repeat constructor; by apply int_digits.
Qed.

(** C9 (amended): the article number of every record the page parser emits
    is one or two groups of digits joined by a dot; when no group has more
    than 4300 digits (the length [int] accepts) the sort key is an integer
    tuple, and a group of such records is sorted, never left in the order
    of discovery. *)
Theorem emitted_number_sortable raw cid :
  (∀ page_hash html a,
     a ∈ parse_article_page raw cid page_hash html →
     dotted_num (article_num a) ∧
     (within_limit (article_num a) → is_Some (sort_key a))) ∧
  (Forall (λ a, within_limit (article_num a)) (parse_codex raw cid) →
   is_Some (mapM sort_key (parse_codex raw cid)) ∧
   StronglySorted key_le (parse_codex raw cid)).
Proof.
  split.
  - intros page_hash html a Ha.
    pose proof (parse_article_page_emitted raw cid page_hash html) as Hall.
    rewrite Forall_forall in Hall. destruct (Hall a Ha) as [_ Hnum _ _].
    split; [done|]. intros Hlim. apply well_formed_sort_key.
    by apply dotted_num_well_formed.
  - intros Hlim.
    assert (Forall (λ a, well_formed (article_num a)) (parse_codex raw cid)) as Hwf.
    { destruct (parse_codex_spec raw cid) as (Hem & _ & _).
      rewrite Forall_forall in Hem, Hlim |- *. intros a Ha.
      apply dotted_num_well_formed; [by destruct (Hem a Ha)|by apply Hlim]. }
    split.
    + apply mapM_is_Some. eapply Forall_impl; [done|].
      intros a. simpl. apply well_formed_sort_key.
    + by apply parse_codex_ascending.
Qed.

(** * Further properties *)

(** ** [clean_text] *)

Lemma space_is_space : Py_UNICODE_ISSPACE 0x20%N = true.
Proof. reflexivity. Qed.

Lemma eqb_space_false c : Py_UNICODE_ISSPACE c = false → (c =? 0x20)%N = false.
Proof. intros Hc. apply N.eqb_neq. intros ->. by rewrite space_is_space in Hc. Qed.

Lemma sub_spaces_ok b s : spaced_ok b (sub_spaces b s) = true.
Proof.
  revert b. induction s as [|c s IH]; intros b; simpl; [done|].
  destruct (Py_UNICODE_ISSPACE c) eqn:Hc.
  - destruct b; [apply IH|]. simpl. apply IH.
  - simpl. rewrite (eqb_space_false c Hc), Hc. simpl. apply IH.
Qed.

Lemma spaced_ok_weaken b s : spaced_ok b s = true → spaced_ok false s = true.
Proof.
  destruct s as [|c s]; simpl; [done|].
  destruct (c =? 0x20)%N; [|done]. by intros [_ ->]%andb_true_iff.
Qed.

Lemma spaced_ok_fixed b s : spaced_ok b s = true → sub_spaces b s = s.
Proof.
  revert b. induction s as [|c s IH]; intros b; simpl; [done|].
  destruct (c =? 0x20)%N eqn:Hc.
  - apply N.eqb_eq in Hc as ->. rewrite space_is_space.
    intros [Hb Hs]%andb_true_iff. destruct b; [done|]. by rewrite IH.
  - intros [Hsp Hs]%andb_true_iff. apply negb_true_iff in Hsp. rewrite Hsp.
    by rewrite IH.
Qed.

Lemma spaced_ok_app_l b s1 s2 : spaced_ok b (s1 ++ s2) = true → spaced_ok b s1 = true.
Proof.
  revert b. induction s1 as [|c s1 IH]; intros b; simpl; [done|].
  destruct (c =? 0x20)%N.
  - intros [-> Hs]%andb_true_iff. simpl. by eapply IH.
  - intros [-> Hs]%andb_true_iff. simpl. by eapply IH.
Qed.

Lemma lstrip_spec l :
  ∃ w, l = w ++ lstrip l ∧ all_of Py_UNICODE_ISSPACE w ∧
       ∀ c rest, lstrip l = c :: rest → Py_UNICODE_ISSPACE c = false.
Proof.
  induction l as [|c l (w & Hl & Hw & Hhd)]; simpl.
  - exists []. by repeat split; [constructor|].
  - destruct (Py_UNICODE_ISSPACE c) eqn:Hc.
    + exists (c :: w). split; [by rewrite Hl at 1|]. split; [by constructor|done].
    + exists []. split; [done|]. split; [constructor|]. by intros ? ? [= <- _].
Qed.

Lemma rstrip_spec m :
  ∃ w, m = rstrip m ++ w ∧ all_of Py_UNICODE_ISSPACE w ∧
       ∀ c init, rstrip m = init ++ [c] → Py_UNICODE_ISSPACE c = false.
Proof.
  unfold rstrip. destruct (lstrip_spec (rev m)) as (w & Hm & Hw & Hhd).
  exists (rev w). split; [|split].
  - rewrite <- rev_app_distr, <- Hm. by rewrite rev_involutive.
  - unfold all_of. apply Forall_forall. intros x Hx.
    apply list_elem_of_In, in_rev, list_elem_of_In in Hx.
    unfold all_of in Hw. rewrite Forall_forall in Hw. by apply Hw.
  - intros c init Heq. apply (Hhd c (rev init)). unfold char, str in *.
    rewrite <- (rev_involutive (lstrip (rev m))), Heq, rev_app_distr. done.
Qed.

Lemma lstrip_ok b l : spaced_ok b l = true → spaced_ok true (lstrip l) = true.
Proof.
  revert b. induction l as [|c l IH]; intros b; simpl; [done|].
  destruct (Py_UNICODE_ISSPACE c) eqn:Hc.
  - destruct (c =? 0x20)%N; [|done]. intros [_ Hs]%andb_true_iff. by eapply IH.
  - simpl. rewrite (eqb_space_false c Hc), Hc. done.
Qed.

Lemma lstrip_fixed l :
  (∀ c rest, l = c :: rest → Py_UNICODE_ISSPACE c = false) → lstrip l = l.
Proof. destruct l as [|c l]; simpl; [done|]. intros H. by rewrite (H c l). Qed.

Lemma rstrip_fixed s :
  (∀ c init, s = init ++ [c] → Py_UNICODE_ISSPACE c = false) → rstrip s = s.
Proof.
  intros H. unfold rstrip. rewrite lstrip_fixed; [apply rev_involutive|].
  intros c rest Heq. apply (H c (rev rest)).
  unfold char in *. rewrite <- (rev_involutive s), Heq. done.
Qed.

Lemma spaced_ok_only_spaces b s c :
  spaced_ok b s = true → c ∈ s → Py_UNICODE_ISSPACE c = true → c = 0x20%N.
Proof.
  revert b. induction s as [|x s IH]; intros b; simpl; [by intros _ ?%elem_of_nil|].
  destruct (x =? 0x20)%N eqn:Hx.
  - apply N.eqb_eq in Hx as ->. intros [_ Hs]%andb_true_iff [->|Hin]%elem_of_cons; [done|].
    by eapply IH.
  - intros [Hsp Hs]%andb_true_iff [->|Hin]%elem_of_cons.
    + apply negb_true_iff in Hsp. congruence.
    + by eapply IH.
Qed.

Lemma spaced_ok_no_double b s i :
  spaced_ok b s = true → s !! i = Some 0x20%N → s !! S i ≠ Some 0x20%N.
Proof.
  revert b i. induction s as [|x s IH]; intros b i; simpl; [done|].
  destruct (x =? 0x20)%N eqn:Hx.
  - intros [_ Hs]%andb_true_iff. destruct i as [|i]; simpl.
    + intros _. destruct s as [|y s]; simpl; [done|]. simpl in Hs.
      destruct (y =? 0x20)%N eqn:Hy; [done|]. apply N.eqb_neq in Hy. congruence.
    + by eapply IH.
  - intros [_ Hs]%andb_true_iff. destruct i as [|i]; simpl.
    + intros [= ->]. done.
    + by eapply IH.
Qed.

Lemma replace_nbsp_fixed b s : spaced_ok b s = true → replace_nbsp s = s.
Proof.
  intros Hs. unfold replace_nbsp.
  induction s as [|c s IH] in b, Hs |- *; simpl; [done|].
  simpl in Hs. destruct (c =? 0x20)%N eqn:Hc.
  - apply N.eqb_eq in Hc as ->. apply andb_true_iff in Hs as [_ Hs].
    simpl. f_equal. by eapply IH.
  - apply andb_true_iff in Hs as [Hsp Hs]. apply negb_true_iff in Hsp.
    destruct (c =? 0xA0)%N eqn:Ha.
    + apply N.eqb_eq in Ha as ->. done.
    + f_equal. by eapply IH.
Qed.

Lemma normalized_spaced_ok s : normalized s → spaced_ok true s = true.
Proof.
  intros (Hsp & Hadj & Hhd & _).
  assert (∀ b, (b = true → ∀ s', s ≠ 0x20%N :: s') → spaced_ok b s = true) as H;
    [|by apply H].
  clear Hhd. induction s as [|c s IH]; intros b Hb; simpl; [done|].
  destruct (c =? 0x20)%N eqn:Hc.
  - apply N.eqb_eq in Hc as ->. apply andb_true_iff. split.
    + destruct b; [|done]. by destruct (Hb eq_refl s).
    + apply IH.
      * intros x Hx. apply Hsp. by right.
      * intros i. apply (Hadj (S i)).
      * intros _ s' ->. by apply (Hadj 0).
  - apply andb_true_iff. split.
    + apply negb_true_iff. destruct (Py_UNICODE_ISSPACE c) eqn:Hw; [|done].
      rewrite (Hsp c) in Hc; [done|by left|done].
    + apply IH; [|intros i; apply (Hadj (S i))|done].
      intros x Hx. apply Hsp. by right.
Qed.

(** What [clean_text] returns is in normal form. *)
Lemma clean_text_normalized t : normalized (clean_text t).
Proof.
  unfold clean_text, strip.
  pose proof (sub_spaces_ok false t) as H0. apply lstrip_ok in H0.
  destruct (rstrip_spec (lstrip (sub_spaces false t))) as (w & Hm & Hw & Hlast).
  destruct (lstrip_spec (sub_spaces false t)) as (_ & _ & _ & Hfirst).
  set (m := lstrip (sub_spaces false t)) in *.
  assert (spaced_ok true (rstrip m) = true) as Hok.
  { rewrite Hm in H0. by eapply spaced_ok_app_l. }
  rewrite (replace_nbsp_fixed _ _ Hok).
  split; [|split; [|split]].
  - intros c. by apply spaced_ok_only_spaces with true.
  - intros i. by apply spaced_ok_no_double with true.
  - intros s' Heq. rewrite Heq in Hok. done.
  - intros s' Heq. pose proof space_is_space as Hsp.
    by rewrite (Hlast _ _ Heq) in Hsp.
Qed.

Lemma normalized_fixed s : normalized s → clean_text s = s.
Proof.
  intros Hn. pose proof (normalized_spaced_ok s Hn) as Hok.
  destruct Hn as (Hsp & _ & Hhd & Hlast).
  unfold clean_text, strip.
  rewrite (spaced_ok_fixed false s (spaced_ok_weaken _ _ Hok)).
  rewrite (lstrip_fixed s), (rstrip_fixed s).
  - by eapply replace_nbsp_fixed.
  - intros c init ->. destruct (Py_UNICODE_ISSPACE c) eqn:Hc; [|done].
    rewrite (Hsp c) in Hlast; [by destruct (Hlast init)| |done].
    apply elem_of_app. right. by left.
  - intros c rest ->. destruct (Py_UNICODE_ISSPACE c) eqn:Hc; [|done].
    rewrite (Hsp c) in Hhd; [by destruct (Hhd rest)|by left|done].
Qed.

(** X1: [clean_text] leaves a text unchanged exactly when the text is in
    normal form: every white-space character is a single U+0020 between two
    other characters.  What [clean_text] returns is in normal form, so
    cleaning twice is cleaning once. *)
Theorem clean_text_fixed_points s t :
  (clean_text s = s ↔ normalized s) ∧
  normalized (clean_text t) ∧
  clean_text (clean_text t) = clean_text t.
Proof.
  split; [split|split].
  - intros <-. apply clean_text_normalized.
  - apply normalized_fixed.
  - apply clean_text_normalized.
  - apply normalized_fixed, clean_text_normalized.
Qed.

Lemma filter_non_space_app w s :
  all_of Py_UNICODE_ISSPACE w →
  List.filter non_space (w ++ s) = List.filter non_space s ∧
  List.filter non_space (s ++ w) = List.filter non_space s.
Proof.
  intros Hw. assert (List.filter non_space w = []) as Hnil.
  { induction Hw as [|c w Hc Hw IH]; simpl; [done|].
    unfold non_space at 1. by rewrite Hc. }
  unfold char, str in *. rewrite !List.filter_app, Hnil. by rewrite app_nil_r.
Qed.

Lemma filter_non_space_sub_spaces b s :
  List.filter non_space (sub_spaces b s) = List.filter non_space s.
Proof.
  revert b. induction s as [|c s IH]; intros b; simpl; [done|].
  unfold non_space at 2. destruct (Py_UNICODE_ISSPACE c) eqn:Hc; simpl.
  - destruct b; simpl; apply IH.
  - unfold non_space at 1. rewrite Hc. simpl. by rewrite IH.
Qed.

Lemma filter_non_space_replace_nbsp s :
  List.filter non_space (replace_nbsp s) = List.filter non_space s.
Proof.
  unfold replace_nbsp. induction s as [|c s IH]; simpl; [done|].
  rewrite IH. destruct (c =? 0xA0)%N eqn:Hc; [|done].
  apply N.eqb_eq in Hc as ->. done.
Qed.

Lemma filter_non_space_clean_text t :
  List.filter non_space (clean_text t) = List.filter non_space t.
Proof.
  unfold clean_text, strip. rewrite filter_non_space_replace_nbsp.
  destruct (rstrip_spec (lstrip (sub_spaces false t))) as (w & Hm & Hw & _).
  destruct (lstrip_spec (sub_spaces false t)) as (w' & Hl & Hw' & _).
  rewrite <- (filter_non_space_sub_spaces false t).
  rewrite Hl at 2. rewrite (proj1 (filter_non_space_app w' _ Hw')).
  rewrite Hm at 2. by rewrite (proj2 (filter_non_space_app w _ Hw)).
Qed.

Lemma length_sub_spaces b s : length (sub_spaces b s) ≤ length s.
Proof.
  revert b. induction s as [|c s IH]; intros b; simpl; [done|].
  destruct (Py_UNICODE_ISSPACE c); [destruct b|]; simpl;
    [pose proof (IH true)|pose proof (IH true)|pose proof (IH false)]; lia.
Qed.

Lemma length_lstrip l : length (lstrip l) ≤ length l.
Proof.
  induction l as [|c l IH]; simpl; [done|].
  destruct (Py_UNICODE_ISSPACE c); simpl; lia.
Qed.

Lemma length_clean_text t : length (clean_text t) ≤ length t.
Proof.
  unfold clean_text, strip, rstrip, replace_nbsp.
  rewrite length_map, length_rev.
  etrans; [apply length_lstrip|]. rewrite length_rev.
  etrans; [apply length_lstrip|]. apply length_sub_spaces.
Qed.

Lemma filter_non_space_nil s :
  List.filter non_space s = [] ↔ all_of Py_UNICODE_ISSPACE s.
Proof.
  unfold all_of. induction s as [|c s IH]; simpl.
  - split; [constructor|done].
  - unfold non_space at 1. destruct (Py_UNICODE_ISSPACE c) eqn:Hc; simpl.
    + rewrite IH. split; [by constructor|]. by intros [_ ?]%Forall_cons.
    + split; [done|]. intros [? _]%Forall_cons. congruence.
Qed.

(** X2: [clean_text] changes white space only: the other characters are
    the same and in the same order, the text never gets longer, and the
    result is empty exactly for a text of white space (the empty text
    included). *)
Theorem clean_text_keeps_characters t :
  List.filter non_space (clean_text t) = List.filter non_space t ∧
  length (clean_text t) ≤ length t ∧
  (clean_text t = [] ↔ all_of Py_UNICODE_ISSPACE t).
Proof.
  split; [apply filter_non_space_clean_text|]. split; [apply length_clean_text|].
  rewrite <- filter_non_space_nil, <- filter_non_space_clean_text. split.
  - by intros ->.
  - intros Hf. destruct (clean_text t) as [|c s] eqn:Hs; [done|].
    pose proof (clean_text_normalized t) as (Hsp & _ & Hhd & _). rewrite Hs in *.
    simpl in Hf. unfold non_space at 1 in Hf.
    destruct (Py_UNICODE_ISSPACE c) eqn:Hc; [|done].
    rewrite (Hsp c) in Hhd; [by destruct (Hhd s)|by left|done].
Qed.

(** ** More on the page parser *)

Lemma marker_word_length mk : marker_word mk → length mk = 6.
Proof.
  intros H. apply Forall2_length in H.
  transitivity (length marker); [symmetry; exact H | reflexivity].
Qed.

(** A line that matches the header pattern has at least 10 characters. *)
Lemma header_match_length t x : header_match t = Some x → 10 ≤ length t.
Proof.
  destruct x as [num title]. intros H. apply header_match_Some in H.
  destruct H as (pre & mk & ws & ws1 & ws2 & rest & -> & _ & Hmk & Hws & _ & Hnum & _ & _ & Ht & _).
  apply marker_word_length in Hmk. apply dotted_num_nonempty in Hnum.
  unfold char, str in *. rewrite !length_app, Hmk. cbn [length].
  destruct ws, num, title; simpl; try done; lia.
Qed.

Section page_more.
Variable raw : gmap str codex_dir.
Variables cid page_hash : str.

Local Abbreviation step' := (step raw cid page_hash).
Local Abbreviation save_article' := (save_article raw cid page_hash).
Local Abbreviation parse_paragraphs' := (parse_paragraphs raw cid page_hash).

Lemma header_paragraph_inv p :
  header_paragraph p = true →
  ∃ g1 g2, in_edit_block p = false ∧ 3 ≤ length (get_text p.2) ∧
    is_noise (get_text p.2) = false ∧ header_match (get_text p.2) = Some (g1, g2).
Proof.
  unfold header_paragraph.
  intros [[He%negb_true_iff Hn%negb_true_iff]%andb_true_iff Hm%bool_decide_eq_true]%andb_true_iff.
  destruct Hm as [[g1 g2] Hm]. exists g1, g2. repeat split; try done.
  apply header_match_length in Hm. lia.
Qed.

Lemma step_header_paragraph st p :
  header_paragraph p = true →
  ∃ g1 g2, header_match (get_text p.2) = Some (g1, g2) ∧
    step' st p =
      {| current_num := Some g1; current_title := clean_text g2;
         current_parts := []; articles := articles (save_article' st) |}.
Proof.
  intros (g1 & g2 & He & Hl & Hn & Hm)%header_paragraph_inv.
  exists g1, g2. split; [done|]. by apply step_header.
Qed.

(** Any other paragraph leaves the candidate's number and title and the
    records as they are; without a candidate it changes nothing. *)
Lemma step_other st p :
  header_paragraph p = false →
  current_num (step' st p) = current_num st ∧
  current_title (step' st p) = current_title st ∧
  articles (step' st p) = articles st ∧
  (num_set (current_num st) = false → step' st p = st).
Proof.
  unfold header_paragraph, step. intros Hp.
  destruct (in_edit_block p); [done|].
  destruct (_ || _); [done|]. destruct (is_noise _); [done|].
  destruct (header_match _) as [[g1 g2]|] eqn:Hm.
  - cbn [negb andb] in Hp. apply bool_decide_eq_false in Hp.
    destruct Hp. by eexists.
  - destruct (num_set _); done.
Qed.

Lemma foldl_step_idle pre :
  Forall (λ p, header_paragraph p = false) pre → foldl step' init pre = init.
Proof.
  induction 1 as [|p pre Hp Hpre IH]; simpl; [done|].
  destruct (step_other init p Hp) as (_ & _ & _ & ->); done.
Qed.

Lemma save_article_add A st :
  save_article' (add_articles A st) = add_articles A (save_article' st).
Proof.
  destruct st as [n t ps arts]. unfold save_article, add_articles.
  cbn [current_num current_title current_parts articles].
  destruct n as [num|]; [|done].
  destruct (_ && _); [|done]. case_bool_decide; [|done].
  cbn [current_num current_title current_parts articles].
  f_equal. symmetry. apply app_assoc.
Qed.

Lemma step_add A st p : step' (add_articles A st) p = add_articles A (step' st p).
Proof.
  unfold step. destruct (in_edit_block p); [done|].
  destruct (_ || _); [done|]. destruct (is_noise _); [done|].
  destruct (header_match _) as [[g1 g2]|].
  - rewrite save_article_add. done.
  - destruct st as [n t ps arts]. simpl. destruct (num_set n); done.
Qed.

Lemma foldl_step_add A ps st :
  foldl step' (add_articles A st) ps = add_articles A (foldl step' st ps).
Proof.
  revert st. induction ps as [|p ps IH]; intros st; simpl; [done|].
  by rewrite step_add, IH.
Qed.

Lemma foldl_step_from A n t ps :
  articles (save_article' (foldl step'
    {| current_num := n; current_title := t; current_parts := []; articles := A |} ps)) =
  A ++ articles (save_article' (foldl step'
    {| current_num := n; current_title := t; current_parts := []; articles := [] |} ps)).
Proof.
  assert ({| current_num := n; current_title := t; current_parts := []; articles := A |} =
          add_articles A {| current_num := n; current_title := t; current_parts := [];
                            articles := [] |}) as ->.
  { unfold add_articles. cbn [current_num current_title current_parts articles].
    by rewrite app_nil_r. }
  by rewrite foldl_step_add, save_article_add.
Qed.

Lemma step_not_considered st p : considered p = false → step' st p = st.
Proof.
  unfold considered. intros H.
  destruct (in_edit_block p) eqn:He; [by apply step_in_edit_block|].
  case_bool_decide as Hl; [|apply step_short; lia].
  simpl in H. apply negb_false_iff in H. by apply step_noise.
Qed.

Lemma step_body_text st p :
  header_paragraph p = false → considered p = true →
  step' st p =
    if num_set (current_num st)
    then {| current_num := current_num st; current_title := current_title st;
            current_parts := current_parts st ++ [get_text p.2];
            articles := articles st |}
    else st.
Proof.
  unfold considered, header_paragraph.
  intros Hh [[He%negb_true_iff Hl%bool_decide_eq_true]%andb_true_iff
             Hn%negb_true_iff]%andb_true_iff.
  rewrite He, Hn in Hh. simpl in Hh. apply bool_decide_eq_false in Hh.
  apply step_body; try done.
  destruct (header_match _) eqn:E; [|done]. destruct Hh. by eexists.
Qed.

Lemma foldl_step_body body st :
  num_set (current_num st) = true →
  Forall (λ p, header_paragraph p = false) body →
  foldl step' st body =
    {| current_num := current_num st; current_title := current_title st;
       current_parts := current_parts st ++ body_texts body;
       articles := articles st |}.
Proof.
  intros Hn Hb. revert st Hn.
  induction Hb as [|p body Hp Hb IH]; intros st Hn; simpl.
  - unfold body_texts. simpl. rewrite app_nil_r. by destruct st.
  - unfold body_texts. cbn [List.filter]. destruct (considered p) eqn:Hc.
    + rewrite (step_body_text st p Hp Hc), Hn. rewrite IH by done.
      cbn [current_num current_title current_parts articles].
      rewrite fmap_cons, <- app_assoc. done.
    + rewrite step_not_considered by done. by apply IH.
Qed.

Lemma save_article_heading st :
  heading <$> articles (save_article' st) `sublist_of`
  (heading <$> articles st) ++ pending st.
Proof.
  destruct (save_article_articles raw cid page_hash st)
    as [->|(num & Hc & _ & _ & _ & ->)].
  - by apply sublist_inserts_r.
  - unfold pending. rewrite Hc, fmap_app. done.
Qed.

Lemma foldl_step_headers ps st hs :
  (heading <$> articles st) ++ pending st `sublist_of` hs →
  (heading <$> articles (foldl step' st ps)) ++ pending (foldl step' st ps)
    `sublist_of` hs ++ headers ps.
Proof.
  revert st hs. induction ps as [|p ps IH]; intros st hs H; simpl.
  - by rewrite app_nil_r.
  - unfold headers. cbn [omap list_omap]. fold (headers ps).
    destruct (header_paragraph p) eqn:Hp.
    + destruct (step_header_paragraph st p Hp) as (g1 & g2 & Hm & ->).
      rewrite Hm. cbn [fmap option_fmap option_map fst snd].
      rewrite (cons_middle _ hs), app_assoc. apply IH.
      unfold pending. cbn [current_num current_title articles].
      apply sublist_app; [|done]. etrans; [apply save_article_heading|done].
    + destruct (step_other st p Hp) as (Hn & Ht & Ha & _).
      apply IH. unfold pending. by rewrite Hn, Ht, Ha.
Qed.

Lemma normalized_nil : normalized [].
Proof. apply (clean_text_normalized []). Qed.

Lemma page_record_save st :
  normalized (current_title st) →
  Forall (page_record raw cid page_hash) (articles st) →
  Forall (page_record raw cid page_hash) (articles (save_article' st)).
Proof.
  intros Ht Ha.
  destruct (save_article_articles raw cid page_hash st)
    as [->|(num & Hc & _ & _ & _ & ->)]; [done|].
  apply Forall_app. split; [done|]. apply Forall_singleton.
  split; [done|]. split; [done|]. apply clean_text_normalized.
Qed.

Lemma page_record_foldl ps st :
  normalized (current_title st) →
  Forall (page_record raw cid page_hash) (articles st) →
  normalized (current_title (foldl step' st ps)) ∧
  Forall (page_record raw cid page_hash) (articles (foldl step' st ps)).
Proof.
  revert st. induction ps as [|p ps IH]; intros st Ht Ha; simpl; [done|].
  destruct (header_paragraph p) eqn:Hp.
  - destruct (step_header_paragraph st p Hp) as (g1 & g2 & Hm & ->).
    apply IH; cbn [current_title articles];
      [apply clean_text_normalized | by apply page_record_save].
  - destruct (step_other st p Hp) as (Hn & Ht' & Ha' & _).
    apply IH; by rewrite ?Ht', ?Ha'.
Qed.

Lemma dict_get_default d k dflt : k ∉ d.*1 → dict_get d k dflt = dflt.
Proof.
  induction d as [|[k' v] d IH]; simpl; [done|].
  intros Hk. apply not_elem_of_cons in Hk as [Hk Hd].
  rewrite bool_decide_eq_false_2 by done. by apply IH.
Qed.

Lemma dict_get_elem d k v dflt : NoDup d.*1 → (k, v) ∈ d → dict_get d k dflt = v.
Proof.
  induction d as [|[k' v'] d IH]; simpl.
  - by intros _ ?%elem_of_nil.
  - intros [Hk Hd]%NoDup_cons [[= -> ->]|Hin]%elem_of_cons.
    + by rewrite bool_decide_eq_true_2.
    + rewrite bool_decide_eq_false_2; [by apply IH|].
      intros ->. apply Hk. apply list_elem_of_fmap. by exists (k, v).
Qed.

(** X3: a paragraph whose lower-cased text contains one of the skip markers
    leaves the parser state as it is, also when the text is a header line:
    the records are those of the stream without such paragraphs. *)
Theorem noise_paragraph_ignored :
  (∀ st p, is_noise (get_text p.2) = true → step' st p = st) ∧
  (∀ ps,
     parse_paragraphs'
       (List.filter (λ p, negb (is_noise (get_text p.2))) ps) =
     parse_paragraphs' ps).
Proof.
  split; [apply step_noise|].
  intros ps. apply parse_paragraphs_filter.
  intros st p Hp. apply step_noise. by apply negb_false_iff.
Qed.

(** X4: what comes before the first header paragraph of a page is ignored:
    when no paragraph of [pre] is a header paragraph, the records of
    [pre ++ ps] are those of [ps], and [pre] alone gives no record. *)
Theorem paragraphs_before_first_header_ignored pre ps :
  Forall (λ p, header_paragraph p = false) pre →
  parse_paragraphs' (pre ++ ps) = parse_paragraphs' ps ∧
  parse_paragraphs' pre = [].
Proof.
  intros Hpre. unfold parse_paragraphs.
  rewrite foldl_app, !(foldl_step_idle pre Hpre). by split.
Qed.

(** X5: a header paragraph closes what precedes it: the records of a stream
    are those of the paragraphs before a header paragraph, followed by
    those of the stream from the header on. *)
Theorem records_split_at_header ps1 h ps2 :
  header_paragraph h = true →
  parse_paragraphs' (ps1 ++ h :: ps2) =
  parse_paragraphs' ps1 ++ parse_paragraphs' (h :: ps2).
Proof.
  intros Hh. unfold parse_paragraphs. rewrite foldl_app. simpl.
  destruct (step_header_paragraph (foldl step' init ps1) h Hh) as (g1 & g2 & Hm & ->).
  destruct (step_header_paragraph init h Hh) as (g1' & g2' & Hm' & ->).
  assert (g1' = g1 ∧ g2' = g2) as [-> ->] by (split; congruence).
  rewrite foldl_step_from. f_equal.
Qed.

(** X6: a header paragraph followed by paragraphs that are not headers
    gives at most one record: the number and the normalised title of the
    header, with the normalised join of the texts of the paragraphs that
    are outside edit blocks, have 3 characters or more and carry no skip
    marker; the record is emitted exactly when this text has more than 20
    characters. *)
Theorem section_record h body num title :
  header_paragraph h = true →
  header_match (get_text h.2) = Some (num, title) →
  Forall (λ p, header_paragraph p = false) body →
  parse_paragraphs' (h :: body) =
    if bool_decide (20 < length (clean_text (join (u " ") (body_texts body))))
    then [ record raw cid page_hash num (clean_text title)
             (clean_text (join (u " ") (body_texts body))) ]
    else [].
Proof.
  intros Hh Hm Hb. unfold parse_paragraphs. cbn [foldl].
  destruct (step_header_paragraph init h Hh) as (g1 & g2 & Hm' & ->).
  rewrite Hm in Hm'. injection Hm' as <- <-.
  assert (num ≠ []) as Hnum.
  { apply header_match_Some in Hm.
    destruct Hm as (? & ? & ? & ? & ? & ? & _ & _ & _ & _ & _ & Hd & _).
    by apply dotted_num_nonempty in Hd. }
  change (articles (save_article' init)) with (@nil article).
  rewrite foldl_step_body; [|by destruct num|done].
  unfold save_article. cbn [current_num current_title current_parts articles app].
  destruct num as [|x num]; [done|]. cbn [nonempty nonempty_list andb].
  case_bool_decide as He.
  - rewrite He. cbn [negb articles].
    by rewrite bool_decide_eq_false_2 by (simpl; lia).
  - cbn [negb]. by case_bool_decide.
Qed.

(** X7: the records of a page follow its headers: their numbers and titles
    are, in order, numbers and normalised titles of header paragraphs of
    the page, each header used at most once; so a page gives no more
    records than it has header paragraphs. *)
Theorem records_follow_headers ps :
  heading <$> parse_paragraphs' ps `sublist_of` headers ps ∧
  length (parse_paragraphs' ps) ≤ length (headers ps).
Proof.
  assert (heading <$> parse_paragraphs' ps `sublist_of` headers ps) as H.
  { unfold parse_paragraphs. etrans; [apply save_article_heading|].
    apply (foldl_step_headers ps init []). done. }
  split; [done|]. apply sublist_length in H. by rewrite length_fmap in H.
Qed.

(** X8: every record of a page carries the name, the identifier, the
    chapter and the address that belong to the code and the page, and a
    title and a text that are normalised (single spaces only, none at
    either end).  The name and the base address come from the tables; for
    an identifier that the tables do not have, the name is the identifier
    itself and the address is the page hash with a slash. *)
Theorem page_record_fields html a :
  a ∈ parse_article_page raw cid page_hash html →
  page_record raw cid page_hash a ∧
  (∀ name, (cid, name) ∈ CODEX_NAMES → codex a = name) ∧
  (∀ base, (cid, base) ∈ CODEX_URLS → url a = base ++ page_hash ++ u "/") ∧
  (cid ∉ CODEX_NAMES.*1 → codex a = cid ∧ url a = page_hash ++ u "/").
Proof.
  intros Ha.
  assert (page_record raw cid page_hash a) as Hr.
  { unfold parse_article_page in Ha.
    destruct (find_content html) as [content|]; [|by apply elem_of_nil in Ha].
    unfold parse_paragraphs in Ha.
    destruct (page_record_foldl (descendants_p content) init) as [Ht Hall];
      [apply normalized_nil|constructor|].
    pose proof (page_record_save _ Ht Hall) as Hs.
    rewrite Forall_forall in Hs. by apply Hs. }
  split; [done|]. destruct Hr as (-> & _ & _).
  cbn [codex url record].
  split; [|split].
  - intros name Hn. apply dict_get_elem; [apply CODEX_NAMES_NoDup|done].
  - intros base Hb. f_equal. apply dict_get_elem; [|done].
    apply (bool_decide_unpack _). vm_compute. exact I.
  - intros Hc. split; [by apply dict_get_default|].
    rewrite dict_get_default; [done|].
    assert (CODEX_URLS.*1 = CODEX_NAMES.*1) as -> by (vm_compute; reflexivity).
    done.
Qed.
End page_more.

Lemma paragraphs_before_first_header_ignored_witness :
  let pre := [in_content (par (u "Общие положения кодекса"))] in
  let ps := [in_content (par (u "Статья 5. Foo")); in_content (par long_body_1)] in
  Forall (λ p, header_paragraph p = false) pre ∧
  parse_paragraphs ∅ (u "gk1") (u "page") (pre ++ ps) =
    parse_paragraphs ∅ (u "gk1") (u "page") ps ∧
  parse_paragraphs ∅ (u "gk1") (u "page") pre = [].
Proof.
  intros pre ps.
  assert (Forall (λ p, header_paragraph p = false) pre) as H
    by (constructor; [vm_compute; reflexivity|constructor]).
  split; [exact H|].
  exact (paragraphs_before_first_header_ignored ∅ (u "gk1") (u "page") pre ps H).
Defined.

Lemma records_split_at_header_witness :
  let ps1 := [in_content (par (u "Статья 5. Foo")); in_content (par long_body_1)] in
  let h := in_content (par (u "Статья 6. Bar")) in
  let ps2 := [in_content (par long_body_2)] in
  header_paragraph h = true ∧
  parse_paragraphs ∅ (u "gk1") (u "page") (ps1 ++ h :: ps2) =
    parse_paragraphs ∅ (u "gk1") (u "page") ps1 ++
    parse_paragraphs ∅ (u "gk1") (u "page") (h :: ps2).
Proof.
  intros ps1 h ps2.
  assert (header_paragraph h = true) as H by (vm_compute; reflexivity).
  split; [exact H|].
  exact (records_split_at_header ∅ (u "gk1") (u "page") ps1 h ps2 H).
Defined.

Lemma section_record_witness :
  let h := in_content (par (u "Статья 5. Foo")) in
  let body := [in_content (par (u "(в ред. закона)")); in_content (par long_body_1)] in
  header_paragraph h = true ∧
  header_match (get_text h.2) = Some (u "5", u "Foo") ∧
  Forall (λ p, header_paragraph p = false) body ∧
  parse_paragraphs ∅ (u "gk1") (u "page") (h :: body) =
    [record ∅ (u "gk1") (u "page") (u "5") (u "Foo") long_body_1].
Proof.
  intros h body.
  assert (header_paragraph h = true) as H1 by (vm_compute; reflexivity).
  assert (header_match (get_text h.2) = Some (u "5", u "Foo")) as H2
    by (vm_compute; reflexivity).
  assert (Forall (λ p, header_paragraph p = false) body) as H3.
  { constructor; [vm_compute; reflexivity|].
    constructor; [vm_compute; reflexivity|constructor]. }
  split; [exact H1|]. split; [exact H2|]. split; [exact H3|].
  etrans;
    [exact (section_record ∅ (u "gk1") (u "page") h body (u "5") (u "Foo") H1 H2 H3)|].
  vm_compute. reflexivity.
Defined.

Lemma page_record_fields_witness :
  let a := record ∅ (u "gk1") (u "page") (u "5") (u "Foo") long_body_1 in
  page_record ∅ (u "gk1") (u "page") a ∧
  (∀ name, (u "gk1", name) ∈ CODEX_NAMES → codex a = name) ∧
  (∀ base, (u "gk1", base) ∈ CODEX_URLS → url a = base ++ u "page" ++ u "/") ∧
  (u "gk1" ∉ CODEX_NAMES.*1 → codex a = u "gk1" ∧ url a = u "page" ++ u "/").
Proof.
  intros a.
  apply (page_record_fields ∅ (u "gk1") (u "page")
           (stream_page [u "Статья 5. Foo"; long_body_1])).
  assert (parse_article_page ∅ (u "gk1") (u "page")
            (stream_page [u "Статья 5. Foo"; long_body_1]) = [a]) as ->
    by (vm_compute; reflexivity).
  apply list_elem_of_here.
Defined.

(** ** More on the assembler *)

Section sort_more.
Context {A : Type} (lt : A → A → bool).

Lemma py_sort_sorted_id l : StronglySorted (not_gt lt) l → py_sort lt l = l.
Proof.
  induction 1 as [|x l Hl IH Hx]; simpl; [done|]. rewrite IH.
  destruct l as [|y l]; simpl; [done|].
  apply Forall_cons in Hx as [Hy _]. unfold not_gt in Hy. by rewrite Hy.
Qed.
End sort_more.

Lemma pairs_unzip (l : list (list Z * article)) :
  Forall (λ p, sort_key p.2 = Some p.1) l →
  mapM sort_key l.*2 = Some l.*1 ∧ zip l.*1 l.*2 = l.
Proof.
  intros H. split.
  - apply mapM_Some. induction H as [|[k a] l Hp Hl IH]; constructor; done.
  - apply zip_fst_snd.
Qed.

Lemma sort_articles_unchanged arts :
  StronglySorted key_le arts → sort_articles arts = arts.
Proof.
  intros Hs. unfold sort_articles.
  destruct (mapM sort_key arts) as [keys|] eqn:Hm; [|done].
  apply mapM_Some in Hm. pose proof (Forall2_length _ _ _ Hm) as Hlen.
  rewrite py_sort_sorted_id; [by rewrite snd_zip by lia|].
  clear Hlen. revert keys Hm. induction Hs as [|a arts Hs IH Ha]; intros keys Hm.
  - apply Forall2_nil_inv_l in Hm as ->. constructor.
  - apply Forall2_cons_inv_l in Hm as (k & keys' & Hk & Hm & ->). simpl.
    constructor; [by apply IH|].
    apply zip_keys_spec in Hm.
    pose proof (proj1 (Forall_forall _ _) Ha) as Ha'.
    pose proof (proj1 (Forall_forall _ _) Hm) as Hm'.
    apply Forall_forall. intros [k' b] Hin. unfold not_gt. simpl.
    pose proof (Hm' _ Hin) as Hb. simpl in Hb.
    assert (b ∈ arts) as Hb' by by eapply elem_of_zip_r.
    destruct (Ha' _ Hb') as (ka & kb & Hka & Hkb & Hlt). congruence.
Qed.

(** X9: sorting a group that is already in ascending order of its integer
    tuples leaves it exactly as it is, so sorting twice gives what sorting
    once gives. *)
Theorem sorted_group_unchanged arts :
  (StronglySorted key_le arts → sort_articles arts = arts) ∧
  sort_articles (sort_articles arts) = sort_articles arts.
Proof.
  split; [apply sort_articles_unchanged|].
  destruct (mapM sort_key arts) as [keys|] eqn:Hm.
  - apply sort_articles_unchanged, sort_articles_ascending.
    apply mapM_Some in Hm. rewrite Forall_forall. intros a Ha.
    apply well_formed_sort_key.
    apply list_elem_of_lookup in Ha as [i Hi].
    destruct (Forall2_lookup_l _ _ _ _ _ Hm Hi) as (k & _ & Hk). by eexists.
  - unfold sort_articles at 2 3. rewrite Hm. unfold sort_articles. by rewrite Hm.
Qed.

(** X10: the sort rearranges and never drops or adds: the output of
    [parse_codex] is a rearrangement of the records the two loops have
    kept, and records with the same integer tuple (such as 5 and 05) stay
    in the order in which the pages gave them. *)
Theorem sort_is_stable_rearrangement raw cid d :
  raw !! cid = Some d →
  parse_codex raw cid ≡ₚ collect (page_articles raw cid d) ∧
  ∀ k, List.filter (λ a, bool_decide (sort_key a = Some k)) (parse_codex raw cid) =
       List.filter (λ a, bool_decide (sort_key a = Some k))
         (collect (page_articles raw cid d)).
Proof.
  intros Hd. rewrite (parse_codex_unfold raw cid d Hd).
  split; [apply sort_articles_perm|]. intros k. apply sort_articles_stable.
Qed.

Lemma sort_is_stable_rearrangement_witness :
  dup_raw !! u "gk1" = Some dup_dir ∧
  parse_codex dup_raw (u "gk1") ≡ₚ collect (page_articles dup_raw (u "gk1") dup_dir) ∧
  ∀ k, List.filter (λ a, bool_decide (sort_key a = Some k)) (parse_codex dup_raw (u "gk1")) =
       List.filter (λ a, bool_decide (sort_key a = Some k))
         (collect (page_articles dup_raw (u "gk1") dup_dir)).
Proof.
  assert (dup_raw !! u "gk1" = Some dup_dir) as H by (vm_compute; reflexivity).
  split; [exact H|].
  exact (sort_is_stable_rearrangement dup_raw (u "gk1") dup_dir H).
Defined.

Lemma ends_with_app suffix s : ends_with suffix s = true → ∃ pre, s = pre ++ suffix.
Proof.
  induction s as [|c s IH]; simpl.
  - rewrite orb_false_r. intros <-%bool_decide_eq_true. by exists [].
  - intros [<-%bool_decide_eq_true|H]%orb_true_iff; [by exists []|].
    destruct (IH H) as [pre ->]. by exists (c :: pre).
Qed.

(** The name of a page file is its stem followed by [.html]; the file named
    [.html] alone is its own stem. *)
Lemma stem_spec name :
  ends_with (u ".html") name = true →
  name = u ".html" ∨ name = stem name ++ u ".html".
Proof.
  intros [pre ->]%ends_with_app. destruct pre as [|c pre]; [by left|].
  right. unfold stem. rewrite length_app.
  rewrite bool_decide_eq_false_2 by (simpl; lia).
  replace (length (c :: pre) + length (u ".html") - 5) with (length (c :: pre))
    by (simpl; lia).
  by rewrite take_app_length.
Qed.

Lemma page_articles_elem raw cid d a :
  a ∈ concat (page_articles raw cid d) ↔
  ∃ name html, (name, html) ∈ html_files d ∧ ends_with (u ".html") name = true ∧
    name ≠ u "index.html" ∧ a ∈ parse_article_page raw cid (stem name) html.
Proof.
  unfold page_articles.
  assert (∀ fs : list (str * list node),
    a ∈ concat (flat_map
      (λ html_file, if bool_decide (html_file.1 = u "index.html") then []
                    else [parse_article_page raw cid (stem html_file.1) html_file.2]) fs) ↔
    ∃ name html, (name, html) ∈ fs ∧ name ≠ u "index.html" ∧
      a ∈ parse_article_page raw cid (stem name) html) as Hfs.
  { induction fs as [|[n h] fs IH]; simpl.
    - split; [by intros ?%elem_of_nil|]. by intros (? & ? & ?%elem_of_nil & _).
    - rewrite concat_app, elem_of_app, IH. split.
      + intros [Ha|(name & html & Hin & Hne & Ha)].
        * case_bool_decide as Hn; simpl in Ha; [by apply elem_of_nil in Ha|].
          rewrite app_nil_r in Ha. exists n, h. split; [by left|done].
        * exists name, html. split; [by right|done].
      + intros (name & html & [[= -> ->]|Hin]%elem_of_cons & Hne & Ha).
        * left. rewrite bool_decide_eq_false_2 by done. simpl.
          by rewrite app_nil_r.
        * right. by exists name, html. }
  rewrite Hfs. split.
  - intros (name & html & Hin & Hne & Ha). exists name, html.
    rewrite py_sort_perm in Hin. unfold glob_html in Hin.
    apply list_elem_of_In, filter_In in Hin as [Hin He].
    apply list_elem_of_In in Hin. done.
  - intros (name & html & Hin & He & Hne & Ha). exists name, html.
    split; [|done]. rewrite py_sort_perm. unfold glob_html.
    apply list_elem_of_In, filter_In. split; [by apply list_elem_of_In|done].
Qed.

(** X11: the records of a code come from its page files and from nothing
    else: every record of [parse_codex] is a record of a file of the
    directory whose name ends in [.html] and is not [index.html], parsed
    under the stem of that name; and no key is lost: a record of such a
    file has its [(codex_id, article_num)] among those of the output. *)
Theorem records_come_from_page_files raw cid :
  (∀ a, a ∈ parse_codex raw cid →
     ∃ d name html, raw !! cid = Some d ∧ (name, html) ∈ html_files d ∧
       ends_with (u ".html") name = true ∧ name ≠ u "index.html" ∧
       (name = u ".html" ∨ name = stem name ++ u ".html") ∧
       a ∈ parse_article_page raw cid (stem name) html) ∧
  (∀ d name html a,
     raw !! cid = Some d → (name, html) ∈ html_files d →
     ends_with (u ".html") name = true → name ≠ u "index.html" →
     a ∈ parse_article_page raw cid (stem name) html →
     key a ∈ key <$> parse_codex raw cid).
Proof.
  split.
  - intros a Ha. destruct (raw !! cid) as [d|] eqn:Hd.
    2:{ unfold parse_codex in Ha. rewrite Hd in Ha. by apply elem_of_nil in Ha. }
    rewrite (parse_codex_unfold raw cid d Hd), sort_articles_perm in Ha.
    destruct (collect_spec (page_articles raw cid d)) as (_ & Hsub & _).
    apply Hsub, page_articles_elem in Ha as (name & html & Hin & He & Hne & Ha).
    exists d, name, html. split; [done|]. split; [done|]. split; [done|].
    split; [done|]. split; [by apply stem_spec|done].
  - intros d name html a Hd Hin He Hne Ha.
    destruct (parse_codex_spec raw cid) as (_ & _ & Hfind).
    specialize (Hfind d (key a) Hd).
    assert (a ∈ concat (page_articles raw cid d)) as Hc.
    { apply page_articles_elem. by exists name, html. }
    destruct (List.find (has_key (key a)) (concat (page_articles raw cid d)))
      as [b|] eqn:Hf.
    + apply find_some in Hfind as [Hb Hk]. apply bool_decide_eq_true in Hk.
      rewrite <- Hk. apply list_elem_of_fmap_2. by apply list_elem_of_In.
    + apply list_elem_of_In in Hc.
      apply (find_none _ _ Hf) in Hc. unfold has_key in Hc.
      by rewrite bool_decide_eq_true_2 in Hc.
Qed.

(** ** More on the driver *)

Lemma flat_map_ext_names {B} (f g : str * str → list B) (names : list (str * str)) :
  (∀ x, x ∈ names → f x = g x) → flat_map f names = flat_map g names.
Proof.
  induction names as [|x names IH]; simpl; [done|]. intros H.
  rewrite (H x) by by left. f_equal. apply IH. intros y Hy. apply H. by right.
Qed.

(** X12: what a run leaves.  The file of a code of the table holds the
    fresh records of the code when there are any, and is left as it was
    otherwise; files of other codes are not touched and no file is removed.
    The combined corpus is the concatenation, in the order of the table, of
    the fresh records of each code or, where a code gave none, of its
    previous file; from an empty output directory it is the concatenation
    of the fresh records. *)
Theorem run_output raw parsed :
  (∀ cid, (main raw parsed).1 !! cid =
     if bool_decide (cid ∈ CODEX_NAMES.*1) && nonempty_list (parse_codex raw cid)
     then Some (parse_codex raw cid) else parsed !! cid) ∧
  (∀ cid, is_Some (parsed !! cid) → is_Some ((main raw parsed).1 !! cid)) ∧
  (main raw parsed).2 =
    flat_map (λ '(cid, _),
                if nonempty_list (parse_codex raw cid) then parse_codex raw cid
                else default [] (parsed !! cid)) CODEX_NAMES ∧
  (main raw ∅).2 = flat_map (λ '(cid, _), parse_codex raw cid) CODEX_NAMES.
Proof.
  assert (∀ parsed cid, (main raw parsed).1 !! cid =
     if bool_decide (cid ∈ CODEX_NAMES.*1) && nonempty_list (parse_codex raw cid)
     then Some (parse_codex raw cid) else parsed !! cid) as Hfile.
  { intros fs cid. rewrite main_unfold. cbn [fst]. apply write_codex_lookup. }
  assert (∀ parsed, (main raw parsed).2 =
    flat_map (λ '(cid, _),
                if nonempty_list (parse_codex raw cid) then parse_codex raw cid
                else default [] (parsed !! cid)) CODEX_NAMES) as Hcorpus.
  { intros fs. rewrite main_unfold. cbn [snd]. apply flat_map_ext_names.
    intros [cid name] Hin. rewrite write_codex_lookup.
    rewrite bool_decide_eq_true_2 by (apply list_elem_of_fmap; by exists (cid, name)).
    cbn [andb]. by destruct (nonempty_list _). }
  split; [apply Hfile|]. split; [|split; [apply Hcorpus|]].
  - intros cid Hs. rewrite Hfile. by destruct (_ && _).
  - rewrite Hcorpus. apply flat_map_ext_names. intros [cid name] _.
    rewrite lookup_empty. by destruct (parse_codex raw cid).
Qed.

(** ** The table of contents *)

Lemma index_step_link st el :
  index_step st el =
    let ch := if is_heading el then clean_text (get_text (plain el)) else st.2 in
    (match link_hash el with Some h => <[h := ch]> st.1 | None => st.1 end, ch).
Proof.
  unfold index_step, link_hash, is_heading. cbn zeta.
  destruct el as [s|name [href|] children]; try done.
  destruct (_ && _); [|done]. by case_bool_decide.
Qed.

Lemma str_split_no_sep sep s : Forall (λ p, sep ∉ p) (str_split sep s).
Proof.
  induction s as [|c s IH]; simpl.
  - constructor; [apply not_elem_of_nil|constructor].
  - destruct (c =? sep)%N eqn:Hc.
    + constructor; [apply not_elem_of_nil|done].
    + apply N.eqb_neq in Hc. destruct (str_split sep s) as [|p ps].
      * constructor; [|constructor]. by intros [->|?%elem_of_nil]%elem_of_cons.
      * apply Forall_cons in IH as [Hp Hps]. constructor; [|done].
        by intros [->|?]%elem_of_cons.
Qed.

Lemma last_Forall {A} (P : A → Prop) l d : P d → Forall P l → P (List.last l d).
Proof.
  intros Hd. induction 1 as [|x l Hx Hl IH]; simpl; [done|].
  destruct l; [done|]. apply IH.
Qed.

Lemma last_segment_no_slash href : 0x2F%N ∉ last_segment href.
Proof.
  unfold last_segment. apply (last_Forall (λ p, 0x2F%N ∉ p)).
  - apply not_elem_of_nil.
  - apply str_split_no_sep.
Qed.

Lemma link_hash_spec el h :
  link_hash el = Some h → 10 < length h ∧ 0x2F%N ∉ h.
Proof.
  unfold link_hash. destruct el as [s|name [href|] children]; try done.
  destruct (_ && _); [|done]. case_bool_decide as Hl; [|done].
  intros [= <-]. split; [done|]. apply last_segment_no_slash.
Qed.

(** The chapter in force after a run of elements. *)
Lemma foldl_index_chapter els st :
  (foldl index_step st els).2 =
    match List.filter is_heading (rev els) with
    | el :: _ => clean_text (get_text (plain el))
    | [] => st.2
    end.
Proof.
  induction els as [|e els IH] using rev_ind; [done|].
  rewrite foldl_app, rev_app_distr. cbn [foldl rev app List.filter].
  rewrite index_step_link. cbn zeta. cbn [snd].
  destruct (is_heading e); [done|]. apply IH.
Qed.

Lemma foldl_index_keep els st h :
  Forall (λ el, link_hash el ≠ Some h) els →
  (foldl index_step st els).1 !! h = st.1 !! h.
Proof.
  intros Hels. revert st. induction Hels as [|e els He Hels IH]; intros st; [done|].
  cbn [foldl]. rewrite IH, index_step_link. cbn zeta. cbn [fst].
  destruct (link_hash e) as [h'|]; [|done].
  rewrite lookup_insert_ne; [done|]. congruence.
Qed.

(** What holds of the chapter map while the elements of [all] are
    processed. *)
Lemma foldl_index_inv (all els : list inode) st :
  els ⊆ all →
  let ok ch := ch = [] ∨ ∃ el, el ∈ all ∧ is_heading el = true ∧
                 ch = clean_text (get_text (plain el)) in
  let linked h := ∃ el, el ∈ all ∧ link_hash el = Some h in
  ok st.2 → (∀ h ch, st.1 !! h = Some ch → ok ch ∧ linked h) →
  ok (foldl index_step st els).2 ∧
  ∀ h ch, (foldl index_step st els).1 !! h = Some ch → ok ch ∧ linked h.
Proof.
  intros Hsub ok linked. revert st.
  induction els as [|e els IH]; intros st Hch Hmap; [done|].
  cbn [foldl]. apply IH.
  - intros x Hx. apply Hsub. by right.
  - rewrite index_step_link. cbn zeta. cbn [snd].
    destruct (is_heading e) eqn:He; [|done].
    right. exists e. split; [apply Hsub; by left|done].
  - intros h ch. rewrite index_step_link. cbn zeta. cbn [fst].
    assert (ok (if is_heading e then clean_text (get_text (plain e)) else st.2)) as Hok.
    { destruct (is_heading e) eqn:He; [|done].
      right. exists e. split; [apply Hsub; by left|done]. }
    destruct (link_hash e) as [h'|] eqn:Hl; [|apply Hmap].
    destruct (decide (h = h')) as [->|Hne].
    + rewrite lookup_insert_eq. intros [= <-]. split; [done|].
      exists e. split; [apply Hsub; by left|done].
    + rewrite lookup_insert_ne by done. apply Hmap.
Qed.

Lemma chapter_map_lookup index h ch :
  build_chapter_map index !! h = Some ch →
  (ch = [] ∨ ∃ el, el ∈ flat_map find_all_tags index ∧ is_heading el = true ∧
     ch = clean_text (get_text (plain el))) ∧
  ∃ el, el ∈ flat_map find_all_tags index ∧ link_hash el = Some h.
Proof.
  unfold build_chapter_map. intros Hh.
  destruct (foldl_index_inv (flat_map find_all_tags index)
              (flat_map find_all_tags index) (∅, [])) as [_ Hmap].
  - done.
  - by left.
  - intros h' ch'. cbn [fst]. by rewrite lookup_empty.
  - by apply Hmap.
Qed.

(** X13: every entry of the chapter map built from a table of contents has
    as key the last path segment of a link of the table, longer than 10
    characters and without a slash, and as value either the empty string
    (no heading before the link) or the normalised text of an element of
    the table whose text starts as a chapter heading; in both cases a
    normalised text. *)
Theorem chapter_map_entries index h ch :
  build_chapter_map index !! h = Some ch →
  10 < length h ∧ (0x2F%N ∉ h) ∧
  (∃ el, el ∈ flat_map find_all_tags index ∧ link_hash el = Some h) ∧
  (ch = [] ∨ ∃ el, el ∈ flat_map find_all_tags index ∧ is_heading el = true ∧
     ch = clean_text (get_text (plain el))) ∧
  normalized ch.
Proof.
  intros Hh. destruct (chapter_map_lookup index h ch Hh) as [Hok (el & Hel & Hl)].
  destruct (link_hash_spec el h Hl) as [Hlen Hslash].
  split; [done|]. split; [done|]. split; [by exists el|]. split; [done|].
  destruct Hok as [->|(e & _ & _ & ->)];
    [apply normalized_nil | apply clean_text_normalized].
Qed.

Lemma chapter_map_entries_witness :
  build_chapter_map sample_index !! u "0123456789abcdef" =
    Some (u "Глава 1. Общие положения") ∧
  10 < length (u "0123456789abcdef") ∧ (0x2F%N ∉ u "0123456789abcdef") ∧
  (∃ el, el ∈ flat_map find_all_tags sample_index ∧
     link_hash el = Some (u "0123456789abcdef")) ∧
  (u "Глава 1. Общие положения" = [] ∨
   ∃ el, el ∈ flat_map find_all_tags sample_index ∧ is_heading el = true ∧
     u "Глава 1. Общие положения" = clean_text (get_text (plain el))) ∧
  normalized (u "Глава 1. Общие положения").
Proof.
  assert (build_chapter_map sample_index !! u "0123456789abcdef" =
            Some (u "Глава 1. Общие положения")) as H by (vm_compute; reflexivity).
  split; [exact H|].
  exact (chapter_map_entries sample_index (u "0123456789abcdef")
           (u "Глава 1. Общие положения") H).
Defined.

(** X14: the chapter of a page is the one in force at the last link to it:
    when the table of contents has a link with last segment [h] that no
    later link repeats, the map gives for [h] the normalised text of the
    last chapter heading at or before that link (the empty string when
    there is none); a segment that no link has is not in the map. *)
Theorem chapter_of_last_link index :
  (∀ els1 a els2 h,
     flat_map find_all_tags index = els1 ++ a :: els2 →
     link_hash a = Some h →
     Forall (λ el, link_hash el ≠ Some h) els2 →
     build_chapter_map index !! h = Some (last_heading (els1 ++ [a]))) ∧
  (∀ h, Forall (λ el, link_hash el ≠ Some h) (flat_map find_all_tags index) →
     build_chapter_map index !! h = None).
Proof.
  unfold build_chapter_map. split.
  - intros els1 a els2 h -> Hl Hels2.
    rewrite foldl_app. cbn [foldl]. rewrite foldl_index_keep by done.
    rewrite index_step_link. cbn zeta. cbn [fst]. rewrite Hl, lookup_insert_eq.
    f_equal. unfold last_heading. rewrite rev_app_distr. cbn [rev app List.filter].
    destruct (is_heading a); [done|].
    by rewrite foldl_index_chapter.
  - intros h Hall. by rewrite foldl_index_keep.
Qed.

(** X15: the chapter of every record of a page is what the chapter map of
    the code gives for the page hash.  With a map built from a table of
    contents it is a normalised text, and it is empty for a page hash of 10
    characters or fewer; it is empty as well when the code has no
    directory or no table of contents. *)
Theorem record_chapter raw cid page_hash html a :
  a ∈ parse_article_page raw cid page_hash html →
  chapter a = extract_chapter_from_index raw cid page_hash ∧
  (∀ d index, raw !! cid = Some d → chapter_map d = Some (build_chapter_map index) →
     chapter a = default [] (build_chapter_map index !! page_hash) ∧
     normalized (chapter a) ∧ (length page_hash ≤ 10 → chapter a = [])) ∧
  (raw !! cid = None → chapter a = []) ∧
  (∀ d, raw !! cid = Some d → chapter_map d = None → chapter a = []).
Proof.
  intros Ha.
  assert (chapter a = extract_chapter_from_index raw cid page_hash) as Hc.
  { unfold parse_article_page in Ha.
    destruct (find_content html) as [content|]; [|by apply elem_of_nil in Ha].
    unfold parse_paragraphs in Ha.
    destruct (page_record_foldl raw cid page_hash (descendants_p content) init)
      as [Ht Hall]; [apply normalized_nil|constructor|].
    pose proof (page_record_save raw cid page_hash _ Ht Hall) as Hs.
    rewrite Forall_forall in Hs. destruct (Hs a Ha) as (-> & _). done. }
  split; [done|]. rewrite Hc. unfold extract_chapter_from_index.
  split; [|split].
  - intros d index -> ->. split; [done|].
    destruct (build_chapter_map index !! page_hash) as [ch|] eqn:Hm; cbn [default].
    + apply chapter_map_lookup in Hm as [Hok (el & _ & Hl)].
      apply link_hash_spec in Hl as [Hlen _]. split; [|lia].
      destruct Hok as [->|(e & _ & _ & ->)];
        [apply normalized_nil | apply clean_text_normalized].
    + split; [apply normalized_nil|done].
  - by intros ->.
  - by intros d -> ->.
Qed.

Lemma record_chapter_witness :
  let a := record indexed_raw (u "gk1") (u "0123456789abcdef") (u "1")
             (u "Основные начала") long_body_1 in
  chapter a = u "Глава 1. Общие положения" ∧
  chapter a = extract_chapter_from_index indexed_raw (u "gk1") (u "0123456789abcdef") ∧
  (∀ d index, indexed_raw !! u "gk1" = Some d →
     chapter_map d = Some (build_chapter_map index) →
     chapter a = default [] (build_chapter_map index !! u "0123456789abcdef") ∧
     normalized (chapter a) ∧ (length (u "0123456789abcdef") ≤ 10 → chapter a = [])) ∧
  (indexed_raw !! u "gk1" = None → chapter a = []) ∧
  (∀ d, indexed_raw !! u "gk1" = Some d → chapter_map d = None → chapter a = []).
Proof.
  intros a. split; [vm_compute; reflexivity|].
  apply (record_chapter indexed_raw (u "gk1") (u "0123456789abcdef")
           (stream_page [u "Статья 1. Основные начала"; long_body_1])).
  assert (parse_article_page indexed_raw (u "gk1") (u "0123456789abcdef")
            (stream_page [u "Статья 1. Основные начала"; long_body_1]) = [a]) as ->
    by (vm_compute; reflexivity).
  apply list_elem_of_here.
Defined.

Lemma matches_chapter_heading w text :
  (∃ w0 s' c', text = w0 ++ s' ∧ matches (CHAPTER_HEADING w) w0 ∅ c') ↔
  ∃ mk ws nums rest, text = mk ++ ws ++ nums ++ rest ∧
    Forall2 (λ pc c, literal_ignore pc c = true) w mk ∧
    ws ≠ [] ∧ all_of Py_UNICODE_ISSPACE ws ∧
    nums ≠ [] ∧ all_of roman_or_digit nums.
Proof.
  unfold CHAPTER_HEADING. cbn [matches]. split.
  - intros (w0 & s' & c' & -> & mk & w1 & c1 & -> & (c2 & Hmk & ->)
            & ws & w2 & c3 & -> & (Hws & Hwsl & ->)
            & nums & w3 & c4 & -> & (Hn & Hnl & ->) & _).
    apply matches_literal in Hmk as [Hmk ->].
    exists mk, ws, nums, (w3 ++ s'). rewrite <- !app_assoc.
    split; [done|]. split; [done|].
    split; [by apply length_pos_nonempty|]. split; [done|].
    split; [by apply length_pos_nonempty|done].
  - intros (mk & ws & nums & rest & -> & Hmk & Hws0 & Hws & Hn0 & Hn).
    exists (mk ++ ws ++ nums ++ []), rest, (<[2 := []]> (<[1 := mk]> ∅)).
    split; [by rewrite app_nil_r, <- !app_assoc|].
    exists mk, (ws ++ nums ++ []), (<[1 := mk]> ∅). split; [done|].
    split; [exists ∅; split; [by apply matches_literal|done]|].
    exists ws, (nums ++ []), (<[1 := mk]> ∅). split; [done|].
    split; [split; [done|]; split; [by apply length_pos_nonempty|done]|].
    exists nums, [], (<[1 := mk]> ∅). split; [done|].
    split; [split; [done|]; split; [by apply length_pos_nonempty|done]|].
    exists [], [], (<[1 := mk]> ∅). split; [done|].
    split; [split; [constructor|]; split; [simpl; lia|done]|].
    exists (<[1 := mk]> ∅). split; [|done].
    split; [constructor|]. split; [simpl; lia|done].
Qed.

(** X16: an element is taken as a chapter heading by the start of its text
    alone: the text begins with one of the words Часть, Раздел, Подраздел,
    Глава in any case, white space, and a digit or a numeral letter.  What
    follows does not matter, so a text that continues a heading is a
    heading too (an element that encloses a heading and more is one). *)
Theorem chapter_heading_by_start text :
  (chapter_match text = true ↔ chapter_heading_shape text) ∧
  (∀ more, chapter_match text = true → chapter_match (text ++ more) = true).
Proof.
  assert (∀ t, chapter_match t = true ↔ chapter_heading_shape t) as Hshape.
  { intros t. unfold chapter_match, chapter_heading_shape.
    rewrite existsb_exists. split.
    - intros (w & Hw & Hm). apply bool_decide_eq_true in Hm.
      apply re_match_is_Some, matches_chapter_heading in Hm
        as (mk & ws & nums & rest & H).
      exists w, mk, ws, nums, rest. split; [by apply list_elem_of_In|done].
    - intros (w & mk & ws & nums & rest & Hw & H).
      exists w. split; [by apply list_elem_of_In|].
      apply bool_decide_eq_true, re_match_is_Some, matches_chapter_heading.
      by exists mk, ws, nums, rest. }
  split; [apply Hshape|].
  intros more (w & mk & ws & nums & rest & Hw & -> & H)%Hshape.
  apply Hshape. exists w, mk, ws, nums, (rest ++ more).
  split; [done|]. split; [by rewrite <- !app_assoc|done].
Qed.

(** ** The header line written back *)

Section matcher_paths.
Context {A : Type}.
Implicit Types (k : str → gmap nat str → option A).

(** A greedy repetition that takes a whole run succeeds when the
    continuation does after the run. *)
Lemma rep_greedy_max p lo w s (k : str → option A) a :
  all_of p w → lo ≤ length w → (∀ c, head s = Some c → p c = false) →
  k s = Some a → rep_greedy p lo (w ++ s) k = Some a.
Proof.
  intros Hw. revert lo.
  induction Hw as [|x w Hx Hw IH]; intros lo Hlo Hs Hk; simpl in *.
  - assert (lo = 0) as -> by lia. destruct s as [|c s]; simpl; [done|].
    by rewrite (Hs c eq_refl).
  - rewrite Hx. rewrite (IH (pred lo)); [done|lia|done|done].
Qed.

Lemma rmatch_rep_max p lo w s c k a :
  all_of p w → lo ≤ length w → (∀ x, head s = Some x → p x = false) →
  k s c = Some a → rmatch (Rep true lo p) (w ++ s) c k = Some a.
Proof. intros. cbn [rmatch]. by apply rep_greedy_max. Qed.

Lemma rmatch_literal m w s c k :
  Forall2 (λ pc x, literal_ignore pc x = true) m w →
  rmatch (literal m) (w ++ s) c k = k s c.
Proof.
  induction 1 as [|pc x m w Hx Hw IH]; [done|].
  cbn [literal foldr rmatch app]. rewrite Hx. apply IH.
Qed.

Lemma literal_prefix_Forall2 m w s :
  Forall2 (λ pc x, literal_ignore pc x = true) m w → literal_prefix m (w ++ s) = true.
Proof.
  induction 1 as [|pc x m w Hx Hw IH]; simpl; [by destruct s|]. by rewrite Hx.
Qed.

(** A match of a pattern that starts with a literal word needs the word
    at the start of the text. *)
Lemma rmatch_literal_fails m r s c k :
  literal_prefix m s = false → rmatch (Cat (literal m) r) s c k = None.
Proof.
  intros Hp. destruct (rmatch _ s c k) as [a|] eqn:E; [|done].
  apply rmatch_sound in E as (w & s' & c' & -> & Hm & _).
  destruct Hm as (w1 & w2 & c1 & -> & Hm & _).
  apply matches_literal in Hm as [Hm _].
  rewrite <- !app_assoc, literal_prefix_Forall2 in Hp; done.
Qed.

(** The free-text prefix cannot be used when the rest of the pattern fails
    at every later position. *)
Lemma rmatch_prefix_fails line c k :
  (∀ p y s' c', line = p ++ y :: s' → k s' c' = None) →
  rmatch (Cat (Rep false 0 not_linebreak) (Chr Py_UNICODE_ISSPACE)) line c k = None.
Proof.
  intros Hk. destruct (rmatch _ line c k) as [a|] eqn:E; [|done].
  apply rmatch_sound in E as (w & s' & c' & -> & Hm & Hs).
  destruct Hm as (w1 & w2 & c1 & -> & _ & (y & -> & _ & _)).
  rewrite (Hk w1 y s' c') in Hs; [done|]. by rewrite <- app_assoc.
Qed.
End matcher_paths.

Lemma mentions_suffix m p s : mentions m (p ++ s) = false → literal_prefix m s = false.
Proof.
  induction p as [|x p IH]; simpl.
  - destruct s; simpl; by intros [? _]%orb_false_iff.
  - intros [_ H]%orb_false_iff. by apply IH.
Qed.

(** An occurrence of a word starts at a character that matches its first
    letter. *)
Lemma mentions_skip pc m x t :
  Forall (λ c, literal_ignore pc c = false) x →
  mentions (pc :: m) (x ++ t) = mentions (pc :: m) t.
Proof.
  induction 1 as [|c x Hc Hx IH]; [done|].
  cbn [app mentions literal_prefix]. by rewrite Hc, IH.
Qed.

(** Checked on the 660 digits: a digit is neither white space nor a
    letter that matches the first letter of the marker word. *)
Lemma decimal_facts c :
  Py_UNICODE_ISDECIMAL c = true →
  Py_UNICODE_ISSPACE c = false ∧ literal_ignore 0x421%N c = false ∧
  not_linebreak c = true.
Proof.
  intros (z & d & Hz & Hd & ->)%decimal_inv.
  assert (forallb (λ z : N, forallb (λ d : N,
              negb (Py_UNICODE_ISSPACE (z + d)%N)
              && negb (literal_ignore 0x421%N (z + d)%N)
              && not_linebreak (z + d)%N) digit_offsets)
            Nd_zeros = true) as Hall by (vm_compute; reflexivity).
  rewrite forallb_forall in Hall. specialize (Hall z Hz).
  rewrite forallb_forall in Hall. specialize (Hall d Hd).
  apply andb_true_iff in Hall as [[H1%negb_true_iff H2%negb_true_iff]%andb_true_iff H3].
  done.
Qed.

Lemma dotted_num_chars num :
  dotted_num num →
  Forall (λ c, literal_ignore 0x421%N c = false) num ∧
  ∃ d num', num = d :: num' ∧ Py_UNICODE_ISDECIMAL d = true.
Proof.
  intros (d1 & Hd1 & Hall1 & Hnum).
  assert (Forall (λ c, literal_ignore 0x421%N c = false) d1) as H1.
  { eapply Forall_impl; [exact Hall1|]. intros c Hc. by apply decimal_facts in Hc as (_ & ? & _). }
  destruct d1 as [|d d1]; [done|]. apply Forall_cons in Hall1 as [Hd _].
  destruct Hnum as [->|(d2 & _ & Hall2 & ->)].
  - split; [done|]. by exists d, d1.
  - split; [|by exists d, (d1 ++ [0x2E%N] ++ d2)].
    apply Forall_app. split; [done|]. apply Forall_app. split.
    + by apply Forall_singleton.
    + eapply Forall_impl; [exact Hall2|]. intros c Hc.
      by apply decimal_facts in Hc as (_ & ? & _).
Qed.

(** The number, followed by a dot and a character that is not a digit, is
    taken whole. *)
Lemma rmatch_header_number {A} num y rest c
    (k : str → gmap nat str → option A) a :
  dotted_num num → Py_UNICODE_ISDECIMAL y = false →
  k (0x2E%N :: y :: rest) c = Some a →
  rmatch header_number (num ++ 0x2E%N :: y :: rest) c k = Some a.
Proof.
  intros (d1 & Hd1 & Hall1 & Hnum) Hy Hk. unfold header_number. cbn [rmatch].
  assert (∀ x, head (0x2E%N :: y :: rest) = Some x → Py_UNICODE_ISDECIMAL x = false)
    as Hdot by (by intros x [= <-]).
  destruct Hnum as [->|(d2 & Hd2 & Hall2 & ->)].
  - apply rep_greedy_max; [done|by apply length_pos_nonempty|done|].
    cbn [rmatch]. replace (is_dot 0x2E%N) with true by reflexivity.
    cbn [rep_greedy]. by rewrite Hy, Hk.
  - rewrite <- !app_assoc. cbn [app].
    apply rep_greedy_max; [done|by apply length_pos_nonempty|by intros x [= <-]|].
    cbn [rmatch]. replace (is_dot 0x2E%N) with true by reflexivity.
    rewrite (rep_greedy_max _ _ d2 _ _ a); [done|done|by apply length_pos_nonempty|done|done].
Qed.

(** After the number: the dot, the space and the title. *)
Lemma rmatch_header_tail title c :
  title ≠ [] → all_of not_linebreak title →
  (∀ x, head title = Some x → Py_UNICODE_ISSPACE x = false) →
  rmatch header_tail (0x2E%N :: 0x20%N :: title) c (λ _ c', Some c') =
    Some (<[2 := title]> c).
Proof.
  intros Hne Hnl Hhd. unfold header_tail. cbn [rmatch].
  apply (rep_greedy_max _ _ [] (0x2E%N :: 0x20%N :: title));
    [constructor|done|by intros x [= <-]|].
  replace (is_dot 0x2E%N) with true by reflexivity.
  apply (rep_greedy_max _ _ [0x20%N] title); [by repeat constructor|simpl; lia|done|].
  pose proof (rep_greedy_max not_linebreak 1 title []
                (λ s', Some (<[2 := take (length title - length s') title]> c))
                (<[2 := title]> c)) as H.
  rewrite app_nil_r in H. apply H; [done|by apply length_pos_nonempty|done|].
  cbn [length]. by rewrite Nat.sub_0_r, firstn_all.
Qed.

Lemma rmatch_cat {A} r1 r2 s c (k : str → gmap nat str → option A) :
  rmatch (Cat r1 r2) s c k = rmatch r1 s c (λ s1 c1, rmatch r2 s1 c1 k).
Proof. reflexivity. Qed.

Lemma rmatch_opt {A} r s c (k : str → gmap nat str → option A) :
  rmatch (Opt r) s c k =
    match rmatch r s c k with Some a => Some a | None => k s c end.
Proof. reflexivity. Qed.

Lemma rmatch_grp {A} i r s c (k : str → gmap nat str → option A) :
  rmatch (Grp i r) s c k =
    rmatch r s c (λ s' c', k s' (<[i := take (length s - length s') s]> c')).
Proof. reflexivity. Qed.

Lemma marker_letters : marker = [0x421; 0x442; 0x430; 0x442; 0x44C; 0x44F]%N.
Proof. vm_compute. reflexivity. Qed.

Lemma marker_word_marker : marker_word marker.
Proof.
  unfold marker_word. rewrite marker_letters.
  repeat (constructor; [vm_compute; reflexivity|]). constructor.
Qed.

(** In a written header line the marker word occurs at the start only,
    when the title does not mention it. *)
Lemma written_line_mentions num title :
  dotted_num num → mentions marker title = false →
  mentions marker
    ([0x442; 0x430; 0x442; 0x44C; 0x44F; 0x20]%N ++ num ++ [0x2E; 0x20]%N ++ title)
  = false.
Proof.
  intros Hnum Hmen. rewrite marker_letters in Hmen |- *.
  rewrite !app_assoc. rewrite mentions_skip; [done|].
  apply dotted_num_chars in Hnum as [Hnum _].
  apply Forall_app. split; [apply Forall_app; split; [|done]|].
  - repeat (constructor; [vm_compute; reflexivity|]). constructor.
  - repeat (constructor; [vm_compute; reflexivity|]). constructor.
Qed.

Lemma header_match_written num title :
  dotted_num num → title ≠ [] → all_of not_linebreak title →
  (∀ x, head title = Some x → Py_UNICODE_ISSPACE x = false) →
  mentions marker title = false →
  header_match (u "Статья " ++ num ++ u ". " ++ title) = Some (num, title).
Proof.
  intros Hnum Hne Hnl Hhd Hmen.
  change (u "Статья ") with (marker ++ [0x20%N]).
  change (u ". ") with [0x2E%N; 0x20%N].
  rewrite <- app_assoc. cbn [app].
  set (after := 0x20%N :: num ++ 0x2E%N :: 0x20%N :: title).
  assert (re_match ARTICLE_HEADER (marker ++ after) =
          Some (<[2 := title]> (<[1 := num]> ∅))) as Hm.
  2:{ unfold header_match. rewrite Hm. unfold group.
      by rewrite lookup_insert_ne, !lookup_insert_eq by done. }
  unfold re_match.
  change ARTICLE_HEADER with
    (Cat (Opt (Cat (Rep false 0 not_linebreak) (Chr Py_UNICODE_ISSPACE)))
       (Cat (literal marker)
          (Cat (Rep true 1 Py_UNICODE_ISSPACE)
             (Cat (Grp 1 header_number) header_tail)))).
  rewrite rmatch_cat, rmatch_opt, rmatch_prefix_fails.
  - rewrite rmatch_cat.
    rewrite (rmatch_literal marker marker after) by apply marker_word_marker.
    unfold after. rewrite rmatch_cat.
    apply (rmatch_rep_max _ _ [0x20%N] (num ++ 0x2E%N :: 0x20%N :: title));
      [by repeat constructor|simpl; lia| |].
    { apply dotted_num_chars in Hnum as (_ & d & num' & -> & Hd).
      intros x [= <-]. by apply decimal_facts in Hd as (? & _). }
    rewrite rmatch_cat, rmatch_grp.
    apply rmatch_header_number; [done|vm_compute; reflexivity|].
    rewrite length_app, Nat.add_sub, take_app_length.
    by apply rmatch_header_tail.
  - intros p y s' c' Hline.
    apply (rmatch_literal_fails marker
             (Cat (Rep true 1 Py_UNICODE_ISSPACE)
                (Cat (Grp 1 header_number) header_tail))).
    pose proof (written_line_mentions num title Hnum Hmen) as Hw.
    unfold after in Hline. rewrite marker_letters in Hline. cbn [app] in Hline.
    destruct p as [|x p]; cbn [app] in Hline; injection Hline as _ Hline.
    + apply (mentions_suffix marker []). by rewrite <- Hline.
    + apply (mentions_suffix marker (p ++ [y])).
      rewrite <- app_assoc. cbn [app]. by rewrite <- Hline.
Qed.

Lemma normalized_chars s :
  normalized s →
  all_of not_linebreak s ∧ (∀ x, head s = Some x → Py_UNICODE_ISSPACE x = false).
Proof.
  intros (Hsp & _ & Hhd & _). split.
  - apply Forall_forall. intros c Hc. unfold not_linebreak.
    apply negb_true_iff, N.eqb_neq. intros ->.
    by specialize (Hsp _ Hc eq_refl).
  - intros x Hx. destruct s as [|y s]; [done|]. injection Hx as ->.
    destruct (Py_UNICODE_ISSPACE x) eqn:E; [|done].
    rewrite (Hsp x) in Hhd; [by destruct (Hhd s)|by left|done].
Qed.

Lemma str_split_one sep p : sep ∉ p → str_split sep p = [p].
Proof.
  induction p as [|c p IH]; [done|]. intros [Hc Hp]%not_elem_of_cons. simpl.
  rewrite (proj2 (N.eqb_neq c sep)) by done. by rewrite IH.
Qed.

Lemma str_split_app sep p s :
  sep ∉ p → str_split sep (p ++ sep :: s) = p :: str_split sep s.
Proof.
  induction p as [|c p IH]; simpl.
  - by rewrite N.eqb_refl.
  - intros [Hc Hp]%not_elem_of_cons.
    rewrite (proj2 (N.eqb_neq c sep)) by done. by rewrite IH.
Qed.

(** Splitting undoes joining when no part holds the separator. *)
Lemma str_split_join sep parts :
  parts ≠ [] → Forall (λ p, sep ∉ p) parts →
  str_split sep (join [sep] parts) = parts.
Proof.
  intros Hne Hall. induction Hall as [|p parts Hp Hall IH]; [done|].
  destruct parts as [|q parts]; [by apply str_split_one|].
  change (join [sep] (p :: q :: parts)) with (p ++ sep :: join [sep] (q :: parts)).
  rewrite str_split_app by done. f_equal. by apply IH.
Qed.

Lemma not_linebreak_not_elem s : all_of not_linebreak s → 0x0A%N ∉ s.
Proof.
  intros Hs Hin. unfold all_of in Hs.
  pose proof (proj1 (Forall_forall _ _) Hs _ Hin) as H. done.
Qed.

Lemma header_line_no_linebreak a :
  dotted_num (article_num a) → normalized (article_title a) →
  0x0A%N ∉ header_line a.
Proof.
  intros Hnum Ht. apply not_linebreak_not_elem. unfold header_line.
  apply Forall_app. split; [|apply Forall_app; split; [|apply Forall_app; split]].
  - repeat (constructor; [vm_compute; reflexivity|]). constructor.
  - destruct Hnum as (d1 & _ & H1 & [->|(d2 & _ & H2 & ->)]).
    + eapply Forall_impl; [exact H1|]. intros c Hc.
      by apply decimal_facts in Hc as (_ & _ & ?).
    + apply Forall_app. split; [|apply Forall_app; split].
      * eapply Forall_impl; [exact H1|]. intros c Hc.
        by apply decimal_facts in Hc as (_ & _ & ?).
      * by repeat constructor.
      * eapply Forall_impl; [exact H2|]. intros c Hc.
        by apply decimal_facts in Hc as (_ & _ & ?).
  - repeat (constructor; [vm_compute; reflexivity|]). constructor.
  - by apply normalized_chars in Ht as [? _].
Qed.

Lemma page_record_of raw cid page_hash html a :
  a ∈ parse_article_page raw cid page_hash html →
  emitted cid a ∧ page_record raw cid page_hash a.
Proof.
  intros Ha. split.
  - pose proof (parse_article_page_emitted raw cid page_hash html) as He.
    rewrite Forall_forall in He. by apply He.
  - unfold parse_article_page in Ha.
    destruct (find_content html) as [content|]; [|by apply elem_of_nil in Ha].
    unfold parse_paragraphs in Ha.
    destruct (page_record_foldl raw cid page_hash (descendants_p content) init)
      as [Ht Hall]; [apply normalized_nil|constructor|].
    pose proof (page_record_save raw cid page_hash _ Ht Hall) as Hs.
    rewrite Forall_forall in Hs. by apply Hs.
Qed.

(** The title cannot mention the marker word freely: after a space, a
    second header in the line is the one the pattern finds. *)
Example header_line_with_second_header :
  header_match (u "Статья 1. a Статья 2. b") = Some (u "2", u "b").
Proof. vm_compute. reflexivity. Qed.

(** X17: the header line that [create_embedding_text] writes for a record
    of a page, [Статья <number>. <title>], is read back by the Header
    Grammar as the record's number and title, and normalising the title
    again changes nothing, provided the title is not empty and does not
    contain the marker word (in any case). *)
Theorem header_line_reparsed raw cid page_hash html a :
  a ∈ parse_article_page raw cid page_hash html →
  article_title a ≠ [] → mentions marker (article_title a) = false →
  header_match (header_line a) = Some (article_num a, article_title a) ∧
  clean_text (article_title a) = article_title a.
Proof.
  intros Ha Hne Hmen.
  apply page_record_of in Ha as [[_ Hnum _ _] (_ & Ht & _)].
  split; [|by apply normalized_fixed].
  destruct (normalized_chars _ Ht) as [Hnl Hhd].
  by apply header_match_written.
Qed.

Lemma header_line_reparsed_witness :
  let a := record ∅ (u "gk1") (u "page") (u "5") (u "Foo") long_body_1 in
  article_title a ≠ [] ∧ mentions marker (article_title a) = false ∧
  header_match (header_line a) = Some (article_num a, article_title a) ∧
  clean_text (article_title a) = article_title a.
Proof.
  intros a.
  assert (a ∈ parse_article_page ∅ (u "gk1") (u "page")
                (stream_page [u "Статья 5. Foo"; long_body_1])) as Ha.
  { assert (parse_article_page ∅ (u "gk1") (u "page")
              (stream_page [u "Статья 5. Foo"; long_body_1]) = [a]) as ->
      by (vm_compute; reflexivity).
    apply list_elem_of_here. }
  assert (article_title a ≠ []) as H1 by (vm_compute; discriminate).
  assert (mentions marker (article_title a) = false) as H2 by (vm_compute; reflexivity).
  split; [exact H1|]. split; [exact H2|].
  exact (header_line_reparsed ∅ (u "gk1") (u "page") _ a Ha H1 H2).
Defined.

(** X18: the embedded text of a record of a page has one line per part:
    split at the line feeds it gives back the name of the code, the
    chapter when the record has one, the header line and the text, when
    neither the name of the code nor the chapter holds a line feed (number,
    title and text of a record never do). *)
Theorem embedding_text_lines raw cid page_hash html a :
  a ∈ parse_article_page raw cid page_hash html →
  0x0A%N ∉ codex a → 0x0A%N ∉ chapter a →
  str_split 0x0A%N (create_embedding_text a) =
    if nonempty (chapter a)
    then [codex a; chapter a; header_line a; text a]
    else [codex a; header_line a; text a].
Proof.
  intros Ha Hcodex Hchapter.
  apply page_record_of in Ha as [[_ Hnum _ _] (_ & Ht & Hx)].
  assert (0x0A%N ∉ header_line a) as Hh by by apply header_line_no_linebreak.
  assert (0x0A%N ∉ text a) as Htext.
  { apply not_linebreak_not_elem. by apply normalized_chars in Hx as [? _]. }
  unfold create_embedding_text, embedding_parts.
  destruct (nonempty (chapter a)); cbn [take drop app];
    (rewrite str_split_join; [done|done|by repeat constructor]).
Qed.

Lemma embedding_text_lines_witness :
  let a := record indexed_raw (u "gk1") (u "0123456789abcdef") (u "1")
             (u "Основные начала") long_body_1 in
  (0x0A%N ∉ codex a) ∧ (0x0A%N ∉ chapter a) ∧
  str_split 0x0A%N (create_embedding_text a) =
    if nonempty (chapter a)
    then [codex a; chapter a; header_line a; text a]
    else [codex a; header_line a; text a].
Proof.
  intros a.
  assert (a ∈ parse_article_page indexed_raw (u "gk1") (u "0123456789abcdef")
                (stream_page [u "Статья 1. Основные начала"; long_body_1])) as Ha.
  { assert (parse_article_page indexed_raw (u "gk1") (u "0123456789abcdef")
              (stream_page [u "Статья 1. Основные начала"; long_body_1]) = [a]) as ->
      by (vm_compute; reflexivity).
    apply list_elem_of_here. }
  assert (0x0A%N ∉ codex a) as H1 by (apply (bool_decide_unpack _); vm_compute; exact I).
  assert (0x0A%N ∉ chapter a) as H2 by (apply (bool_decide_unpack _); vm_compute; exact I).
  split; [exact H1|]. split; [exact H2|].
  exact (embedding_text_lines indexed_raw (u "gk1") (u "0123456789abcdef") _ a Ha H1 H2).
Defined.

(** ** The pages that are downloaded *)

Lemma select_links_elem doc_path hrefs page_id url :
  (page_id, url) ∈ select_links doc_path hrefs →
  ∃ href, href ∈ hrefs ∧ href ≠ [] ∧ page_id = last_segment href ∧
    url = u "https://www.consultant.ru" ++ href ∧ 5 < length page_id.
Proof.
  unfold select_links. intros Hin.
  apply list_elem_of_In, in_flat_map in Hin as (href & Hh & Hin).
  apply list_elem_of_In in Hh, Hin. exists href. split; [done|].
  destruct (starts_with _ href && _) eqn:Hs; [|by apply elem_of_nil in Hin].
  destruct (nonempty _ && _) eqn:Hp; [|by apply elem_of_nil in Hin].
  apply list_elem_of_singleton in Hin as [= -> ->].
  apply andb_true_iff in Hp as [_ Hlen%bool_decide_eq_true].
  split; [|done]. intros ->. destruct doc_path; discriminate.
Qed.

Lemma unique_foldl_seen links acc (k : str) :
  k ∈ acc.1 → k ∈ (foldl unique_step acc links).1.
Proof.
  revert acc. induction links as [|l links IH]; intros acc Hin; simpl; [done|].
  apply IH. unfold unique_step. case_bool_decide; [done|].
  simpl. apply elem_of_union. by right.
Qed.

Lemma unique_foldl acc links :
  (∀ k, k ∈ acc.1 ↔ k ∈ acc.2.*1) → NoDup acc.2.*1 →
  let acc' := foldl unique_step acc links in
  (∀ k, k ∈ acc'.1 ↔ k ∈ acc'.2.*1) ∧ NoDup acc'.2.*1 ∧
  acc'.2 ⊆ acc.2 ++ links ∧
  (∀ l, l ∈ links → l.1 ∈ acc'.2.*1).
Proof.
  revert acc. induction links as [|l links IH]; intros acc Hseen Hnd; simpl.
  - split; [done|]. split; [done|]. split; [by rewrite app_nil_r|].
    by intros l ?%elem_of_nil.
  - assert ((l.1 ∈ acc.1 ∧ unique_step acc l = acc) ∨
            ((l.1 ∉ acc.1) ∧ unique_step acc l = ({[ l.1 ]} ∪ acc.1, acc.2 ++ [l])))
      as [[Hin Heq]|[Hin Heq]].
    { unfold unique_step. case_bool_decide; [by left|by right]. }
    + rewrite Heq. destruct (IH acc Hseen Hnd) as (Hs' & Hnd' & Hsub & Hall).
      split; [done|]. split; [done|]. split.
      * intros x Hx. apply Hsub in Hx. rewrite elem_of_app in Hx |- *.
        destruct Hx as [?|?]; [by left|]. right. by right.
      * intros l' [->|Hl']%elem_of_cons; [|by apply Hall].
        apply Hs'. by apply unique_foldl_seen.
    + rewrite Heq. destruct (IH ({[ l.1 ]} ∪ acc.1, acc.2 ++ [l])) as (Hs' & Hnd' & Hsub & Hall).
      * intros k. simpl. rewrite fmap_app, elem_of_app, elem_of_union, elem_of_singleton.
        rewrite Hseen. simpl. rewrite list_elem_of_singleton. tauto.
      * simpl. rewrite fmap_app. apply NoDup_app. split; [done|]. split.
        -- intros k Hk. simpl. rewrite list_elem_of_singleton. intros ->.
           by apply Hin, Hseen.
        -- apply NoDup_singleton.
      * split; [done|]. split; [done|]. split.
        -- simpl in Hsub. by rewrite <- app_assoc in Hsub.
        -- intros l' [->|Hl']%elem_of_cons; [|by apply Hall].
           apply Hs'. apply unique_foldl_seen. simpl.
           apply elem_of_union. left. by apply elem_of_singleton.
Qed.

Lemma page_file_spec page_id :
  5 < length page_id →
  ends_with (u ".html") (page_file page_id) = true ∧
  page_file page_id ≠ u "index.html" ∧ stem (page_file page_id) = page_id.
Proof.
  intros Hlen. unfold page_file. split; [|split].
  - clear Hlen. induction page_id as [|c s IH]; [done|].
    simpl. rewrite IH. apply orb_true_r.
  - intros H. apply (f_equal length) in H. rewrite length_app in H.
    change (length (u ".html")) with 5 in H.
    change (length (u "index.html")) with 10 in H. lia.
  - unfold stem. rewrite length_app. change (length (u ".html")) with 5.
    rewrite bool_decide_eq_false_2 by lia.
    by rewrite Nat.add_sub, take_app_length.
Qed.

(** X19: the pages selected for download from a table of contents have
    pairwise different identifiers; each identifier is the last path
    segment of a link of the table, longer than 5 characters and without a
    slash, and the address is the site followed by the [href]; every
    selected link has its identifier among those kept.  The file
    a page is written to is one that [parse_codex] reads, under the
    identifier as page hash, and never the table of contents itself. *)
Theorem downloaded_pages doc_path index :
  NoDup (download_links doc_path index).*1 ∧
  (∀ page_id url, (page_id, url) ∈ download_links doc_path index →
     ∃ href, href ∈ flat_map link_hrefs index ∧ page_id = last_segment href ∧
       url = u "https://www.consultant.ru" ++ href ∧
       5 < length page_id ∧ (0x2F%N ∉ page_id) ∧
       ends_with (u ".html") (page_file page_id) = true ∧
       page_file page_id ≠ u "index.html" ∧ stem (page_file page_id) = page_id) ∧
  (∀ link, link ∈ select_links doc_path (flat_map link_hrefs index) →
     link.1 ∈ (download_links doc_path index).*1).
Proof.
  unfold download_links, unique_links.
  destruct (unique_foldl (∅, []) (select_links doc_path (flat_map link_hrefs index)))
    as (_ & Hnd & Hsub & Hall).
  { intros k. simpl. split; [by intros ?%elem_of_empty|by intros ?%elem_of_nil]. }
  { constructor. }
  split; [done|]. split; [|done].
  intros page_id url Hin. apply Hsub in Hin. simpl in Hin.
  apply select_links_elem in Hin as (href & Hh & _ & -> & -> & Hlen).
  exists href. split; [done|]. split; [done|]. split; [done|]. split; [done|].
  split; [apply last_segment_no_slash|]. by apply page_file_spec.
Qed.

Lemma link_hrefs_found :
  ∀ n href, href ∈ link_hrefs n →
    ∃ children, ITag (u "a") (Some href) children ∈ find_all_tags n.
Proof.
  fix IH 1. intros [s|name h children] href; simpl.
  - by intros ?%elem_of_nil.
  - rewrite elem_of_app. intros [Hin|Hin].
    + destruct h as [h|]; [|by apply elem_of_nil in Hin].
      case_bool_decide as Hn; [|by apply elem_of_nil in Hin].
      apply list_elem_of_singleton in Hin as ->. subst name.
      exists children. apply elem_of_app. left.
      rewrite bool_decide_eq_true_2; [by left|].
      apply (bool_decide_unpack _). vm_compute. exact I.
    + assert (∃ ch, ITag (u "a") (Some href) ch ∈ flat_map find_all_tags children)
        as [ch Hch].
      { induction children as [|c cs IHc]; simpl in *.
        - by apply elem_of_nil in Hin.
        - apply elem_of_app in Hin as [H|H].
          + destruct (IH c href H) as [ch Hc]. exists ch.
            apply elem_of_app. by left.
          + destruct (IHc H) as [ch Hc]. exists ch. apply elem_of_app. by right. }
      exists ch. apply elem_of_app. by right.
Qed.

Lemma link_hrefs_found_all index href :
  href ∈ flat_map link_hrefs index →
  ∃ children, ITag (u "a") (Some href) children ∈ flat_map find_all_tags index.
Proof.
  induction index as [|n index IH]; simpl.
  - by intros ?%elem_of_nil.
  - intros [H|H]%elem_of_app.
    + destruct (link_hrefs_found n href H) as [ch Hc]. exists ch.
      apply elem_of_app. by left.
    + destruct (IH H) as [ch Hc]. exists ch. apply elem_of_app. by right.
Qed.

(** A key that has been entered stays in the map. *)
Lemma foldl_index_entered els st h :
  is_Some (st.1 !! h) ∨ (∃ el, el ∈ els ∧ link_hash el = Some h) →
  is_Some ((foldl index_step st els).1 !! h).
Proof.
  revert st. induction els as [|e els IH]; intros st; simpl.
  - intros [?|(? & ?%elem_of_nil & _)]; done.
  - intros H. apply IH. rewrite index_step_link. cbn zeta. cbn [fst].
    destruct H as [Hs|(el & [->|Hel]%elem_of_cons & Hl)].
    + left. destruct (link_hash e) as [h'|]; [|done].
      destruct (decide (h = h')) as [->|Hne];
        [by rewrite lookup_insert_eq | by rewrite lookup_insert_ne].
    + left. rewrite Hl. by rewrite lookup_insert_eq.
    + right. by exists el.
Qed.

Lemma chapter_map_key index h :
  is_Some (build_chapter_map index !! h) →
  ∃ el, el ∈ flat_map find_all_tags index ∧ link_hash el = Some h.
Proof.
  unfold build_chapter_map. intros [ch Hh].
  destruct (foldl_index_inv (flat_map find_all_tags index)
              (flat_map find_all_tags index) (∅, [])) as [_ Hmap].
  - done.
  - by left.
  - intros h' ch'. cbn [fst]. by rewrite lookup_empty.
  - by destruct (Hmap h ch Hh) as [_ ?].
Qed.

(** X20: a page selected for download has an entry in the chapter map
    exactly when its identifier is longer than 10 characters: both programs
    take the
    last path segment of the link, but the download keeps the segments
    longer than 5 characters and the chapter map those longer than 10, so
    the records of a page with an identifier of 6 to 10 characters have no
    chapter. *)
Theorem downloaded_page_chapter_entry doc_path index page_id url :
  (page_id, url) ∈ download_links doc_path index →
  (is_Some (build_chapter_map index !! page_id) ↔ 10 < length page_id) ∧
  (length page_id ≤ 10 →
   ∀ raw cid d, raw !! cid = Some d →
     chapter_map d = Some (build_chapter_map index) →
     extract_chapter_from_index raw cid page_id = []).
Proof.
  intros Hin.
  assert (is_Some (build_chapter_map index !! page_id) ↔ 10 < length page_id) as Hiff.
  { split.
    - intros (el & _ & Hl)%chapter_map_key. by apply link_hash_spec in Hl as [? _].
    - intros Hlen. unfold download_links, unique_links in Hin.
      destruct (unique_foldl (∅, [])
                  (select_links doc_path (flat_map link_hrefs index)))
        as (_ & _ & Hsub & _).
      { intros k. simpl. split; [by intros ?%elem_of_empty|by intros ?%elem_of_nil]. }
      { constructor. }
      apply Hsub in Hin. simpl in Hin.
      apply select_links_elem in Hin as (href & Hh & Hne & -> & _ & _).
      apply link_hrefs_found_all in Hh as [ch Hel].
      unfold build_chapter_map. apply foldl_index_entered. right.
      exists (ITag (u "a") (Some href) ch). split; [done|].
      unfold link_hash. rewrite bool_decide_eq_true_2 by done.
      destruct href; [done|]. cbn [nonempty nonempty_list andb].
      by rewrite bool_decide_eq_true_2. }
  split; [done|]. intros Hlen raw cid d Hd Hm.
  unfold extract_chapter_from_index. rewrite Hd, Hm.
  destruct (decide (is_Some (build_chapter_map index !! page_id))) as [Hs|Hn].
  - apply Hiff in Hs. lia.
  - apply eq_None_not_Some in Hn. unfold str, char in *. by rewrite Hn.
Qed.

Lemma downloaded_page_chapter_entry_witness :
  (u "shortid", u "https://www.consultant.ru/document/cons_doc_LAW_5142/shortid/")
    ∈ download_links (u "/document/cons_doc_LAW_5142") sample_index ∧
  (is_Some (build_chapter_map sample_index !! u "shortid") ↔ 10 < length (u "shortid")) ∧
  (length (u "shortid") ≤ 10 →
   ∀ raw cid d, raw !! cid = Some d →
     chapter_map d = Some (build_chapter_map sample_index) →
     extract_chapter_from_index raw cid (u "shortid") = []).
Proof.
  assert ((u "shortid", u "https://www.consultant.ru/document/cons_doc_LAW_5142/shortid/")
            ∈ download_links (u "/document/cons_doc_LAW_5142") sample_index) as H.
  { assert (download_links (u "/document/cons_doc_LAW_5142") sample_index =
              [ (u "0123456789abcdef",
                 u "https://www.consultant.ru/document/cons_doc_LAW_5142/0123456789abcdef/");
                (u "shortid",
                 u "https://www.consultant.ru/document/cons_doc_LAW_5142/shortid/") ]) as ->
      by (vm_compute; reflexivity).
    apply list_elem_of_further, list_elem_of_here. }
  split; [exact H|].
  exact (downloaded_page_chapter_entry _ _ _ _ H).
Defined.
